(** * TrailsApp: the lifecycle core of the Trails runtime (index.js)

    A shallow embedding of [TrailsApp]: the constructor's validation and
    environment handling, the event bus it inherits from Node's
    [EventEmitter], and the two barrier combinators [onceAny] and [after]
    with [start] on top of them.

    The combinators are written against the platform's promises, so the
    development contains a small operational model of them: a heap of
    promises with their reactions, the queue of promise jobs (microtasks),
    and the listener table of the emitter. *)

From Stdlib Require Import ZArith Lia.
From stdpp Require Import base tactics option list strings gmap fin_maps countable.

Set Warnings "-register-all,-clear-no-such-hyp".

(** ** Promise identities *)

(** One run of a combinator. [after] starts [onceAny] for a nested list, so
    a run is either started by the caller ([Top k], the k-th call made on
    the application) or by element [i] of the [after] run [k]. *)
Inductive invocation :=
  | Top (k : nat)
  | Nested (k i : nat).

(** Promises are objects compared by identity. A promise is named by the
    place that creates it and the run that reached that place; two
    creations never share a name. *)
Inductive pid :=
  | PListener (c : invocation) (j : nat) (* onceAny: [new Promise] for the j-th name *)
  | PRace (c : invocation)               (* onceAny: [Promise.race(...)] *)
  | PHandled (c : invocation)            (* onceAny: [.then(handlerWrapper)] *)
  | PCleaned (c : invocation)            (* onceAny: the second [.then], returned *)
  | PElement (k i : nat)                 (* after: [new Promise] for the i-th element *)
  | PAll (k : nat)                       (* after: [Promise.all(...)] *)
  | PAfter (k : nat)                     (* after: [.then(handlerWrapper)], returned *)
  | PStart (k : nat).                    (* start: [.then(() => ...)], returned *)

Global Instance invocation_eq_dec : EqDecision invocation.
Proof. solve_decision. Defined.
Global Instance pid_eq_dec : EqDecision pid.
Proof. solve_decision. Defined.

Definition invocation_code (c : invocation) : list nat :=
  match c with Top k => [k] | Nested k i => [k; i] end.

Definition pid_code (p : pid) : nat * list nat :=
  match p with
  | PListener c j => (0, j :: invocation_code c)
  | PRace c => (1, invocation_code c)
  | PHandled c => (2, invocation_code c)
  | PCleaned c => (3, invocation_code c)
  | PElement k i => (4, [k; i])
  | PAll k => (5, [k])
  | PAfter k => (6, [k])
  | PStart k => (7, [k])
  end.

Definition invocation_decode (l : list nat) : option invocation :=
  match l with
  | [k] => Some (Top k)
  | [k; i] => Some (Nested k i)
  | _ => None
  end.

Definition pid_decode (x : nat * list nat) : option pid :=
  match x with
  | (0, j :: l) => c ← invocation_decode l; Some (PListener c j)
  | (1, l) => PRace <$> invocation_decode l
  | (2, l) => PHandled <$> invocation_decode l
  | (3, l) => PCleaned <$> invocation_decode l
  | (4, [k; i]) => Some (PElement k i)
  | (5, [k]) => Some (PAll k)
  | (6, [k]) => Some (PAfter k)
  | (7, [k]) => Some (PStart k)
  | _ => None
  end.

Lemma pid_decode_code p : pid_decode (pid_code p) = Some p.
Proof. by destruct p as [[]?|[]|[]|[]| | | |]. Qed.

Global Instance pid_countable : Countable pid :=
  inj_countable pid_code pid_decode pid_decode_code.

(** ** Values carried by events and promises *)

(** JavaScript values as far as the combinators look at them. [VApp] is the
    application object itself ([this]), [VResolve p] the resolve function of
    the promise [p]. None of them is a thenable, so resolving a promise with
    one fulfils it. *)
Inductive value :=
  | VUndefined
  | VNum (n : Z)
  | VStr (s : string)
  | VArr (vs : list value)
  | VApp
  | VResolve (p : pid).

(** ** Handlers, callbacks and reactions *)

(** The function handed to a combinator as its second argument: the default
    [NOOP], a function of the caller, or (inside [after]) the [resolve]
    function of an element promise. A caller's function is known by a
    number; what it returns is [ret] of its argument. *)
Inductive handler :=
  | NOOP
  | HUser (id : nat) (ret : value → value)
  | HResolve (p : pid).

(** The closures the combinators pass to [.then]. *)
Inductive callback :=
  | KHandlerWrapperAny (h : handler)
      (* onceAny: (...args) => { handler(args); return args } *)
  | KCleanup (events : list string) (resolveCallback : option pid)
      (* onceAny: args => { events.forEach(removeListener); return args } *)
  | KHandlerWrapperAll (h : handler)
      (* after: (args) => { handler(args); return args } *)
  | KStarted.
      (* start: () => { this.started = true; return this } *)

(** What a promise does when it is fulfilled. *)
Inductive reaction :=
  | RThen (k : callback) (q : pid)  (* [.then(k)], whose result is promise [q] *)
  | RRace (r : pid)                 (* the resolve function of the race [r] *)
  | RAll (q : pid) (i : nat).       (* element [i] of [Promise.all] [q] *)

Inductive pstate :=
  | Pending (rs : list reaction)
  | Fulfilled (v : value).

(** ** The application state *)

Record app := App {
  listeners : list (string * pid);
    (* the emitter's table in registration order; every listener is a
       [once] wrapper around the resolve function of the promise *)
  promises : gmap pid pstate;
  slots : gmap pid (list (option value));
    (* the value list of each [Promise.all]; [None]: not resolved yet *)
  jobs : list (reaction * value);   (* the promise job queue *)
  calls : list (nat * value);       (* calls of the caller's handlers *)
  started : bool;
  trace : list string;              (* log.debug('trails event:', event) *)
  ncalls : nat
}.

Definition fresh : app :=
  {| listeners := []; promises := ∅; slots := ∅; jobs := []; calls := [];
     started := false; trace := []; ncalls := 0 |}.

Definition set_listeners (f : list (string * pid) → list (string * pid)) (s : app) : app :=
  {| listeners := f (listeners s); promises := promises s; slots := slots s;
     jobs := jobs s; calls := calls s; started := started s; trace := trace s;
     ncalls := ncalls s |}.

Definition set_promises (f : gmap pid pstate → gmap pid pstate) (s : app) : app :=
  {| listeners := listeners s; promises := f (promises s); slots := slots s;
     jobs := jobs s; calls := calls s; started := started s; trace := trace s;
     ncalls := ncalls s |}.

Definition set_slots
    (f : gmap pid (list (option value)) → gmap pid (list (option value))) (s : app) : app :=
  {| listeners := listeners s; promises := promises s; slots := f (slots s);
     jobs := jobs s; calls := calls s; started := started s; trace := trace s;
     ncalls := ncalls s |}.

Definition set_jobs (f : list (reaction * value) → list (reaction * value)) (s : app) : app :=
  {| listeners := listeners s; promises := promises s; slots := slots s;
     jobs := f (jobs s); calls := calls s; started := started s; trace := trace s;
     ncalls := ncalls s |}.

Definition set_calls (f : list (nat * value) → list (nat * value)) (s : app) : app :=
  {| listeners := listeners s; promises := promises s; slots := slots s;
     jobs := jobs s; calls := f (calls s); started := started s; trace := trace s;
     ncalls := ncalls s |}.

Definition set_started (b : bool) (s : app) : app :=
  {| listeners := listeners s; promises := promises s; slots := slots s;
     jobs := jobs s; calls := calls s; started := b; trace := trace s;
     ncalls := ncalls s |}.

Definition set_trace (f : list string → list string) (s : app) : app :=
  {| listeners := listeners s; promises := promises s; slots := slots s;
     jobs := jobs s; calls := calls s; started := started s; trace := f (trace s);
     ncalls := ncalls s |}.

Definition set_ncalls (n : nat) (s : app) : app :=
  {| listeners := listeners s; promises := promises s; slots := slots s;
     jobs := jobs s; calls := calls s; started := started s; trace := trace s;
     ncalls := n |}.

(** ** Promises *)

(** [new Promise(...)]: a pending promise without reactions. *)
Definition new_promise (p : pid) (s : app) : app :=
  set_promises <[p := Pending []]> s.

(** The resolve function of [p] called with [v]. It fulfils a pending
    promise and queues one job per reaction; on a settled promise it does
    nothing. *)
Definition resolve (p : pid) (v : value) (s : app) : app :=
  match promises s !! p with
  | Some (Pending rs) =>
      set_jobs (λ q, q ++ map (λ r, (r, v)) rs) (set_promises <[p := Fulfilled v]> s)
  | _ => s
  end.

(** Attaching a reaction: kept by a pending promise, queued at once by a
    fulfilled one. *)
Definition subscribe (p : pid) (r : reaction) (s : app) : app :=
  match promises s !! p with
  | Some (Pending rs) => set_promises <[p := Pending (rs ++ [r])]> s
  | Some (Fulfilled v) => set_jobs (λ q, q ++ [(r, v)]) s
  | None => s
  end.

(** [p.then(k)], with [q] the promise it returns. *)
Definition then_ (p : pid) (k : callback) (q : pid) (s : app) : app :=
  subscribe p (RThen k q) (new_promise q s).

(** [Promise.race(ps)], with [r] the promise it returns.  The platform
    reaches the race through a [.then] on each element; the model attaches
    the reaction to the element itself, which changes how many jobs run, not
    their order nor what they settle. *)
Definition race (r : pid) (ps : list pid) (s : app) : app :=
  foldl (λ s p, subscribe p (RRace r) s) (new_promise r s) ps.

(** [Promise.all(ps)], with [q] the promise it returns. An empty list is
    resolved on the spot. *)
Definition all (q : pid) (ps : list pid) (s : app) : app :=
  let s := set_slots <[q := replicate (length ps) None]> (new_promise q s) in
  let s := foldl (λ s ip, subscribe ip.2 (RAll q ip.1) s) s (imap pair ps) in
  if decide (ps = []) then resolve q (VArr []) s else s.

(** ** The event bus *)

(** [this.once(name, resolve_p)]. *)
Definition once (name : string) (p : pid) (s : app) : app :=
  set_listeners (λ l, l ++ [(name, p)]) s.

(** Deleting the last occurrence of an entry, as [removeListener] scans the
    listener array from its end. *)
Fixpoint remove_last (x : string * pid) (l : list (string * pid)) : list (string * pid) :=
  match l with
  | [] => []
  | y :: l' =>
      if decide (x ∈ l') then y :: remove_last x l'
      else if decide (x = y) then l' else y :: l'
  end.

(** [this.removeListener(name, resolve_p)]. *)
Definition removeListener (name : string) (p : pid) (s : app) : app :=
  set_listeners (remove_last (name, p)) s.

(** One [once] wrapper running: it takes itself off the table and calls the
    resolve function with the event's arguments, of which a resolve function
    reads the first. *)
Definition fire (name : string) (args : list value) (s : app) (l : string * pid) : app :=
  resolve l.2 (hd VUndefined args) (removeListener name l.2 s).

(** [this.emit(name, ...args)]: the override logs the event, then the
    emitter calls the listeners registered for [name] at that moment, in
    registration order.  Left out: the emitter's own [newListener] and
    [removeListener] events and its special treatment of [error], which the
    combinators do not use, and the boolean that [emit] returns. *)
Definition emit (name : string) (args : list value) (s : app) : app :=
  foldl (fire name args) (set_trace (λ t, t ++ [name]) s)
        (filter (λ l, l.1 = name) (listeners s)).

(** ** Promise jobs *)

Definition call_handler (h : handler) (payload : value) (s : app) : app * value :=
  match h with
  | NOOP => (s, VUndefined)
  | HUser id ret => (set_calls (λ c, c ++ [(id, payload)]) s, ret payload)
  | HResolve p => (resolve p payload s, VUndefined)
  end.

Definition run_callback (k : callback) (v : value) (s : app) : app * value :=
  match k with
  | KHandlerWrapperAny h =>
      let args := VArr [v] in
      let '(s, _) := call_handler h args s in (s, args)
  | KCleanup events resolveCallback =>
      (foldl (λ s eventName,
                match resolveCallback with
                | Some p => removeListener eventName p s
                | None => s
                end) s events, v)
  | KHandlerWrapperAll h =>
      let '(s, _) := call_handler h v s in (s, v)
  | KStarted => (set_started true s, VApp)
  end.

(** All slots of a [Promise.all] filled: its value list. *)
Definition filled (l : list (option value)) : option (list value) :=
  mapM id l.

Definition run_job (j : reaction * value) (s : app) : app :=
  let '(r, v) := j in
  match r with
  | RThen k q => let '(s, w) := run_callback k v s in resolve q w s
  | RRace r => resolve r v s
  | RAll q i =>
      match slots s !! q with
      | Some l =>
          match l !! i with
          | Some None =>
              let l' := <[i := Some v]> l in
              let s := set_slots <[q := l']> s in
              match filled l' with
              | Some vs => resolve q (VArr vs) s
              | None => s
              end
          | _ => s
          end
      | None => s
      end
  end.

(** The first job of the queue. *)
Definition step (s : app) : app :=
  match jobs s with
  | [] => s
  | j :: q => run_job j (set_jobs (λ _, q) s)
  end.

Definition reactions_of (ps : pstate) : nat :=
  match ps with Pending rs => length rs | Fulfilled _ => 0 end.

(** Jobs that can still run: those queued and one per reaction waiting in
    the heap. No job adds a reaction, so this many steps empty the queue. *)
Definition backlog (s : app) : nat :=
  length (jobs s) + map_fold (λ _ ps n, reactions_of ps + n) 0 (promises s).

(** Running the job queue until it is empty, as the platform does whenever
    the running code returns to the event loop. *)
Definition drain (s : app) : app := Nat.iter (backlog s) step s.

(** ** The combinators *)

(** The first argument of [onceAny]: one name or an array of names. *)
Inductive any_spec :=
  | OneName (n : string)
  | Names (ns : list string).

(** An element of the array given to [after]: a name or an array of names. *)
Inductive element :=
  | Name (n : string)
  | AnyOf (ns : list string).

Inductive after_spec :=
  | OneEvent (n : string)
  | Events (es : list element).

(** The function [onceAny] maps over its event names:
    [eventName => new Promise(resolve => {
       resolveCallback = resolve; this.once(eventName, resolveCallback) })].
    It runs with the promises made so far and the variable
    [resolveCallback], which it overwrites. *)
Definition listen (c : invocation) (acc : app * list pid * option pid)
    (eventName : string) : app * list pid * option pid :=
  let '(s, ps, _) := acc in
  let p := PListener c (length ps) in
  (once eventName p (new_promise p s), ps ++ [p], Some p).

(** [onceAny (events, handler = NOOP)], run [c]. *)
Definition onceAny (c : invocation) (events : any_spec) (h : handler) (s : app) : pid * app :=
  let events := match events with OneName n => [n] | Names ns => ns end in
  let '(s, ps, resolveCallback) := foldl (listen c) (s, [], None) events in
  let s := race (PRace c) ps s in
  let s := then_ (PRace c) (KHandlerWrapperAny h) (PHandled c) s in
  let s := then_ (PHandled c) (KCleanup events resolveCallback) (PCleaned c) s in
  (PCleaned c, s).

(** The function [after] maps over its elements:
    [eventName => new Promise(resolve => {
       if (eventName instanceof Array) this.onceAny(eventName, resolve)
       else this.once(eventName, resolve) })]. *)
Definition await (k : nat) (acc : app * list pid) (eventName : element) : app * list pid :=
  let '(s, ps) := acc in
  let p := PElement k (length ps) in
  let s := new_promise p s in
  let s := match eventName with
           | AnyOf ns => (onceAny (Nested k (length ps)) (Names ns) (HResolve p) s).2
           | Name n => once n p s
           end in
  (s, ps ++ [p]).

(** [after (events, handler = NOOP)], run [Top k]. *)
Definition after (k : nat) (events : after_spec) (h : handler) (s : app) : pid * app :=
  let events := match events with OneEvent n => [Name n] | Events es => es end in
  let '(s, ps) := foldl (await k) (s, []) events in
  let s := all (PAll k) ps s in
  let s := then_ (PAll k) (KHandlerWrapperAll h) (PAfter k) s in
  (PAfter k, s).

(** [start ()], run [Top k]. The listeners bound by [lib.Trails] and
    [lib.Trailpack], and the callback given to [i18next.init], act on the
    bus later, through the events they emit. *)
Definition start (k : nat) (s : app) : pid * app :=
  let '(p, s) := after k (OneEvent "trails:ready"%string) NOOP s in
  (PStart k, then_ p KStarted (PStart k) s).

(** A call made by application code takes the next run number. *)
Definition call_onceAny (events : any_spec) (h : handler) (s : app) : pid * app :=
  onceAny (Top (ncalls s)) events h (set_ncalls (S (ncalls s)) s).

Definition call_after (events : after_spec) (h : handler) (s : app) : pid * app :=
  after (ncalls s) events h (set_ncalls (S (ncalls s)) s).

Definition call_start (s : app) : pid * app :=
  start (ncalls s) (set_ncalls (S (ncalls s)) s).

(** ** What happens after a call *)

(** The rest of the program, seen from the bus: it emits events, and now and
    then returns to the event loop, which runs the queued promise jobs. *)
Inductive action :=
  | Emit (name : string) (args : list value)
  | Tick.

Definition perform (s : app) (a : action) : app :=
  match a with
  | Emit name args => emit name args s
  | Tick => drain s
  end.

Definition run (script : list action) (s : app) : app := foldl perform s script.

(** The state of a promise once the queue has been run. *)
Definition outcome (p : pid) (s : app) : option pstate := promises (drain s) !! p.

(** * One run of a combinator and what follows it *)

(** The run under study: a call of [onceAny] or of [after] on the
    application, the latter possibly made by [start]. *)
Inductive system :=
  | SAny (k : nat) (g : list string) (h : handler)
  | SAfter (k : nat) (es : list element) (h : handler) (st : bool).

Definition run_of (S : system) : nat :=
  match S with SAny k _ _ => k | SAfter k _ _ _ => k end.

Definition caller_handler (S : system) : handler :=
  match S with SAny _ _ h => h | SAfter _ _ h _ => h end.

(** The promise that is settled right after the caller's handler ran. *)
Definition handler_site (S : system) : pid :=
  match S with SAny k _ _ => PHandled (Top k) | SAfter k _ _ _ => PAfter k end.

(** The runs of [onceAny] in the system, with their names and handler. *)
Definition group (S : system) (c : invocation) : option (list string * handler) :=
  match S, c with
  | SAny k g h, Top k' => if decide (k' = k) then Some (g, h) else None
  | SAfter k es _ _, Nested k' i =>
      if decide (k' = k) then
        match es !! i with
        | Some (AnyOf g) => Some (g, HResolve (PElement k i))
        | _ => None
        end
      else None
  | _, _ => None
  end.

(** The elements of [after] that are plain names. *)
Definition plain (S : system) (i : nat) : option string :=
  match S with
  | SAfter _ es _ _ => match es !! i with Some (Name n) => Some n | _ => None end
  | SAny _ _ _ => None
  end.

(** [resolveCallback] once [events.map] is through: the resolve function of
    the last name's promise. *)
Definition last_listener (c : invocation) (g : list string) : option pid :=
  match length g with 0 => None | S n => Some (PListener c n) end.

(** The promise a [.then] was called on, and the callback it was given. *)
Definition source (S : system) (q : pid) : option (pid * callback) :=
  match q with
  | PHandled c => '(g, h) ← group S c; Some (PRace c, KHandlerWrapperAny h)
  | PCleaned c => '(g, h) ← group S c; Some (PHandled c, KCleanup g (last_listener c g))
  | PAfter k' =>
      match S with
      | SAfter k _ h _ => if decide (k' = k) then Some (PAll k, KHandlerWrapperAll h) else None
      | _ => None
      end
  | PStart k' =>
      match S with
      | SAfter k _ _ true => if decide (k' = k) then Some (PAfter k, KStarted) else None
      | _ => None
      end
  | _ => None
  end.

(** The reactions a promise of the system carries while it is pending. *)
Definition static (S : system) (p : pid) : list reaction :=
  match p with
  | PListener c _ => [RRace (PRace c)]
  | PRace c =>
      match group S c with
      | Some (_, h) => [RThen (KHandlerWrapperAny h) (PHandled c)]
      | None => []
      end
  | PHandled c =>
      match group S c with
      | Some (g, _) => [RThen (KCleanup g (last_listener c g)) (PCleaned c)]
      | None => []
      end
  | PCleaned _ => []
  | PElement k i => [RAll (PAll k) i]
  | PAll k =>
      match S with
      | SAfter _ _ h _ => [RThen (KHandlerWrapperAll h) (PAfter k)]
      | _ => []
      end
  | PAfter k =>
      match S with
      | SAfter _ _ _ true => [RThen KStarted (PStart k)]
      | _ => []
      end
  | PStart _ => []
  end.

(** What a callback returns. *)
Definition result (k : callback) (v : value) : value :=
  match k with
  | KHandlerWrapperAny _ => VArr [v]
  | KCleanup _ _ => v
  | KHandlerWrapperAll _ => v
  | KStarted => VApp
  end.

(** The promise a reaction settles. *)
Definition target (r : reaction) : pid :=
  match r with RThen _ q => q | RRace q => q | RAll q _ => q end.

Definition targets (q : pid) (j : reaction * value) : Prop := target j.1 = q.

Global Instance targets_dec q j : Decision (targets q j).
Proof. unfold targets. apply _. Defined.

(** The record a caller's handler leaves in [calls]. *)
Definition log_of (h : handler) (payload : value) : list (nat * value) :=
  match h with HUser id _ => [(id, payload)] | _ => [] end.

(** A handler given by the caller; [HResolve] is internal to [after]. *)
Definition from_caller (h : handler) : Prop :=
  match h with HResolve _ => False | _ => True end.

(** The events emitted so far, oldest first. *)
Definition history := list (string * list value).

(** The first argument of the first emission whose name satisfies [P]. *)
Fixpoint heard (P : string → bool) (hist : history) : option value :=
  match hist with
  | [] => None
  | (n, args) :: hist => if P n then Some (hd VUndefined args) else heard P hist
  end.

Definition heard_name (n : string) : history → option value :=
  heard (λ m, bool_decide (m = n)).

Definition heard_any (g : list string) : history → option value :=
  heard (λ m, bool_decide (m ∈ g)).

Definition emissions (script : list action) : history :=
  omap (λ a, match a with Emit n args => Some (n, args) | Tick => None end) script.

(** What an element of [after] has captured. *)
Definition captured (hist : history) (e : element) : option value :=
  match e with
  | Name n => heard_name n hist
  | AnyOf g => (λ v, VArr [v]) <$> heard_any g hist
  end.

(** The state of the run, as far as [hist] determines it. *)
Record Inv (S : system) (hist : history) (s : app) : Prop := {
  inv_nodup : NoDup (listeners s).*2;
  inv_listener : ∀ n p, (n, p) ∈ listeners s →
    promises s !! p = Some (Pending (static S p))
    ∧ ((∃ i, p = PElement (run_of S) i ∧ plain S i = Some n)
       ∨ (∃ c g h j, group S c = Some (g, h) ∧ p = PListener c j ∧ g !! j = Some n));
  inv_plain : ∀ i n, plain S i = Some n →
    match heard_name n hist with
    | None => (n, PElement (run_of S) i) ∈ listeners s
    | Some v => promises s !! PElement (run_of S) i = Some (Fulfilled v)
    end;
  inv_member : ∀ c g h j n, group S c = Some (g, h) → g !! j = Some n →
    heard_any g hist = None → (n, PListener c j) ∈ listeners s;
  inv_race : ∀ c g h, group S c = Some (g, h) →
    match heard_any g hist with
    | None =>
        promises s !! PRace c = Some (Pending (static S (PRace c)))
        ∧ filter (targets (PRace c)) (jobs s) = []
    | Some v =>
        promises s !! PRace c = Some (Fulfilled v)
        ∨ (promises s !! PRace c = Some (Pending (static S (PRace c)))
           ∧ head (filter (targets (PRace c)) (jobs s)) = Some (RRace (PRace c), v))
    end;
  inv_then : ∀ q p kb, source S q = Some (p, kb) →
    match promises s !! q with
    | Some (Pending rs) =>
        rs = static S q
        ∧ match promises s !! p with
          | Some (Fulfilled v) => filter (targets q) (jobs s) = [(RThen kb q, v)]
          | Some (Pending _) => filter (targets q) (jobs s) = []
          | None => False
          end
    | Some (Fulfilled w) =>
        filter (targets q) (jobs s) = []
        ∧ ∃ v, promises s !! p = Some (Fulfilled v) ∧ w = result kb v
    | None => False
    end;
  inv_element : ∀ c g e, group S c = Some (g, HResolve e) →
    match promises s !! PHandled c with
    | Some (Fulfilled x) => promises s !! e = Some (Fulfilled x)
    | _ => promises s !! e = Some (Pending (static S e))
    end;
  inv_calls :
    calls s = match promises s !! handler_site S with
              | Some (Fulfilled x) => log_of (caller_handler S) x
              | _ => []
              end;
  inv_started :
    started s = match promises s !! PStart (run_of S) with
                | Some (Fulfilled _) => true
                | _ => false
                end;
  inv_slots : ∀ k es h st, S = SAfter k es h st →
    ∃ sl, slots s !! PAll k = Some sl ∧ length sl = length es
      ∧ (∀ i, i < length es →
           match promises s !! PElement k i with
           | Some (Fulfilled v) =>
               sl !! i = Some (Some v)
               ∨ (sl !! i = Some None ∧ (RAll (PAll k) i, v) ∈ jobs s)
           | Some (Pending _) => sl !! i = Some None
           | None => False
           end)
      ∧ match filled sl with
        | Some vs => promises s !! PAll k = Some (Fulfilled (VArr vs))
        | None => promises s !! PAll k = Some (Pending (static S (PAll k)))
        end;
  inv_jobs : ∀ r v, (r, v) ∈ jobs s →
    match r with
    | RAll q i =>
        ∃ k es h st, S = SAfter k es h st ∧ q = PAll k ∧ i < length es
          ∧ promises s !! PElement k i = Some (Fulfilled v)
    | RRace q => ∃ c g h, group S c = Some (g, h) ∧ q = PRace c
    | RThen kb q => ∃ p, source S q = Some (p, kb) ∧ promises s !! p = Some (Fulfilled v)
    end
}.

(** * What the proofs speak of *)

Definition waiting (m : gmap pid pstate) : nat :=
  map_fold (λ _ ps n, reactions_of ps + n) 0 m.

Definition fulfil (v : value) (ps : pstate) : pstate :=
  match ps with Pending _ => Fulfilled v | Fulfilled w => Fulfilled w end.

Definition jobs_of (v : value) (ps : option pstate) : list (reaction * value) :=
  match ps with Some (Pending rs) => map (λ r, (r, v)) rs | _ => [] end.

(** States that agree on everything but their promises and listeners. *)
Definition same_rest (s s' : app) : Prop :=
  jobs s' = jobs s ∧ slots s' = slots s ∧ calls s' = calls s ∧ started s' = started s.

Definition any_wiring (c : invocation) (g : list string) (h : handler) (x : pid)
    : option pstate :=
  match x with
  | PListener c' j =>
      if decide (c' = c ∧ j < length g) then Some (Pending [RRace (PRace c)]) else None
  | PRace c' =>
      if decide (c' = c)
      then Some (Pending [RThen (KHandlerWrapperAny h) (PHandled c)]) else None
  | PHandled c' =>
      if decide (c' = c)
      then Some (Pending [RThen (KCleanup g (last_listener c g)) (PCleaned c)]) else None
  | PCleaned c' => if decide (c' = c) then Some (Pending []) else None
  | _ => None
  end.

(** The listeners one element of [after] registers. *)
Definition entries (k i : nat) (e : element) : list (string * pid) :=
  match e with
  | Name n => [(n, PElement k i)]
  | AnyOf g => imap (λ j n, (n, PListener (Nested k i) j)) g
  end.

Definition nested_wiring (k : nat) (es : list element) (i : nat) (x : pid) : option pstate :=
  match es !! i with
  | Some (AnyOf g) => any_wiring (Nested k i) g (HResolve (PElement k i)) x
  | _ => None
  end.

Definition await_wiring (k : nat) (es : list element) (x : pid) : option pstate :=
  match x with
  | PElement k' i => if decide (k' = k ∧ i < length es) then Some (Pending []) else None
  | PListener (Nested k' i) _ | PRace (Nested k' i) | PHandled (Nested k' i)
  | PCleaned (Nested k' i) => if decide (k' = k) then nested_wiring k es i x else None
  | _ => None
  end.

(** The state of each promise of the run when the call returns. *)
Definition initial (S : system) (x : pid) : option pstate :=
  match S with
  | SAny k g h => any_wiring (Top k) g h x
  | SAfter k es h st =>
      match x with
      | PElement k' i =>
          if decide (k' = k ∧ i < length es) then Some (Pending [RAll (PAll k) i]) else None
      | PAll k' =>
          if decide (k' = k)
          then Some (if decide (es = []) then Fulfilled (VArr [])
                     else Pending [RThen (KHandlerWrapperAll h) (PAfter k)])
          else None
      | PAfter k' =>
          if decide (k' = k)
          then Some (Pending (if st then [RThen KStarted (PStart k)] else []))
          else None
      | PStart k' => if decide (k' = k ∧ st = true) then Some (Pending []) else None
      | _ => await_wiring k es x
      end
  end.

Definition initial_listeners (S : system) : list (string * pid) :=
  match S with
  | SAny k g _ => imap (λ j n, (n, PListener (Top k) j)) g
  | SAfter k es _ _ => concat (imap (entries k) es)
  end.

Definition initial_jobs (S : system) : list (reaction * value) :=
  match S with
  | SAfter k [] h _ => [(RThen (KHandlerWrapperAll h) (PAfter k), VArr [])]
  | _ => []
  end.

(** The state a call leaves behind. *)
Record called (S : system) (s s' : app) : Prop := {
  called_listeners : listeners s' = listeners s ++ initial_listeners S;
  called_promises : ∀ x, promises s' !! x =
    match initial S x with Some ps => Some ps | None => promises s !! x end;
  called_jobs : jobs s' = jobs s ++ initial_jobs S;
  called_slots : match S with
                 | SAfter k es _ _ => slots s' !! PAll k = Some (replicate (length es) None)
                 | _ => True
                 end;
  called_calls : calls s' = calls s;
  called_started : started s' = started s
}.

(** A state with no pending work, as a new application object is. *)
Definition idle (s : app) : Prop :=
  listeners s = [] ∧ promises s = ∅ ∧ jobs s = [] ∧ calls s = [] ∧ started s = false.

Definition names (events : any_spec) : list string :=
  match events with OneName n => [n] | Names ns => ns end.

Definition elements (events : after_spec) : list element :=
  match events with OneEvent n => [Name n] | Events es => es end.


(** * Construction *)

(** The errors of the constructor, and the [TypeError] of strict code that
    writes to a frozen object. *)
Inductive error :=
  | PackageNotDefinedError
  | ApiNotDefinedError
  | LoggerNotDefinedError
  | TypeError.

(** What the constructor only passes on: the package description, the api
    bundle, the logger. *)
Inductive opaque := Opaque (id : nat).

(** A pack constructor.  Its body is the pack's; the model keeps that it
    ran. *)
Record pack := Pack { pack_name : string }.

Record configuration := Configuration {
  logger : option opaque;
  packs : list pack
}.

(** The argument of the constructor; a field that is missing reads as
    [undefined]. *)
Record definition := Def {
  pkg : option opaque;
  api : option opaque;
  config : configuration
}.

(** Objects that map strings to strings, in a store: [process.env], which
    lives outside the heap and cannot be frozen, and allocated objects. *)
Record object := Object {
  fields : gmap string string;
  frozen : bool
}.

Inductive ref :=
  | ProcessEnv
  | Heap (a : nat).

Record world := World {
  process_env : gmap string string;
  heap : list object;
  constructed : list string
}.

Definition set_process_env (f : gmap string string → gmap string string) (w : world) : world :=
  World (f (process_env w)) (heap w) (constructed w).

Definition set_heap (f : list object → list object) (w : world) : world :=
  World (process_env w) (f (heap w)) (constructed w).

Definition set_constructed (f : list string → list string) (w : world) : world :=
  World (process_env w) (heap w) (f (constructed w)).

(** [r[key]] *)
Definition get (r : ref) (key : string) (w : world) : option string :=
  match r with
  | ProcessEnv => process_env w !! key
  | Heap a => o ← heap w !! a; fields o !! key
  end.

(** [r[key] = value] and [delete r[key]] *)
Inductive mutation :=
  | Assign (key value : string)
  | Delete (key : string).

Definition apply_mutation (m : mutation) (f : gmap string string) : gmap string string :=
  match m with
  | Assign key value => <[key := value]> f
  | Delete key => delete key f
  end.

(** A mutation in strict code: on a frozen object an assignment throws, and
    so does the deletion of a property the object has; the deletion of a
    property it does not have does nothing. *)
Definition mutate (r : ref) (m : mutation) (w : world) : option error * world :=
  match r with
  | ProcessEnv => (None, set_process_env (apply_mutation m) w)
  | Heap a =>
      match heap w !! a with
      | None => (None, w)
      | Some o =>
          if frozen o then
            (match m with
             | Assign _ _ => Some TypeError
             | Delete key => if decide (is_Some (fields o !! key)) then Some TypeError else None
             end, w)
          else (None, set_heap <[a := Object (apply_mutation m (fields o)) false]> w)
      end
  end.

(** Code that runs later: mutations of objects, the errors caught. *)
Definition mutate_all (ms : list (ref * mutation)) (w : world) : world :=
  foldl (λ w rm, (mutate rm.1 rm.2 w).2) w ms.

(** [JSON.parse(JSON.stringify(r))] of a flat object: a new object with the
    same fields. *)
Definition json_copy (r : ref) (w : world) : ref * world :=
  let f := match r with
           | ProcessEnv => process_env w
           | Heap a => from_option fields ∅ (heap w !! a)
           end in
  (Heap (length (heap w)), set_heap (λ h, h ++ [Object f false]) w).

(** [Object.freeze(r)]; the constructor freezes a heap object. *)
Definition freeze (r : ref) (w : world) : world :=
  match r with
  | ProcessEnv => w
  | Heap a => set_heap (alter (λ o, Object (fields o) true) a) w
  end.

Definition truthy {A} (x : option A) : bool :=
  match x with Some _ => true | None => false end.

(** [!process.env.NODE_ENV]: the variable is unset, or set to the empty
    string. *)
Definition unset (v : option string) : bool :=
  match v with
  | None => true
  | Some EmptyString => true
  | Some _ => false
  end.

(** Modelled from the spec: [validateConfig] fails with the logger error when
    the configuration has no logging collaborator. *)
Definition validateConfig (c : configuration) : option error :=
  match logger c with
  | None => Some LoggerNotDefinedError
  | Some _ => None
  end.

(** [new Pack(this)] *)
Definition new_Pack (w : world) (P : pack) : world :=
  set_constructed (λ l, l ++ [pack_name P]) w.

(** The application object: its environment, what it was given, and its
    event bus. *)
Record trails := Trails {
  env : ref;
  trails_pkg : option opaque;
  trails_api : option opaque;
  bus : app
}.

(** [if (!process.env.NODE_ENV) process.env.NODE_ENV = 'development'] *)
Definition default_NODE_ENV (w : world) : world :=
  if unset (process_env w !! "NODE_ENV"%string)
  then (mutate ProcessEnv (Assign "NODE_ENV" "development") w).2
  else w.

(** [constructor (app)].  After the snapshot and [validateConfig] the
    constructor defines the properties of the object ([env] among them, with
    [started] false), builds its configuration and registries through [lib],
    and calls the pack constructors in the order of [config.main.packs]; of
    these steps the model keeps [env], what the object was given, and the
    pack constructors. *)
Definition construct (d : definition) (w : world) : (error + trails) * world :=
  if negb (truthy (pkg d)) then (inl PackageNotDefinedError, w)
  else if negb (truthy (api d)) && negb (true && truthy (api d))
  then (inl ApiNotDefinedError, w)
  else
    let w := default_NODE_ENV w in
    let '(processEnv, w) := json_copy ProcessEnv w in
    let w := freeze processEnv w in
    match validateConfig (config d) with
    | Some e => (inl e, w)
    | None =>
        let w := foldl new_Pack w (packs (config d)) in
        (inr (Trails processEnv (pkg d) (api d) fresh), w)
    end.

(** The process environment once the constructor is past its first two
    checks. *)
Definition defaulted (e : gmap string string) : gmap string string :=
  if unset (e !! "NODE_ENV"%string) then <["NODE_ENV"%string := "development"%string]> e else e.

(** The names an element of [after] listens to. *)
Definition element_names (e : element) : list string :=
  match e with Name n => [n] | AnyOf g => g end.

(** * The application as its callers share it

    The model above follows one call on a bus nobody else uses, with
    handlers that return.  The module [Full] models the same code with what
    that leaves out: promises that reject, handlers that throw, the events
    the emitter sends itself ([newListener] before it adds a listener,
    [removeListener] after it has removed one, both through the overridden
    [emit]), and any number of calls on one application. *)
Module Full.

(** What a call of a caller's function does: it returns, or it throws. *)
Inductive result :=
  | Return (v : value)
  | Throw (e : value).

Inductive handler :=
  | NOOP
  | HUser (id : nat) (body : value → result)
  | HResolve (p : pid).

Inductive callback :=
  | KHandlerWrapperAny (h : handler)
  | KCleanup (events : list string) (resolveCallback : option pid)
  | KHandlerWrapperAll (h : handler)
  | KStarted.

Inductive reaction :=
  | RThen (k : callback) (q : pid)
  | RRace (r : pid)
  | RAll (q : pid) (i : nat).

(** How a promise is settled. *)
Inductive settled :=
  | Ok (v : value)
  | Err (e : value).

Inductive pstate :=
  | Pending (rs : list reaction)
  | Fulfilled (v : value)
  | Rejected (e : value).

Record app := App {
  listeners : list (string * pid);
  promises : gmap pid pstate;
  slots : gmap pid (list (option value));
  jobs : list (reaction * settled);
  calls : list (pid * nat * value);
    (* calls of the callers' handlers: the promise the wrapper settles, the
       handler, what it was given *)
  started : bool;
  trace : list string;
  ncalls : nat
}.

Definition fresh : app :=
  {| listeners := []; promises := ∅; slots := ∅; jobs := []; calls := [];
     started := false; trace := []; ncalls := 0 |}.

Definition set_listeners (f : list (string * pid) → list (string * pid)) (s : app) : app :=
  App (f (listeners s)) (promises s) (slots s) (jobs s) (calls s) (started s) (trace s)
      (ncalls s).

Definition set_promises (f : gmap pid pstate → gmap pid pstate) (s : app) : app :=
  App (listeners s) (f (promises s)) (slots s) (jobs s) (calls s) (started s) (trace s)
      (ncalls s).

Definition set_slots
    (f : gmap pid (list (option value)) → gmap pid (list (option value))) (s : app) : app :=
  App (listeners s) (promises s) (f (slots s)) (jobs s) (calls s) (started s) (trace s)
      (ncalls s).

Definition set_jobs (f : list (reaction * settled) → list (reaction * settled)) (s : app)
    : app :=
  App (listeners s) (promises s) (slots s) (f (jobs s)) (calls s) (started s) (trace s)
      (ncalls s).

Definition set_calls (f : list (pid * nat * value) → list (pid * nat * value)) (s : app)
    : app :=
  App (listeners s) (promises s) (slots s) (jobs s) (f (calls s)) (started s) (trace s)
      (ncalls s).

Definition set_started (b : bool) (s : app) : app :=
  App (listeners s) (promises s) (slots s) (jobs s) (calls s) b (trace s) (ncalls s).

Definition set_trace (f : list string → list string) (s : app) : app :=
  App (listeners s) (promises s) (slots s) (jobs s) (calls s) (started s) (f (trace s))
      (ncalls s).

Definition set_ncalls (n : nat) (s : app) : app :=
  App (listeners s) (promises s) (slots s) (jobs s) (calls s) (started s) (trace s) n.

(** ** Promises *)

Definition new_promise (p : pid) (s : app) : app :=
  set_promises <[p := Pending []]> s.

Definition state_of (o : settled) : pstate :=
  match o with Ok v => Fulfilled v | Err e => Rejected e end.

(** The resolve or the reject function of [p]: it settles a pending promise
    and queues one job for each reaction; on a settled promise it does
    nothing. *)
Definition settle (p : pid) (o : settled) (s : app) : app :=
  match promises s !! p with
  | Some (Pending rs) =>
      set_jobs (λ q, q ++ map (λ r, (r, o)) rs) (set_promises <[p := state_of o]> s)
  | _ => s
  end.

Definition subscribe (p : pid) (r : reaction) (s : app) : app :=
  match promises s !! p with
  | Some (Pending rs) => set_promises <[p := Pending (rs ++ [r])]> s
  | Some (Fulfilled v) => set_jobs (λ q, q ++ [(r, Ok v)]) s
  | Some (Rejected e) => set_jobs (λ q, q ++ [(r, Err e)]) s
  | None => s
  end.

Definition then_ (p : pid) (k : callback) (q : pid) (s : app) : app :=
  subscribe p (RThen k q) (new_promise q s).

Definition race (r : pid) (ps : list pid) (s : app) : app :=
  foldl (λ s p, subscribe p (RRace r) s) (new_promise r s) ps.

Definition all (q : pid) (ps : list pid) (s : app) : app :=
  let s := set_slots <[q := replicate (length ps) None]> (new_promise q s) in
  let s := foldl (λ s ip, subscribe ip.2 (RAll q ip.1) s) s (imap pair ps) in
  if decide (ps = []) then settle q (Ok (VArr [])) s else s.

(** ** The emitter *)

(** [this._events[name] !== undefined] *)
Definition has (name : string) (s : app) : bool :=
  bool_decide (filter (λ l, l.1 = name) (listeners s) ≠ []).

(** [removeListener], given the [emit] it calls: the listener is looked for
    from the end of the array; when it was there, it is taken off, and when
    the table the emitter read had listeners for [removeListener], the
    emitter emits that event with the name and the listener. *)
Definition removeListener_with (emit' : string → list value → app → app)
    (name : string) (p : pid) (s : app) : app :=
  if decide ((name, p) ∈ listeners s) then
    let events := s in
    let s := set_listeners (remove_last (name, p)) s in
    if has "removeListener" events
    then emit' "removeListener"%string [VStr name; VResolve p] s
    else s
  else s.

(** The wrapper [once] puts around a listener, called by [emit]: unless it
    has fired, it removes itself and calls the listener, here the resolve
    function of [l.2], which reads the first argument.  A wrapper is taken
    off the array when it fires, and within one [emit] by nothing else, so
    there its flag [fired] is that it is off the array. *)
Definition wrapper_with (emit' : string → list value → app → app)
    (args : list value) (s : app) (l : string * pid) : app :=
  if decide (l ∈ listeners s)
  then settle l.2 (Ok (hd VUndefined args)) (removeListener_with emit' l.1 l.2 s)
  else s.

(** [emit (event)]: the override logs the event, then the emitter calls the
    listeners the array holds at that moment.  The emitter's own events make
    [emit] call itself; every such call follows a removal, so one more
    round than there are listeners is enough ([fuel]). *)
Fixpoint emit_ (fuel : nat) (name : string) (args : list value) (s : app) : app :=
  match fuel with
  | 0 => s
  | S fuel =>
      foldl (wrapper_with (emit_ fuel) args) (set_trace (λ t, t ++ [name]) s)
            (filter (λ l, l.1 = name) (listeners s))
  end.

Definition emit (name : string) (args : list value) (s : app) : app :=
  emit_ (S (length (listeners s))) name args s.

(** [emit('error')] throws when nobody listens to [error]; the state is as
    [emit] leaves it, with the event logged. *)
Definition emit_throws (name : string) (s : app) : bool :=
  bool_decide (name = "error"%string) && negb (has "error" s).

Definition removeListener (name : string) (p : pid) (s : app) : app :=
  removeListener_with (emit_ (length (listeners s))) name p s.

(** [this.once(name, resolve_p)]: when there are listeners for
    [newListener], the emitter first emits that event with the name and the
    listener. *)
Definition once (name : string) (p : pid) (s : app) : app :=
  let s := if has "newListener" s
           then emit "newListener"%string [VStr name; VResolve p] s else s in
  set_listeners (λ l, l ++ [(name, p)]) s.

(** ** Promise jobs *)

Definition call_handler (q : pid) (h : handler) (payload : value) (s : app) : app * result :=
  match h with
  | NOOP => (s, Return VUndefined)
  | HUser id body => (set_calls (λ c, c ++ [(q, id, payload)]) s, body payload)
  | HResolve p => (settle p (Ok payload) s, Return VUndefined)
  end.

(** The callback of a [.then] that settles [q], called with [v]: what it
    does, and whether it returns or throws. *)
Definition run_callback (q : pid) (k : callback) (v : value) (s : app) : app * result :=
  match k with
  | KHandlerWrapperAny h =>
      let args := VArr [v] in
      let '(s, r) := call_handler q h args s in
      (s, match r with Return _ => Return args | Throw e => Throw e end)
  | KCleanup events resolveCallback =>
      (foldl (λ s eventName,
                match resolveCallback with
                | Some p => removeListener eventName p s
                | None => s
                end) s events, Return v)
  | KHandlerWrapperAll h =>
      let '(s, r) := call_handler q h v s in
      (s, match r with Return _ => Return v | Throw e => Throw e end)
  | KStarted => (set_started true s, Return VApp)
  end.

Definition filled (l : list (option value)) : option (list value) := mapM id l.

(** A reaction to a settled promise.  A [.then] without a second callback
    passes a rejection on; [race] and [all] reject with their element. *)
Definition run_job (j : reaction * settled) (s : app) : app :=
  let '(r, o) := j in
  match r, o with
  | RThen k q, Ok v =>
      let '(s, res) := run_callback q k v s in
      settle q (match res with Return w => Ok w | Throw e => Err e end) s
  | RThen k q, Err e => settle q (Err e) s
  | RRace r, _ => settle r o s
  | RAll q i, Err e => settle q (Err e) s
  | RAll q i, Ok v =>
      match slots s !! q with
      | Some l =>
          match l !! i with
          | Some None =>
              let l' := <[i := Some v]> l in
              let s := set_slots <[q := l']> s in
              match filled l' with
              | Some vs => settle q (Ok (VArr vs)) s
              | None => s
              end
          | _ => s
          end
      | None => s
      end
  end.

Definition step (s : app) : app :=
  match jobs s with
  | [] => s
  | j :: q => run_job j (set_jobs (λ _, q) s)
  end.

Definition reactions_of (ps : pstate) : nat :=
  match ps with Pending rs => length rs | _ => 0 end.

Definition backlog (s : app) : nat :=
  length (jobs s) + map_fold (λ _ ps n, reactions_of ps + n) 0 (promises s).

Definition drain (s : app) : app := Nat.iter (backlog s) step s.

(** ** The combinators *)

Definition listen (c : invocation) (acc : app * list pid * option pid)
    (eventName : string) : app * list pid * option pid :=
  let '(s, ps, _) := acc in
  let p := PListener c (length ps) in
  (once eventName p (new_promise p s), ps ++ [p], Some p).

Definition onceAny (c : invocation) (events : any_spec) (h : handler) (s : app) : pid * app :=
  let events := match events with OneName n => [n] | Names ns => ns end in
  let '(s, ps, resolveCallback) := foldl (listen c) (s, [], None) events in
  let s := race (PRace c) ps s in
  let s := then_ (PRace c) (KHandlerWrapperAny h) (PHandled c) s in
  let s := then_ (PHandled c) (KCleanup events resolveCallback) (PCleaned c) s in
  (PCleaned c, s).

Definition await (k : nat) (acc : app * list pid) (eventName : element) : app * list pid :=
  let '(s, ps) := acc in
  let p := PElement k (length ps) in
  let s := new_promise p s in
  let s := match eventName with
           | AnyOf ns => (onceAny (Nested k (length ps)) (Names ns) (HResolve p) s).2
           | Name n => once n p s
           end in
  (s, ps ++ [p]).

Definition after (k : nat) (events : after_spec) (h : handler) (s : app) : pid * app :=
  let events := match events with OneEvent n => [Name n] | Events es => es end in
  let '(s, ps) := foldl (await k) (s, []) events in
  let s := all (PAll k) ps s in
  let s := then_ (PAll k) (KHandlerWrapperAll h) (PAfter k) s in
  (PAfter k, s).

Definition start (k : nat) (s : app) : pid * app :=
  let '(p, s) := after k (OneEvent "trails:ready"%string) NOOP s in
  (PStart k, then_ p KStarted (PStart k) s).

Definition call_onceAny (events : any_spec) (h : handler) (s : app) : pid * app :=
  onceAny (Top (ncalls s)) events h (set_ncalls (S (ncalls s)) s).

Definition call_after (events : after_spec) (h : handler) (s : app) : pid * app :=
  after (ncalls s) events h (set_ncalls (S (ncalls s)) s).

Definition call_start (s : app) : pid * app :=
  start (ncalls s) (set_ncalls (S (ncalls s)) s).

(** ** The rest of the program *)

(** What the code around a call does to the application: it emits events,
    returns to the event loop, which runs the queued jobs, and makes calls
    of its own, with handlers of its own.  Code of the program that runs as
    a promise job of its own can emit between two jobs of the combinators:
    [Job] lets one job run. *)
Inductive action :=
  | Emit (name : string) (args : list value)
  | Tick
  | Job
  | OnceAny (events : any_spec) (id : option (nat * (value → result)))
  | After (events : after_spec) (id : option (nat * (value → result)))
  | Start.

(** The second argument of a call: a function, or nothing ([NOOP]). *)
Definition given (f : option (nat * (value → result))) : handler :=
  match f with Some (id, body) => HUser id body | None => NOOP end.

Definition perform (s : app) (a : action) : app :=
  match a with
  | Emit name args => emit name args s
  | Tick => drain s
  | Job => step s
  | OnceAny events f => (call_onceAny events (given f) s).2
  | After events f => (call_after events (given f) s).2
  | Start => (call_start s).2
  end.

Definition run (script : list action) (s : app) : app := foldl perform s script.

Definition outcome (p : pid) (s : app) : option pstate := promises (drain s) !! p.

(** The events the program emits. *)
Definition emissions (script : list action) : list (string * list value) :=
  omap (λ a, match a with Emit n args => Some (n, args) | _ => None end) script.

End Full.

(** * One call among the others: what the proofs speak of *)

(** The call a promise belongs to. *)
Definition owner (p : pid) : nat :=
  match p with
  | PListener (Top k) _ | PRace (Top k) | PHandled (Top k) | PCleaned (Top k) => k
  | PListener (Nested k _) _ | PRace (Nested k _) | PHandled (Nested k _)
  | PCleaned (Nested k _) => k
  | PElement k _ | PAll k | PAfter k | PStart k => k
  end.

(** The promise a reaction settles, and the promises it can reach. *)
Definition ftarget (r : Full.reaction) : pid :=
  match r with Full.RThen _ q => q | Full.RRace q => q | Full.RAll q _ => q end.

Definition mentions (r : Full.reaction) : list pid :=
  match r with
  | Full.RThen (Full.KHandlerWrapperAny (Full.HResolve p)) q
  | Full.RThen (Full.KHandlerWrapperAll (Full.HResolve p)) q => [p; q]
  | Full.RThen (Full.KCleanup _ (Some p)) q => [p; q]
  | Full.RThen _ q => [q]
  | Full.RRace q => [q]
  | Full.RAll q _ => [q]
  end.

(** A reaction of call [j] stays within call [j]. *)
Definition owned (j : nat) (r : Full.reaction) : Prop :=
  Forall (λ p, owner p = j) (mentions r).

(** The reactions of a promise, and the jobs, stay within the call of the
    promise they settle. *)
Definition Closed (s : Full.app) : Prop :=
  (∀ p rs, Full.promises s !! p = Some (Full.Pending rs) → Forall (owned (owner p)) rs)
  ∧ Forall (λ j, owned (owner (ftarget j.1)) j.1) (Full.jobs s).

(** Nothing of call [N] or of a later one. *)
Definition Bounded (N : nat) (s : Full.app) : Prop :=
  Forall (λ l, owner l.2 < N) (Full.listeners s)
  ∧ (∀ p, is_Some (Full.promises s !! p) → owner p < N)
  ∧ (∀ q, is_Some (Full.slots s !! q) → owner q < N)
  ∧ Forall (λ j, owner (ftarget j.1) < N) (Full.jobs s)
  ∧ Forall (λ c, owner c.1.1 < N) (Full.calls s).

Definition Wf (N : nat) (s : Full.app) : Prop := Closed s ∧ Bounded N s.

(** The call of a run of [onceAny]. *)
Definition caller (c : invocation) : nat :=
  match c with Top k => k | Nested k _ => k end.

(** A reaction that calls a handler of the caller which returns whatever it
    is given. *)
Definition returning (r : Full.reaction) : Prop :=
  match r with
  | Full.RThen (Full.KHandlerWrapperAny (Full.HUser _ body)) _
  | Full.RThen (Full.KHandlerWrapperAll (Full.HUser _ body)) _ =>
      ∀ x, ∃ v, body x = Full.Return v
  | _ => True
  end.

(** Call [k] has seen no rejection and will see none: its handler returns. *)
Definition Calm (k : nat) (s : Full.app) : Prop :=
  (∀ p rs, owner p = k → Full.promises s !! p = Some (Full.Pending rs) → Forall returning rs)
  ∧ (∀ p e, owner p = k → Full.promises s !! p ≠ Some (Full.Rejected e))
  ∧ Forall (λ j, owner (ftarget j.1) = k → returning j.1 ∧ ∃ v, j.2 = Full.Ok v)
           (Full.jobs s).

(** The model of one call, read off the shared one.  A handler that
    returns is taken for what it returns. *)
Definition tr_handler (h : Full.handler) : handler :=
  match h with
  | Full.NOOP => NOOP
  | Full.HUser id body =>
      HUser id (λ x, match body x with Full.Return v => v | Full.Throw e => e end)
  | Full.HResolve p => HResolve p
  end.

Definition tr_callback (k : Full.callback) : callback :=
  match k with
  | Full.KHandlerWrapperAny h => KHandlerWrapperAny (tr_handler h)
  | Full.KCleanup events rc => KCleanup events rc
  | Full.KHandlerWrapperAll h => KHandlerWrapperAll (tr_handler h)
  | Full.KStarted => KStarted
  end.

Definition tr_reaction (r : Full.reaction) : reaction :=
  match r with
  | Full.RThen k q => RThen (tr_callback k) q
  | Full.RRace q => RRace q
  | Full.RAll q i => RAll q i
  end.

Definition tr_pstate (ps : Full.pstate) : pstate :=
  match ps with
  | Full.Pending rs => Pending (tr_reaction <$> rs)
  | Full.Fulfilled v => Fulfilled v
  | Full.Rejected e => Fulfilled e
  end.

Definition tr_job (k : nat) (j : Full.reaction * Full.settled) : option (reaction * value) :=
  if decide (owner (ftarget j.1) = k)
  then match j.2 with Full.Ok v => Some (tr_reaction j.1, v) | Full.Err _ => None end
  else None.

Definition tr_call (k : nat) (c : pid * nat * value) : option (nat * value) :=
  if decide (owner c.1.1 = k) then Some (c.1.2, c.2) else None.

(** [sM] is call [k] of [sF], taken alone. *)
Record sim (k : nat) (sF : Full.app) (sM : app) : Prop := {
  sim_listeners : listeners sM = filter (λ l, owner l.2 = k) (Full.listeners sF);
  sim_promises : ∀ p, promises sM !! p =
    if decide (owner p = k) then tr_pstate <$> Full.promises sF !! p else None;
  sim_slots : ∀ q, slots sM !! q =
    if decide (owner q = k) then Full.slots sF !! q else None;
  sim_jobs : jobs sM = omap (tr_job k) (Full.jobs sF);
  sim_calls : calls sM = omap (tr_call k) (Full.calls sF);
  sim_started : started sM = true → Full.started sF = true
}.

(** A call takes a number; nothing else does. *)
Definition is_call (a : Full.action) : bool :=
  match a with Full.OnceAny _ _ | Full.After _ _ | Full.Start => true | _ => false end.

Definition waiting_F (m : gmap pid Full.pstate) : nat :=
  map_fold (λ _ ps n, Full.reactions_of ps + n) 0 m.

(** The names of the emitter's own events. *)
Definition ordinary (n : string) : Prop :=
  n ≠ "newListener"%string ∧ n ≠ "removeListener"%string.

Global Instance ordinary_dec n : Decision (ordinary n).
Proof. unfold ordinary. apply _. Defined.

Definition Ord (s : app) : Prop := Forall (λ l, ordinary l.1) (listeners s).

(** [sM] is what call [k] has made of the shared state [sF]. *)
Record X (k : nat) (sF : Full.app) (sM : app) : Prop := {
  X_sim : sim k sF sM;
  X_calm : Calm k sF;
  X_ord : Ord sM
}.

(** A handler that returns, whatever it is given. *)
Definition returns (h : Full.handler) : Prop :=
  match h with
  | Full.HUser _ body => ∀ x, ∃ v, body x = Full.Return v
  | _ => True
  end.

Definition ordinary_element (e : element) : Prop :=
  match e with Name n => ordinary n | AnyOf ns => Forall ordinary ns end.

Global Instance ordinary_element_dec e : Decision (ordinary_element e).
Proof. destruct e; apply _. Defined.

(** An application in use: a new one on which the program has done [pre]. *)
Definition reached (pre : list Full.action) : Full.app := Full.run pre Full.fresh.


(** * The promise machine: basic facts *)

Section machine_facts.
Implicit Types (s : app) (p q : pid) (v : value) (r : reaction).

Lemma resolve_pending p v rs s :
  promises s !! p = Some (Pending rs) →
  resolve p v s =
    set_jobs (λ js, js ++ map (λ r, (r, v)) rs) (set_promises <[p := Fulfilled v]> s).
Proof. unfold resolve. by intros ->. Qed.

Lemma resolve_settled p v w s :
  promises s !! p = Some (Fulfilled w) → resolve p v s = s.
Proof. unfold resolve. by intros ->. Qed.

Lemma resolve_missing p v s : promises s !! p = None → resolve p v s = s.
Proof. unfold resolve. by intros ->. Qed.

Lemma subscribe_pending p r rs s :
  promises s !! p = Some (Pending rs) →
  subscribe p r s = set_promises <[p := Pending (rs ++ [r])]> s.
Proof. unfold subscribe. by intros ->. Qed.

Lemma subscribe_settled p r w s :
  promises s !! p = Some (Fulfilled w) →
  subscribe p r s = set_jobs (λ js, js ++ [(r, w)]) s.
Proof. unfold subscribe. by intros ->. Qed.
End machine_facts.

(** ** The job queue empties *)

Lemma backlog_eq s : backlog s = length (jobs s) + waiting (promises s).
Proof. done. Qed.

Lemma waiting_insert (m : gmap pid pstate) p ps ps' :
  m !! p = Some ps →
  waiting (<[p := ps']> m) + reactions_of ps = waiting m + reactions_of ps'.
Proof.
  intros Hp. unfold waiting.
  rewrite (map_fold_delete_L _ _ p ps m); [|intros; lia|done].
  rewrite <-(insert_delete_eq m p ps').
  rewrite map_fold_insert_L; [lia|intros; lia|apply lookup_delete_eq].
Qed.

Lemma backlog_resolve p v s : backlog (resolve p v s) = backlog s.
Proof.
  unfold resolve. destruct (promises s !! p) as [[rs|w]|] eqn:Hp; try done.
  rewrite !backlog_eq. cbn. rewrite length_app, length_map.
  pose proof (waiting_insert _ _ _ (Fulfilled v) Hp) as H. cbn in H. lia.
Qed.

Lemma backlog_set_listeners f s : backlog (set_listeners f s) = backlog s.
Proof. done. Qed.

Lemma backlog_cleanup events rc s :
  backlog (foldl (λ s eventName,
                    match rc with
                    | Some p => removeListener eventName p s
                    | None => s
                    end) s events) = backlog s.
Proof.
  revert s. induction events as [|e events IH]; intros s; cbn; [done|].
  rewrite IH. by destruct rc.
Qed.

Lemma backlog_run_callback k v s : backlog (run_callback k v s).1 = backlog s.
Proof.
  destruct k as [h|events rc|h|]; cbn.
  - destruct h; cbn; try done. apply backlog_resolve.
  - apply backlog_cleanup.
  - destruct h; cbn; try done. apply backlog_resolve.
  - done.
Qed.

Lemma backlog_run_job j s : backlog (run_job j s) = backlog s.
Proof.
  destruct j as [[k q|r|q i] v]; cbn.
  - pose proof (backlog_run_callback k v s) as H.
    destruct (run_callback k v s) as [s' w]. cbn in H. by rewrite backlog_resolve.
  - apply backlog_resolve.
  - destruct (slots s !! q) as [l|]; [|done].
    destruct (l !! i) as [[x|]|]; try done.
    destruct (filled _); [|done]. by rewrite backlog_resolve.
Qed.

Lemma backlog_step j q s : jobs s = j :: q → S (backlog (step s)) = backlog s.
Proof.
  intros Hj. unfold step. rewrite Hj, backlog_run_job, !backlog_eq. cbn.
  rewrite Hj. done.
Qed.

Lemma step_idle s : jobs s = [] → step s = s.
Proof. unfold step. by intros ->. Qed.

Lemma iter_step_idle n s : jobs s = [] → Nat.iter n step s = s.
Proof.
  intros Hj. induction n as [|n IH]; [done|].
  by rewrite Nat.iter_succ, IH, step_idle.
Qed.

Lemma iter_step_quiescent n s : backlog s ≤ n → jobs (Nat.iter n step s) = [].
Proof.
  revert s. induction n as [|n IH]; intros s Hn.
  - rewrite backlog_eq in Hn. cbn. destruct (jobs s); [done|cbn in Hn; lia].
  - rewrite Nat.iter_succ_r. destruct (jobs s) as [|j q] eqn:Hj.
    + rewrite step_idle, iter_step_idle by done. done.
    + apply IH. pose proof (backlog_step _ _ _ Hj). lia.
Qed.

(** Running the queue is total and leaves no job behind. *)
Lemma drain_quiescent s : jobs (drain s) = [].
Proof. by apply iter_step_quiescent. Qed.

(** * The bus and the heap: what one operation changes *)

Lemma remove_last_absent x l : x ∉ l → remove_last x l = l.
Proof.
  induction l as [|y l IH]; [done|]. intros Hx. cbn [remove_last].
  rewrite not_elem_of_cons in Hx. destruct Hx as [Hxy Hx].
  rewrite !decide_False by done. done.
Qed.

Lemma remove_last_filter x l : NoDup l → remove_last x l = filter (λ y, y ≠ x) l.
Proof.
  induction 1 as [|y l Hy Hl IH]; [done|]. cbn [remove_last].
  destruct (decide (x ∈ l)) as [Hx|Hx].
  - rewrite filter_cons_True by (intros ->; done). by rewrite IH.
  - destruct (decide (x = y)) as [->|Hxy].
    + rewrite filter_cons_False by (intros ?; done).
      by rewrite <-IH, remove_last_absent.
    + rewrite filter_cons_True by done.
      by rewrite <-IH, remove_last_absent.
Qed.

Lemma resolve_promises p v s q :
  promises (resolve p v s) !! q =
    if decide (q = p) then fulfil v <$> promises s !! q else promises s !! q.
Proof.
  unfold resolve. destruct (promises s !! p) as [[rs|w]|] eqn:Hp; cbn.
  - destruct (decide (q = p)) as [->|Hq].
    + by rewrite lookup_insert_eq, Hp.
    + by rewrite lookup_insert_ne.
  - destruct (decide (q = p)) as [->|Hq]; [by rewrite Hp|done].
  - destruct (decide (q = p)) as [->|Hq]; [by rewrite Hp|done].
Qed.

Lemma resolve_jobs p v s : jobs (resolve p v s) = jobs s ++ jobs_of v (promises s !! p).
Proof.
  unfold resolve. destruct (promises s !! p) as [[rs|w]|] eqn:Hp; cbn;
    by rewrite ?app_nil_r.
Qed.

Lemma resolve_listeners p v s : listeners (resolve p v s) = listeners s.
Proof. unfold resolve. by destruct (promises s !! p) as [[rs|w]|]. Qed.
Lemma resolve_slots p v s : slots (resolve p v s) = slots s.
Proof. unfold resolve. by destruct (promises s !! p) as [[rs|w]|]. Qed.
Lemma resolve_calls p v s : calls (resolve p v s) = calls s.
Proof. unfold resolve. by destruct (promises s !! p) as [[rs|w]|]. Qed.
Lemma resolve_started p v s : started (resolve p v s) = started s.
Proof. unfold resolve. by destruct (promises s !! p) as [[rs|w]|]. Qed.

Lemma filter_all {A} (P : A → Prop) `{∀ x, Decision (P x)} (l : list A) :
  (∀ x, x ∈ l → P x) → filter P l = l.
Proof.
  induction l as [|x l IH]; intros HP; [done|].
  rewrite filter_cons_True by (apply HP; left). f_equal. apply IH.
  intros y Hy. apply HP. by right.
Qed.

Lemma filter_none {A} (P : A → Prop) `{∀ x, Decision (P x)} (l : list A) :
  (∀ x, x ∈ l → ¬ P x) → filter P l = [].
Proof.
  induction l as [|x l IH]; intros HP; [done|].
  rewrite filter_cons_False by (apply HP; left). apply IH.
  intros y Hy. apply HP. by right.
Qed.

Lemma filter_agree {A} (P1 P2 : A → Prop) `{∀ x, Decision (P1 x)} `{∀ x, Decision (P2 x)}
    (l : list A) :
  (∀ x, x ∈ l → P1 x ↔ P2 x) → filter P1 l = filter P2 l.
Proof.
  induction l as [|x l IH]; intros HP; [done|].
  rewrite !filter_cons. rewrite IH by (intros y Hy; apply HP; by right).
  destruct (decide (P1 x)) as [H1|H1], (decide (P2 x)) as [H2|H2]; try done;
    exfalso; apply (HP x (list_elem_of_here _ _)) in H1 || apply (HP x (list_elem_of_here _ _)) in H2; done.
Qed.

Lemma flat_map_agree {A B} (f g : A → list B) (l : list A) :
  (∀ x, x ∈ l → f x = g x) → flat_map f l = flat_map g l.
Proof.
  induction l as [|x l IH]; intros Hfg; [done|]. cbn.
  rewrite (Hfg x) by left. rewrite IH; [done|]. intros y Hy. apply Hfg. by right.
Qed.

Section fire_facts.
Context (name : string) (args : list value).
Let v := hd VUndefined args.

Lemma fire_fold F s :
  NoDup (listeners s) → NoDup F.*2 → (∀ l, l ∈ F → l.1 = name) →
  let s' := foldl (fire name args) s F in
  listeners s' = filter (λ l, l ∉ F) (listeners s)
  ∧ (∀ p, promises s' !! p =
          if decide (p ∈ F.*2) then fulfil v <$> promises s !! p else promises s !! p)
  ∧ jobs s' = jobs s ++ flat_map (λ l, jobs_of v (promises s !! l.2)) F
  ∧ slots s' = slots s ∧ calls s' = calls s ∧ started s' = started s.
Proof.
  revert s. induction F as [|[n p] F IH]; intros s HL HF Hn; cbn [foldl flat_map].
  { split_and!; try done.
    - symmetry. apply filter_all. intros x _. apply not_elem_of_nil.
    - by rewrite app_nil_r. }
  assert (n = name) as -> by (apply (Hn (n, p)); left).
  rewrite fmap_cons in HF. apply list.NoDup_cons in HF as [Hp HF]. cbn [snd] in Hp.
  set (s1 := fire name args s (name, p)).
  assert (listeners s1 = filter (λ y, y ≠ (name, p)) (listeners s)) as HL1.
  { unfold s1, fire. rewrite resolve_listeners. cbn. by apply remove_last_filter. }
  destruct (IH s1) as (IHl & IHp & IHj & IHs & IHc & IHst).
  { rewrite HL1. by apply list.NoDup_filter. }
  { done. }
  { intros l Hl. apply Hn. by right. }
  split_and!.
  - rewrite IHl, HL1, list_filter_filter. apply filter_agree.
    intros x _. rewrite not_elem_of_cons. naive_solver.
  - intros q. rewrite IHp. unfold s1, fire. rewrite resolve_promises. cbn.
    destruct (decide (q = p)) as [->|Hq].
    + rewrite decide_False by done. rewrite decide_True by set_solver. done.
    + destruct (decide (q ∈ F.*2)).
      * rewrite decide_True by set_solver. done.
      * rewrite decide_False by set_solver. done.
  - rewrite IHj. unfold s1 at 1, fire. rewrite resolve_jobs. cbn.
    rewrite <-app_assoc. do 2 f_equal.
    apply flat_map_agree. intros [n' p'] Hin. cbn.
    unfold s1, fire. rewrite resolve_promises. cbn.
    rewrite decide_False; [done|]. intros ->. apply Hp.
    apply list_elem_of_fmap. by exists (n', p).
  - rewrite IHs. unfold s1, fire. by rewrite resolve_slots.
  - rewrite IHc. unfold s1, fire. by rewrite resolve_calls.
  - rewrite IHst. unfold s1, fire. by rewrite resolve_started.
Qed.
End fire_facts.

Lemma emit_spec name args s :
  NoDup (listeners s).*2 →
  listeners (emit name args s) = filter (λ l, l.1 ≠ name) (listeners s)
  ∧ (∀ p, promises (emit name args s) !! p =
          if decide ((name, p) ∈ listeners s)
          then fulfil (hd VUndefined args) <$> promises s !! p else promises s !! p)
  ∧ jobs (emit name args s) =
      jobs s ++ flat_map (λ l, jobs_of (hd VUndefined args) (promises s !! l.2))
                         (filter (λ l, l.1 = name) (listeners s))
  ∧ slots (emit name args s) = slots s
  ∧ calls (emit name args s) = calls s
  ∧ started (emit name args s) = started s.
Proof.
  intros HL. unfold emit.
  set (F := filter (λ l, l.1 = name) (listeners s)).
  destruct (fire_fold name args F (set_trace (λ t, t ++ [name]) s))
    as (Hl & Hp & Hj & Hs & Hc & Hst).
  { cbn. by eapply NoDup_fmap_1. }
  { unfold F. apply (sublist_NoDup _ (listeners s).*2); try done.
    apply fmap_sublist, sublist_filter. }
  { intros l Hl. by apply list_elem_of_filter in Hl as [? _]. }
  cbn in *. split_and!; try done.
  - rewrite Hl. apply filter_agree. intros [n p] Hin. unfold F.
    rewrite list_elem_of_filter. cbn. naive_solver.
  - intros p. rewrite Hp. 
    assert (p ∈ F.*2 ↔ (name, p) ∈ listeners s) as Hiff.
    { unfold F. rewrite list_elem_of_fmap. split.
      - intros ([n p'] & -> & Hin). apply list_elem_of_filter in Hin as [Hn Hin].
        cbn in *. by subst.
      - intros Hin. exists (name, p). split; [done|]. by apply list_elem_of_filter. }
    destruct (decide (p ∈ F.*2)), (decide ((name, p) ∈ listeners s)); naive_solver.
Qed.

(** Removing an entry and keeping a part of the table. *)
Lemma remove_last_filter_other (P : string * pid → Prop) `{∀ l, Decision (P l)} x l :
  ¬ P x → filter P (remove_last x l) = filter P l.
Proof.
  intros Hx. induction l as [|y l IH]; [done|]. cbn [remove_last].
  destruct (decide (x ∈ l)) as [Hl|Hl].
  - by rewrite !filter_cons, IH.
  - destruct (decide (x = y)) as [<-|Hxy]; [|done].
    by rewrite filter_cons_False.
Qed.

Lemma remove_last_filter_own (P : string * pid → Prop) `{∀ l, Decision (P l)} x l :
  P x → filter P (remove_last x l) = remove_last x (filter P l).
Proof.
  intros Hx. induction l as [|y l IH]; [done|]. cbn [remove_last].
  destruct (decide (x ∈ l)) as [Hl|Hl].
  - rewrite !filter_cons. destruct (decide (P y)); [|by rewrite IH].
    cbn [remove_last]. rewrite decide_True by (by apply list_elem_of_filter; split). by rewrite IH.
  - destruct (decide (x = y)) as [<-|Hxy].
    + rewrite filter_cons_True by done. cbn [remove_last].
      rewrite decide_False by (by rewrite list_elem_of_filter; intros [_ ?]).
      by rewrite decide_True.
    + rewrite !filter_cons. destruct (decide (P y)).
      2:{ rewrite remove_last_absent; [done|]. rewrite list_elem_of_filter. by intros [_ ?]. }
      cbn [remove_last].
      rewrite decide_False by (by rewrite list_elem_of_filter; intros [_ ?]).
      by rewrite decide_False.
Qed.

(** * The invariant is kept by [emit] *)

Lemma heard_snoc P hist n args :
  heard P (hist ++ [(n, args)]) =
    match heard P hist with
    | Some v => Some v
    | None => if P n then Some (hd VUndefined args) else None
    end.
Proof.
  induction hist as [|[m a] hist IH]; cbn; [done|].
  by destruct (P m).
Qed.

Lemma elem_of_flat_map {A B} (f : A → list B) (l : list A) (y : B) :
  y ∈ flat_map f l ↔ ∃ x, x ∈ l ∧ y ∈ f x.
Proof.
  rewrite list_elem_of_In, in_flat_map. setoid_rewrite list_elem_of_In. done.
Qed.

Lemma nodup_snd_unique {A B} (l : list (A * B)) a b p :
  NoDup l.*2 → (a, p) ∈ l → (b, p) ∈ l → a = b.
Proof.
  induction l as [|[x y] l IH]; intros Hnd Ha Hb; [by apply elem_of_nil in Ha|].
  rewrite fmap_cons in Hnd. apply list.NoDup_cons in Hnd as [Hy Hnd]. cbn in Hy.
  apply elem_of_cons in Ha as [Ha|Ha], Hb as [Hb|Hb]; simplify_eq; try done.
  - destruct Hy. apply list_elem_of_fmap. by exists (b, y).
  - destruct Hy. apply list_elem_of_fmap. by exists (a, y).
  - by apply IH.
Qed.

Lemma head_constant {A} (a : A) (l : list A) :
  l ≠ [] → (∀ x, x ∈ l → x = a) → head l = Some a.
Proof.
  destruct l as [|x l]; [done|]. intros _ H. cbn. f_equal. apply H. left.
Qed.

Lemma head_app_Some {A} (a : A) (l1 l2 : list A) :
  head l1 = Some a → head (l1 ++ l2) = Some a.
Proof. by destruct l1. Qed.

Lemma group_plain_excl S c g h i k es hh st :
  S = SAfter k es hh st → group S c = Some (g, h) → c = Nested k i → plain S i = None.
Proof.
  intros -> Hg ->. cbn in *. rewrite decide_True in Hg by done.
  by destruct (es !! i) as [[]|].
Qed.

Lemma group_resolve S c g e :
  from_caller (caller_handler S) → group S c = Some (g, HResolve e) →
  ∃ k es h st i, S = SAfter k es h st ∧ c = Nested k i ∧ e = PElement k i
                 ∧ es !! i = Some (AnyOf g).
Proof.
  intros Hwf Hg. destruct S as [k g0 h0|k es h0 st], c as [k'|k' i]; cbn in *; try done.
  - case_decide; simplify_eq. done.
  - case_decide; [|done]. subst k'. destruct (es !! i) as [[n|g']|] eqn:Hi; simplify_eq.
    by exists k, es, h0, st, i.
Qed.

Lemma plain_lt k es h st i n : plain (SAfter k es h st) i = Some n → i < length es.
Proof.
  cbn. destruct (es !! i) eqn:Hi; [|done]. intros _. by eapply lookup_lt_Some.
Qed.

Section emit_step.
Context (S : system) (hist : history) (s : app) (name : string) (args : list value).
Context (Hwf : from_caller (caller_handler S)) (HI : Inv S hist s).
Let v := hd VUndefined args.
Let s' := emit name args s.
Let new := flat_map (λ l, jobs_of v (promises s !! l.2))
                    (filter (λ l, l.1 = name) (listeners s)).

Local Lemma emit_facts :
  listeners s' = filter (λ l, l.1 ≠ name) (listeners s)
  ∧ (∀ p, promises s' !! p =
          if decide ((name, p) ∈ listeners s)
          then Some (Fulfilled v) else promises s !! p)
  ∧ jobs s' = jobs s ++ new
  ∧ slots s' = slots s ∧ calls s' = calls s ∧ started s' = started s.
Proof.
  destruct (emit_spec name args s (inv_nodup _ _ _ HI)) as (Hl & Hp & Hj & Hrest).
  split_and!; try done; try apply Hrest. intros p. rewrite Hp.
  destruct (decide _) as [Hin|]; [|done].
  apply (inv_listener _ _ _ HI) in Hin as [-> _]. done.
Qed.

Local Lemma new_elem r w :
  (r, w) ∈ new ↔ w = v ∧ ∃ p, (name, p) ∈ listeners s ∧ r ∈ static S p.
Proof.
  unfold new. rewrite elem_of_flat_map. split.
  - intros ([n p] & Hin & Hj).
    apply list_elem_of_filter in Hin as [Hn Hin]. cbn in *. subst n.
    destruct (inv_listener _ _ _ HI _ _ Hin) as [Hp _]. rewrite Hp in Hj. cbn in Hj.
    apply list_elem_of_fmap in Hj as (r' & [= -> ->] & Hr). eauto.
  - intros (-> & p & Hin & Hr). exists (name, p). split.
    + by apply list_elem_of_filter.
    + destruct (inv_listener _ _ _ HI _ _ Hin) as [Hp _]. cbn. rewrite Hp. cbn.
      apply list_elem_of_fmap. eauto.
Qed.

Local Lemma new_shape r w :
  (r, w) ∈ new →
  w = v ∧ ((∃ i, r = RAll (PAll (run_of S)) i ∧ plain S i = Some name
                 ∧ (name, PElement (run_of S) i) ∈ listeners s)
           ∨ (∃ c g h j, r = RRace (PRace c) ∧ group S c = Some (g, h)
                 ∧ g !! j = Some name ∧ (name, PListener c j) ∈ listeners s)).
Proof.
  intros (-> & p & Hin & Hr)%new_elem. split; [done|].
  destruct (inv_listener _ _ _ HI _ _ Hin) as [_ [(i & -> & Hi)|(c & g & h & j & Hg & -> & Hj)]].
  - left. exists i. cbn in Hr. apply list_elem_of_singleton in Hr. by subst.
  - right. exists c, g, h, j. cbn in Hr. apply list_elem_of_singleton in Hr. by subst.
Qed.

Local Lemma new_no_then q p kb : source S q = Some (p, kb) → filter (targets q) new = [].
Proof.
  intros Hq. apply filter_none. intros [r w] Hin Ht. unfold targets in Ht. cbn in Ht.
  apply new_shape in Hin as [_ [(i & -> & _)|(c & g & h & j & -> & _)]];
    cbn in Ht; subst q; done.
Qed.

Local Lemma untouched p :
  (∀ n, (n, p) ∉ listeners s) → promises s' !! p = promises s !! p.
Proof.
  intros Hp. destruct emit_facts as (_ & -> & _). by rewrite decide_False.
Qed.

Local Lemma settled_stays p w :
  promises s !! p = Some (Fulfilled w) → promises s' !! p = Some (Fulfilled w).
Proof.
  intros Hp. destruct emit_facts as (_ & -> & _).
  destruct (decide _) as [Hin|]; [|done].
  apply (inv_listener _ _ _ HI) in Hin as [? _]. congruence.
Qed.

Local Lemma not_listening p :
  match p with PElement _ _ | PListener _ _ => False | _ => True end →
  ∀ n, (n, p) ∉ listeners s.
Proof.
  intros Hp n Hin.
  destruct (inv_listener _ _ _ HI _ _ Hin) as [_ [(i & -> & _)|(c & g & h & j & _ & -> & _)]];
    done.
Qed.

Local Lemma fired_other n p :
  (n, p) ∈ listeners s → n ≠ name → (name, p) ∉ listeners s.
Proof.
  intros Hin Hn Hin'. apply Hn.
  by apply (nodup_snd_unique _ _ _ _ (inv_nodup _ _ _ HI) Hin Hin').
Qed.

Lemma Inv_emit : Inv S (hist ++ [(name, args)]) s'.
Proof.
  destruct emit_facts as (Hl & Hp & Hj & Hsl & Hc & Hst).
  split.
  - (* nodup *)
    rewrite Hl. apply (sublist_NoDup _ (listeners s).*2);
      [apply HI|apply fmap_sublist, sublist_filter].
  - (* listener *)
    intros n p Hin. rewrite Hl in Hin. apply list_elem_of_filter in Hin as [Hn Hin].
    cbn in Hn. destruct (inv_listener _ _ _ HI _ _ Hin) as [HP Hcl]. split; [|done].
    rewrite Hp, decide_False; [done|]. by apply (fired_other n).
  - (* plain *)
    intros i n Hi. pose proof (inv_plain _ _ _ HI _ _ Hi) as H.
    unfold heard_name in *. rewrite heard_snoc.
    destruct (heard _ hist) as [w|]; [by apply settled_stays|].
    case_bool_decide as Hn.
    + subst n. by rewrite Hp, decide_True.
    + rewrite Hl. apply list_elem_of_filter. split; [|done]. cbn. congruence.
  - (* member *)
    intros c g h j n Hg Hjn. unfold heard_any. rewrite heard_snoc.
    intros Hh. destruct (heard _ hist) eqn:Hh'; [done|].
    case_bool_decide as Hn; [done|].
    rewrite Hl. apply list_elem_of_filter. split.
    + cbn. intros ->. apply Hn. by eapply list_elem_of_lookup_2.
    + by eapply (inv_member _ _ _ HI).
  - (* race *)
    intros c g h Hg. pose proof (inv_race _ _ _ HI _ _ _ Hg) as H.
    unfold heard_any in *. rewrite heard_snoc.
    rewrite untouched by (by apply not_listening). rewrite Hj, list.filter_app.
    destruct (heard _ hist) as [w|] eqn:Hh.
    + destruct H as [H|[H1 H2]]; [by left|right]. split; [done|].
      by apply head_app_Some.
    + destruct H as [H1 H2]. rewrite H2, app_nil_l.
      case_bool_decide as Hn.
      * right. split; [done|]. apply head_constant.
        -- apply list_elem_of_lookup_1 in Hn as [j Hjn].
           pose proof (inv_member _ _ _ HI _ _ _ _ _ Hg Hjn Hh) as Hin.
           intros Hnil. eapply (filter_nil_not_elem_of _ _ (RRace (PRace c), v)) in Hnil.
           ++ apply Hnil. apply new_elem. split; [done|]. exists (PListener c j).
              split; [done|]. cbn. left.
           ++ done.
        -- intros [r w] [Ht Hin]%list_elem_of_filter. unfold targets in Ht. cbn in Ht.
           apply new_shape in Hin as [-> [(i & -> & _)|(c' & g' & h' & j' & -> & _)]];
             cbn in Ht; [done|]. by simplify_eq.
      * split; [done|]. apply filter_none. intros [r w] Hin Ht.
        unfold targets in Ht. cbn in Ht.
        apply new_shape in Hin as [-> [(i & -> & _)|(c' & g' & h' & j' & -> & Hg' & Hj' & _)]];
          cbn in Ht; [done|]. simplify_eq. apply Hn. by eapply list_elem_of_lookup_2.
  - (* then *)
    intros q p kb Hq. pose proof (inv_then _ _ _ HI _ _ _ Hq) as H.
    assert (∀ n, (n, q) ∉ listeners s) as Hq'.
    { apply not_listening. destruct q; try done; cbn in Hq; done. }
    assert (∀ n, (n, p) ∉ listeners s) as Hp'.
    { apply not_listening. destruct q; cbn in Hq; simplify_option_eq; try done;
        repeat case_match; simplify_eq; done. }
    rewrite !untouched by done. rewrite Hj, list.filter_app, (new_no_then _ _ _ Hq), app_nil_r.
    done.
  - (* element *)
    intros c g e Hg. pose proof (inv_element _ _ _ HI _ _ _ Hg) as H.
    rewrite untouched by (by apply not_listening).
    rewrite untouched; [done|].
    intros n Hin.
    destruct (group_resolve _ _ _ _ Hwf Hg) as (k & es & h0 & st & i & -> & -> & -> & Hi).
    destruct (inv_listener _ _ _ HI _ _ Hin) as [_ [(i' & Heq & Hi')|(c' & g' & h' & j & _ & ? & _)]];
      [|done].
    cbn in Heq, Hi'. simplify_eq. by rewrite Hi in Hi'.
  - (* calls *)
    rewrite Hc, untouched; [apply HI|]. apply not_listening. by destruct S.
  - (* started *)
    rewrite Hst, untouched; [apply HI|]. by apply not_listening.
  - (* slots *)
    intros k es h st HS.
    destruct (inv_slots _ _ _ HI _ _ _ _ HS) as (sl & Hsl1 & Hlen & Hel & Hall).
    exists sl. rewrite Hsl. split_and!; try done.
    + intros i Hi. specialize (Hel i Hi). rewrite Hp.
      destruct (decide _) as [Hin|]; cbn.
      * destruct (inv_listener _ _ _ HI _ _ Hin) as [HP _]. rewrite HP in Hel.
        right. split; [done|]. rewrite Hj. apply elem_of_app. right.
        apply new_elem. split; [done|]. exists (PElement k i). split; [done|]. left.
      * destruct (promises s !! PElement k i) as [[rs|w]|]; try done.
        destruct Hel as [?|[? ?]]; [by left|right]. split; [done|].
        rewrite Hj. apply elem_of_app. by left.
    + rewrite untouched by (by apply not_listening). done.
  - (* jobs *)
    intros r w Hin. rewrite Hj in Hin. apply elem_of_app in Hin as [Hin|Hin].
    + pose proof (inv_jobs _ _ _ HI _ _ Hin) as H. destruct r as [kb q|q|q i].
      * destruct H as (p & Hq & HP). exists p. split; [done|]. by apply settled_stays.
      * done.
      * destruct H as (k & es & h & st & HS & -> & Hi & HP).
        exists k, es, h, st. split_and!; try done. by apply settled_stays.
    + apply new_shape in Hin as [-> [(i & -> & Hi & Hin)|(c & g & h & j & -> & Hg & _)]].
      * destruct S as [|k es h st] eqn:HS; [done|]. exists k, es, h, st. cbn.
        split_and!; try done; [by eapply plain_lt|].
        cbn in Hin. by rewrite Hp, decide_True.
      * by exists c, g, h.
Qed.
End emit_step.

(** * The invariant is kept by the promise jobs *)

Lemma filled_None_lookup (sl : list (option value)) i :
  sl !! i = Some None → filled sl = None.
Proof.
  intros Hi. unfold filled. apply mapM_None. apply list.Exists_exists.
  exists None. split; [|done]. by eapply list_elem_of_lookup_2.
Qed.

Lemma filled_Some_lookup (sl : list (option value)) vs i :
  filled sl = Some vs → i < length sl → ∃ w, sl !! i = Some (Some w) ∧ vs !! i = Some w.
Proof.
  unfold filled. intros H%mapM_Some Hi.
  destruct (lookup_lt_is_Some_2 sl i Hi) as [x Hx].
  destruct (Forall2_lookup_l _ _ _ _ _ H Hx) as (w & Hw & Hxw). cbn in Hxw. subst x. eauto.
Qed.

(** Dropping the first job when it has nothing left to do. *)
Section pop.
Context (S : system) (hist : history) (s : app) (j : reaction * value)
        (Q : list (reaction * value)).
Context (HI : Inv S hist s) (HQ : jobs s = j :: Q).
Context (Hrace : ∀ c g h, group S c = Some (g, h) → targets (PRace c) j →
                  ∃ w, promises s !! PRace c = Some (Fulfilled w)).
Context (Hthen : ∀ q p kb, source S q = Some (p, kb) → ¬ targets q j).
Context (Hall : ∀ k es h st i w, S = SAfter k es h st → j = (RAll (PAll k) i, w) →
                  ∀ sl, slots s !! PAll k = Some sl → sl !! i ≠ Some None).

Lemma Inv_pop : Inv S hist (set_jobs (λ _, Q) s).
Proof.
  split; cbn.
  - apply HI.
  - apply HI.
  - apply HI.
  - apply HI.
  - intros c g h Hg. pose proof (inv_race _ _ _ HI _ _ _ Hg) as H.
    rewrite HQ in H. rewrite filter_cons in H.
    destruct (decide (targets (PRace c) j)) as [Ht|Ht]; [|done].
    destruct (Hrace _ _ _ Hg Ht) as [w Hw]. rewrite Hw in H.
    destruct (heard_any g hist); [|by destruct H as [[=] _]].
    destruct H as [H|[[=] _]]. left. congruence.
  - intros q p kb Hq. pose proof (inv_then _ _ _ HI _ _ _ Hq) as H.
    rewrite HQ in H. rewrite filter_cons_False in H by by eapply Hthen. done.
  - apply HI.
  - apply HI.
  - apply HI.
  - intros k es h st HS.
    destruct (inv_slots _ _ _ HI _ _ _ _ HS) as (sl & Hsl & Hlen & Hel & Hfill).
    exists sl. split_and!; try done. intros i Hi. specialize (Hel i Hi).
    destruct (promises s !! PElement k i) as [[rs|w]|]; try done.
    destruct Hel as [?|[Hn Hin]]; [by left|right]. split; [done|].
    rewrite HQ in Hin. apply elem_of_cons in Hin as [<-|?]; [|done].
    by edestruct Hall.
  - intros r w Hin. apply (inv_jobs _ _ _ HI). rewrite HQ. by right.
Qed.
End pop.

Lemma source_static S q p kb : source S q = Some (p, kb) → static S p = [RThen kb q].
Proof.
  destruct q as [| |c|c| | |k'|k']; cbn; try done.
  - destruct (group S c) as [[g h]|] eqn:Hg; cbn; [|done]. intros ?; simplify_eq. cbn.
    by rewrite Hg.
  - destruct (group S c) as [[g h]|] eqn:Hg; cbn; [|done]. intros ?; simplify_eq. cbn.
    by rewrite Hg.
  - destruct S as [|k es h st]; [done|]. case_decide; [|done]. by intros ?; simplify_eq.
  - destruct S as [|k es h [|]]; try done. case_decide; [|done]. by intros ?; simplify_eq.
Qed.

Lemma static_source S q p kb r :
  source S q = Some (p, kb) → r ∈ static S q →
  ∃ kb' q', r = RThen kb' q' ∧ source S q' = Some (q, kb').
Proof.
  destruct q as [| |c|c| | |k'|k']; cbn; try done.
  - destruct (group S c) as [[g h]|] eqn:Hg; cbn; [|done]. intros _ ->%list_elem_of_singleton.
    eexists _, _. split; [done|]. cbn. by rewrite Hg.
  - intros _ []%elem_of_nil.
  - destruct S as [|k es h st]; [done|]. case_decide; [|done]. subst k'.
    destruct st; [|by intros _ []%elem_of_nil]. intros _ ->%list_elem_of_singleton.
    eexists _, _. split; [done|]. cbn. by rewrite decide_True.
  - intros _ []%elem_of_nil.
Qed.

Lemma source_derived S q p kb :
  source S q = Some (p, kb) →
  match q with PHandled _ | PCleaned _ | PAfter _ | PStart _ => True | _ => False end
  ∧ match p with PRace _ | PHandled _ | PAll _ | PAfter _ => True | _ => False end.
Proof.
  destruct q as [| |c|c| | |k'|k']; cbn; try done.
  - destruct (group S c) as [[g h]|]; cbn; [|done]. by intros ?; simplify_eq.
  - destruct (group S c) as [[g h]|]; cbn; [|done]. by intros ?; simplify_eq.
  - destruct S as [|k es h st]; [done|]. case_decide; [|done]. by intros ?; simplify_eq.
  - destruct S as [|k es h [|]]; try done. case_decide; [|done]. by intros ?; simplify_eq.
Qed.

Lemma listener_pid S hist s n p :
  Inv S hist s → (n, p) ∈ listeners s →
  match p with PElement _ _ | PListener _ _ => True | _ => False end.
Proof.
  intros HI Hin.
  by destruct (inv_listener _ _ _ HI _ _ Hin) as [_ [(i & -> & _)|(c & g & h & j & _ & -> & _)]].
Qed.

(** A [.then] job: the callback runs and the derived promise settles. *)
Section then_step.
Context (S : system) (hist : history) (s s' : app).
Context (Hwf : from_caller (caller_handler S)) (HI : Inv S hist s).
Context (kb : callback) (q p : pid) (v : value) (Q : list (reaction * value)).
Context (HQ : jobs s = (RThen kb q, v) :: Q).
Context (Hsrc : source S q = Some (p, kb)).
Context (HPp : promises s !! p = Some (Fulfilled v)).
Let w := result kb v.
(* the element promise resolved by the callback, if it is a resolve function *)
Context (el : option pid).
Context (Hel : match el with
               | Some e => ∃ c g, q = PHandled c ∧ group S c = Some (g, HResolve e)
               | None => ∀ c g e, group S c = Some (g, HResolve e) → q ≠ PHandled c
               end).
Context (HL : listeners s' `sublist_of` listeners s).
Context (HLkeep : ∀ n x, (n, x) ∈ listeners s → (n, x) ∈ listeners s'
                   ∨ ∃ c g h j, x = PListener c j ∧ group S c = Some (g, h)
                                ∧ is_Some (heard_any g hist)).
Context (HP' : ∀ x, promises s' !! x =
                 if decide (x = q) then Some (Fulfilled w)
                 else if decide (Some x = el) then Some (Fulfilled w)
                 else promises s !! x).
Context (HJ' : jobs s' = Q ++ match el with
                              | Some e => map (λ r, (r, w)) (static S e)
                              | None => []
                              end ++ map (λ r, (r, w)) (static S q)).
Context (Hslots : slots s' = slots s).
Context (Hcalls : calls s' = if decide (q = handler_site S)
                             then log_of (caller_handler S) w else calls s).
Context (Hstarted : started s' = if decide (q = PStart (run_of S))
                                 then true else started s).

Local Lemma el_cases : el = None ∨ ∃ e, el = Some e.
Proof. destruct el; eauto. Qed.

Local Lemma q_pending :
  promises s !! q = Some (Pending (static S q)) ∧ filter (targets q) Q = [].
Proof.
  pose proof (inv_then _ _ _ HI _ _ _ Hsrc) as H. rewrite HPp, HQ in H.
  rewrite filter_cons_True in H by done.
  destruct (promises s !! q) as [[rs|x]|]; [|by destruct H|done].
  destruct H as [-> H]. split; [done|]. by simplify_eq.
Qed.

Local Lemma q_derived :
  match q with PHandled _ | PCleaned _ | PAfter _ | PStart _ => True | _ => False end.
Proof. by destruct (source_derived _ _ _ _ Hsrc). Qed.

Local Lemma el_element e :
  el = Some e →
  ∃ k es h st i g, S = SAfter k es h st ∧ q = PHandled (Nested k i) ∧ e = PElement k i
    ∧ es !! i = Some (AnyOf g) ∧ group S (Nested k i) = Some (g, HResolve e)
    ∧ promises s !! e = Some (Pending (static S e)).
Proof.
  intros He. pose proof Hel as Hel'. rewrite He in Hel'.
  destruct Hel' as (c & g & Hqc & Hg).
  destruct (group_resolve _ _ _ _ Hwf Hg) as (k & es & h & st & i & HS & Hc & Hek & Hi).
  exists k, es, h, st, i, g. split_and!; try done; try congruence.
  pose proof (inv_element _ _ _ HI _ _ _ Hg) as H.
  destruct q_pending as [Hq _]. rewrite <-Hqc in H. by rewrite Hq in H.
Qed.

Local Lemma then_same x :
  x ≠ q → Some x ≠ el → promises s' !! x = promises s !! x.
Proof. intros ??. by rewrite HP', !decide_False. Qed.

Local Lemma then_stays x y :
  promises s !! x = Some (Fulfilled y) → promises s' !! x = Some (Fulfilled y).
Proof.
  intros Hx. rewrite then_same; [done| |].
  - intros Hxq. rewrite Hxq in Hx. destruct q_pending. congruence.
  - intros He. symmetry in He. destruct (el_element _ He) as (?&?&?&?&?&?&?&?&?&?&?&?).
    congruence.
Qed.

Local Lemma old_job j : j ∈ Q → j ∈ jobs s'.
Proof. intros ?. rewrite HJ'. apply elem_of_app. by left. Qed.

Local Lemma el_jobs_filter q' :
  (∀ k, q' ≠ PAll k) →
  filter (targets q') match el with
                      | Some e => map (λ r, (r, w)) (static S e)
                      | None => []
                      end = [].
Proof.
  intros Hall.
  assert (el = None ∨ ∃ e, el = Some e) as [He|[e He]] by (destruct el; eauto);
    rewrite He; [done|].
  destruct (el_element _ He) as (k&es&h&st&i&g&?&?&->&?).
  cbn [static map]. rewrite filter_cons_False; [done|]. unfold targets. cbn. intros ?.
  by eapply Hall.
Qed.

Local Lemma new_then_from q' kb' :
  source S q' = Some (q, kb') →
  filter (targets q') (jobs s') = filter (targets q') Q ++ [(RThen kb' q', w)].
Proof.
  intros Hq'. rewrite HJ', !list.filter_app. f_equal.
  rewrite el_jobs_filter, app_nil_l.
  - rewrite (source_static _ _ _ _ Hq'). cbn [map]. by rewrite filter_cons_True.
  - intros k ->. by destruct (source_derived _ _ _ _ Hq').
Qed.

Local Lemma new_then_other q' :
  (∀ k, q' ≠ PAll k) → (∀ kb', source S q' ≠ Some (q, kb')) →
  filter (targets q') (jobs s') = filter (targets q') Q.
Proof.
  intros Hall Hq'. rewrite HJ', !list.filter_app.
  rewrite el_jobs_filter, app_nil_l by done.
  rewrite (filter_none _ (map _ _)); [by rewrite app_nil_r|].
  intros [r y] [r' [[= -> ->] Hr]]%list_elem_of_fmap Ht.
  destruct (static_source _ _ _ _ _ Hsrc Hr) as (kb'' & q'' & -> & Hs).
  unfold targets in Ht. cbn in Ht. subst q''. by eapply Hq'.
Qed.
Local Lemma not_q n x : (n, x) ∈ listeners s → x ≠ q ∧ Some x ≠ el.
Proof.
  intros Hin. destruct (inv_listener _ _ _ HI _ _ Hin) as [Hx Hcl]. split.
  - intros Hxq. pose proof q_derived as Hqd. rewrite <-Hxq in Hqd.
    by destruct Hcl as [(i & -> & _)|(c & g & h & j & _ & -> & _)].
  - intros He. symmetry in He.
    destruct (el_element _ He) as (k&es&h&st&i&g&HS&_&->&Hi&_).
    destruct Hcl as [(i' & Heq & Hi')|(c & g' & h' & j & _ & ? & _)]; [|done].
    rewrite HS in Heq, Hi'. cbn in Heq, Hi'. injection Heq as <-.
    by rewrite Hi in Hi'.
Qed.

Lemma Inv_then_step : Inv S hist s'.
Proof.
  destruct q_pending as [Hq HQq]. pose proof q_derived as Hqd.
  split.
  - (* nodup *)
    apply (sublist_NoDup _ (listeners s).*2); [apply HI|by apply fmap_sublist].
  - (* listener *)
    intros n x Hin. apply (sublist_subseteq _ _ HL) in Hin.
    destruct (not_q _ _ Hin). rewrite then_same by done. by apply (inv_listener _ _ _ HI).
  - (* plain *)
    intros i n Hi. pose proof (inv_plain _ _ _ HI _ _ Hi) as H.
    destruct (heard_name n hist); [by apply then_stays|].
    by destruct (HLkeep _ _ H) as [?|(?&?&?&?&?&_)].
  - (* member *)
    intros c g h j n Hg Hj Hh.
    pose proof (inv_member _ _ _ HI _ _ _ _ _ Hg Hj Hh) as H.
    destruct (HLkeep _ _ H) as [?|(c'&g'&h'&j'&Hc&Hg'&Hs)]; [done|].
    injection Hc as <- <-. rewrite Hg in Hg'. injection Hg' as <- <-.
    rewrite Hh in Hs. by destruct Hs.
  - (* race *)
    intros c g h Hg. pose proof (inv_race _ _ _ HI _ _ _ Hg) as H.
    rewrite HQ, filter_cons_False in H by (unfold targets; cbn; by destruct q).
    pose proof new_then_other as T1.
    pose proof (T1 (PRace c)) as T2.
    rewrite T2; [|done|by intros kb' Hs].
    rewrite then_same; [done|by destruct q|].
    intros He. symmetry in He. by destruct (el_element _ He) as (?&?&?&?&?&?&?&?&?&?).
  - (* then *)
    intros q' p' kb' Hq'. pose proof (inv_then _ _ _ HI _ _ _ Hq') as H.
    assert (Some q' ≠ el) as Hq'e.
    { intros He. symmetry in He. destruct (el_element _ He) as (?&?&?&?&?&?&?&?&->&?).
      by destruct (source_derived _ _ _ _ Hq'). }
    assert (Some p' ≠ el) as Hp'e.
    { intros He. symmetry in He. destruct (el_element _ He) as (?&?&?&?&?&?&?&?&->&?).
      by destruct (source_derived _ _ _ _ Hq'). }
    assert (∀ k, q' ≠ PAll k) as Hq'a.
    { intros k ->. by destruct (source_derived _ _ _ _ Hq'). }
    destruct (decide (q' = q)) as [Heq|Hne]; [subst q'|].
    + (* the promise that settles now *)
      rewrite Hsrc in Hq'. injection Hq' as Hp1 Hk1. subst p' kb'.
      rewrite HP', decide_True by done.
      rewrite new_then_other; [|done|].
      * split; [done|]. exists v. split; [|done]. rewrite then_same; [done| |done].
        intros Hpq. rewrite Hpq in HPp. congruence.
      * intros kb' Hs. rewrite Hsrc in Hs. congruence.
    + rewrite (then_same q') by done.
      destruct (decide (p' = q)) as [Heq|Hne']; [subst p'|].
      * (* its source settles now *)
        rewrite HP', decide_True by done. rewrite (new_then_from _ _ Hq').
        rewrite Hq, HQ in H.
        rewrite filter_cons_False in H by (unfold targets; cbn; congruence).
        destruct (promises s !! q') as [[rs|y]|]; [|by destruct H as (_&?&?&_)|done].
        destruct H as [-> H]. by rewrite H.
      * rewrite (then_same p') by done.
        rewrite HQ, filter_cons_False in H by (unfold targets; cbn; congruence).
        rewrite new_then_other; [done|done|]. intros kb'' Hs. rewrite Hq' in Hs.
        congruence.
  - (* element *)
    intros c g e Hg. pose proof (inv_element _ _ _ HI _ _ _ Hg) as H.
    destruct (group_resolve _ _ _ _ Hwf Hg) as (k & es & h & st & i & HS & -> & -> & Hi).
    destruct (decide (PHandled (Nested k i) = q)) as [Heq|Hne].
    + rewrite HP', decide_True by done.
      destruct el_cases as [He|[e He]].
      * exfalso. pose proof Hel as Hel'. rewrite He in Hel'. by eapply Hel'.
      * destruct (el_element _ He) as (k'&es'&h'&st'&i'&g'&HS'&Hq'&He'&_).
        rewrite HP', decide_False by (rewrite Hq'; done).
        rewrite decide_True; [done|]. congruence.
    + rewrite (then_same (PHandled _)); [|done|].
      2:{ intros He. symmetry in He. by destruct (el_element _ He) as (?&?&?&?&?&?&?&?&?&?). }
      rewrite then_same; [done|by destruct q|].
      intros He. symmetry in He.
      destruct (el_element _ He) as (k'&es'&h'&st'&i'&g'&HS'&Hq'&He'&_).
      apply Hne. congruence.
  - (* calls *)
    rewrite Hcalls. destruct (decide (q = handler_site S)) as [Hd|Hd].
    + rewrite HP', decide_True by done. done.
    + rewrite then_same; [apply HI|done|].
      intros He. symmetry in He. destruct (el_element _ He) as (?&?&?&?&?&?&HS&?&?&?).
      rewrite HS in *. done.
  - (* started *)
    rewrite Hstarted. destruct (decide (q = PStart (run_of S))) as [Hd|Hd].
    + rewrite HP', decide_True by done. done.
    + rewrite then_same; [apply HI|done|].
      intros He. symmetry in He. by destruct (el_element _ He) as (?&?&?&?&?&?&HS&?&?&?).
  - (* slots *)
    intros k es h st HS.
    destruct (inv_slots _ _ _ HI _ _ _ _ HS) as (sl & Hsl & Hlen & Hels & Hfill).
    exists sl. rewrite Hslots. split_and!; try done.
    + intros i Hi. specialize (Hels i Hi). rewrite HP'.
      rewrite decide_False by (by destruct q).
      destruct (decide (Some (PElement k i) = el)) as [He|He].
      * symmetry in He.
        destruct (el_element _ He) as (k'&es'&h'&st'&i'&g'&HS'&Hq'&He'&_&_&HPe).
        rewrite HPe in Hels. right. split; [done|].
        rewrite HJ', He. apply elem_of_app. right. apply elem_of_app. left.
        cbn. left.
      * destruct (promises s !! PElement k i) as [[rs|y]|]; try done.
        destruct Hels as [?|[? Hin]]; [by left|right]. split; [done|].
        apply old_job. rewrite HQ in Hin. by apply elem_of_cons in Hin as [?|?].
    + rewrite then_same; [done| |].
      * intros Heq. by rewrite <-Heq in Hqd.
      * intros He. symmetry in He.
        by destruct (el_element _ He) as (?&?&?&?&?&?&?&?&?&?).
  - (* jobs *)
    intros r y Hin. rewrite HJ' in Hin.
    apply elem_of_app in Hin as [Hin|Hin]; [|apply elem_of_app in Hin as [Hin|Hin]].
    + assert ((r, y) ∈ jobs s) as Hin' by (rewrite HQ; by right).
      pose proof (inv_jobs _ _ _ HI _ _ Hin') as H. destruct r as [kb' q'|q'|q' i].
      * destruct H as (p' & ? & ?). exists p'. split; [done|]. by apply then_stays.
      * done.
      * destruct H as (k & es & h & st & HS & -> & Hi & HP).
        exists k, es, h, st. split_and!; try done. by apply then_stays.
    + destruct el_cases as [He|[e He]]; rewrite He in Hin; [by apply elem_of_nil in Hin|].
      destruct (el_element _ He) as (k&es&h&st&i&g&HS&Hq'&->&Hi&_&_).
      cbn in Hin. apply list_elem_of_singleton in Hin. injection Hin as -> ->.
      exists k, es, h, st. split_and!; try done.
      * by eapply lookup_lt_Some.
      * rewrite HP', decide_False by (by destruct q). by rewrite decide_True.
    + apply list_elem_of_fmap in Hin as (r' & [= -> ->] & Hr).
      destruct (static_source _ _ _ _ _ Hsrc Hr) as (kb' & q' & -> & Hs).
      exists q. split; [done|]. by rewrite HP', decide_True.
Qed.
End then_step.

(** The job of a race that is still open: the race settles. *)
Section race_step.
Context (S : system) (hist : history) (s s' : app).
Context (Hwf : from_caller (caller_handler S)) (HI : Inv S hist s).
Context (c : invocation) (g : list string) (h : handler) (v : value)
        (Q : list (reaction * value)).
Context (HQ : jobs s = (RRace (PRace c), v) :: Q).
Context (Hg : group S c = Some (g, h)).
Context (HPr : promises s !! PRace c = Some (Pending (static S (PRace c)))).
Context (HL : listeners s' = listeners s).
Context (HP' : ∀ x, promises s' !! x =
                 if decide (x = PRace c) then Some (Fulfilled v) else promises s !! x).
Context (HJ' : jobs s' = Q ++ [(RThen (KHandlerWrapperAny h) (PHandled c), v)]).
Context (Hslots : slots s' = slots s).
Context (Hcalls : calls s' = calls s).
Context (Hstarted : started s' = started s).

Local Lemma race_value : heard_any g hist = Some v.
Proof.
  pose proof (inv_race _ _ _ HI _ _ _ Hg) as H. rewrite HQ, HPr in H.
  rewrite filter_cons_True in H by done.
  destruct (heard_any g hist) as [v0|]; [|by destruct H].
  destruct H as [?|[_ H]]; [done|]. cbn in H. congruence.
Qed.

Local Lemma race_same x : x ≠ PRace c → promises s' !! x = promises s !! x.
Proof. intros ?. by rewrite HP', decide_False. Qed.

Local Lemma race_stays x y :
  promises s !! x = Some (Fulfilled y) → promises s' !! x = Some (Fulfilled y).
Proof. intros Hx. rewrite race_same; [done|]. intros ->. congruence. Qed.

Local Lemma src_handled : source S (PHandled c) = Some (PRace c, KHandlerWrapperAny h).
Proof. cbn. by rewrite Hg. Qed.

Local Lemma only_handled q p kb : source S q = Some (p, kb) → p = PRace c → q = PHandled c.
Proof.
  intros Hq ->. destruct q as [| |c'|c'| | |k'|k']; cbn in Hq; try done.
  - destruct (group S c') as [[??]|]; cbn in Hq; congruence.
  - destruct (group S c') as [[??]|]; cbn in Hq; by simplify_eq.
  - destruct S as [|???[|]]; try done; case_decide; by simplify_eq.
  - destruct S as [|???[|]]; try done; case_decide; by simplify_eq.
Qed.

Local Lemma race_filter_jobs q :
  q ≠ PRace c →
  filter (targets q) (jobs s) = filter (targets q) Q
  ∧ filter (targets q) (jobs s') =
      filter (targets q) Q
        ++ (if decide (q = PHandled c)
            then [(RThen (KHandlerWrapperAny h) (PHandled c), v)] else []).
Proof.
  intros Hq. split.
  - rewrite HQ, filter_cons_False; [done|]. unfold targets. cbn. congruence.
  - rewrite HJ', list.filter_app. f_equal. case_decide as Hd.
    + by rewrite filter_cons_True.
    + rewrite filter_cons_False; [done|]. unfold targets. cbn. congruence.
Qed.

Lemma Inv_race_step : Inv S hist s'.
Proof.
  pose proof race_value as Hv.
  split.
  - rewrite HL. apply HI.
  - intros n x Hin. rewrite HL in Hin. rewrite race_same.
    + by apply (inv_listener _ _ _ HI).
    + intros ->. by apply (listener_pid _ _ _ _ _ HI) in Hin.
  - intros i n Hi. pose proof (inv_plain _ _ _ HI _ _ Hi) as H. rewrite HL.
    destruct (heard_name n hist); [by apply race_stays|done].
  - intros c' g' h' j n Hg' Hj Hh. rewrite HL. by eapply (inv_member _ _ _ HI).
  - intros c' g' h' Hg'. destruct (decide (c' = c)) as [->|Hne].
    + rewrite Hg in Hg'. injection Hg' as <- <-. rewrite Hv. left.
      by rewrite HP', decide_True.
    + pose proof (inv_race _ _ _ HI _ _ _ Hg') as H.
      destruct (race_filter_jobs (PRace c')) as [H1 H2]; [congruence|].
      rewrite H1 in H. rewrite H2, decide_False, app_nil_r by done.
      rewrite race_same by congruence. done.
  - intros q p kb Hq. pose proof (inv_then _ _ _ HI _ _ _ Hq) as H.
    destruct (source_derived _ _ _ _ Hq) as [Hqd Hpd].
    assert (q ≠ PRace c) as Hqc by (intros ->; done).
    destruct (race_filter_jobs q Hqc) as [H1 H2]. rewrite H1 in H. rewrite H2.
    rewrite (race_same q) by done.
    destruct (decide (p = PRace c)) as [->|Hp].
    + pose proof (only_handled _ _ _ Hq eq_refl) as ->.
      rewrite src_handled in Hq. injection Hq as <-.
      rewrite HP', decide_True by done. rewrite HPr in H. rewrite decide_True by done.
      destruct (promises s !! PHandled c) as [[rs|y]|]; [|by destruct H as (_&?&?&_)|done].
      destruct H as [-> H]. rewrite H. done.
    + rewrite (race_same p) by done. rewrite decide_False, app_nil_r; [done|].
      intros ->. rewrite src_handled in Hq. congruence.
  - intros c' g' e Hg'. pose proof (inv_element _ _ _ HI _ _ _ Hg') as H.
    rewrite (race_same (PHandled c')) by done.
    destruct (group_resolve _ _ _ _ Hwf Hg') as (k & es & h0 & st & i & _ & _ & -> & _).
    by rewrite race_same.
  - rewrite Hcalls, race_same; [apply HI|]. by destruct S.
  - rewrite Hstarted, race_same; [apply HI|done].
  - intros k es h0 st HS.
    destruct (inv_slots _ _ _ HI _ _ _ _ HS) as (sl & Hsl & Hlen & Hels & Hfill).
    exists sl. rewrite Hslots. split_and!; try done.
    + intros i Hi. specialize (Hels i Hi). rewrite race_same by done.
      destruct (promises s !! PElement k i) as [[rs|y]|]; try done.
      destruct Hels as [?|[? Hin]]; [by left|right]. split; [done|].
      rewrite HJ'. apply elem_of_app. left. rewrite HQ in Hin.
      by apply elem_of_cons in Hin as [?|?].
    + by rewrite race_same.
  - intros r y Hin. rewrite HJ' in Hin. apply elem_of_app in Hin as [Hin|Hin].
    + assert ((r, y) ∈ jobs s) as Hin' by (rewrite HQ; by right).
      pose proof (inv_jobs _ _ _ HI _ _ Hin') as H. destruct r as [kb' q'|q'|q' i].
      * destruct H as (p' & ? & ?). exists p'. split; [done|]. by apply race_stays.
      * done.
      * destruct H as (k & es & h0 & st & HS & -> & Hi & HP).
        exists k, es, h0, st. split_and!; try done. by apply race_stays.
    + apply list_elem_of_singleton in Hin. injection Hin as -> ->.
      exists (PRace c). split; [apply src_handled|]. by rewrite HP', decide_True.
Qed.
End race_step.

(** The job of an element of [Promise.all]: its slot is filled, and the
    promise settles when that was the last one. *)
Section all_step.
Context (S : system) (hist : history) (s s' : app).
Context (Hwf : from_caller (caller_handler S)) (HI : Inv S hist s).
Context (k : nat) (es : list element) (h : handler) (st : bool).
Context (HS : S = SAfter k es h st).
Context (i : nat) (v : value) (Q : list (reaction * value)).
Context (HQ : jobs s = (RAll (PAll k) i, v) :: Q).
Context (sl : list (option value)).
Context (Hsl : slots s !! PAll k = Some sl) (Hi : sl !! i = Some None).
Let sl' := <[i := Some v]> sl.
Context (HL : listeners s' = listeners s).
Context (HP' : ∀ x, promises s' !! x =
                 match filled sl' with
                 | Some vs => if decide (x = PAll k) then Some (Fulfilled (VArr vs))
                              else promises s !! x
                 | None => promises s !! x
                 end).
Context (HJ' : jobs s' = Q ++ match filled sl' with
                              | Some vs => [(RThen (KHandlerWrapperAll h) (PAfter k), VArr vs)]
                              | None => []
                              end).
Context (Hslots : slots s' = <[PAll k := sl']> (slots s)).
Context (Hcalls : calls s' = calls s).
Context (Hstarted : started s' = started s).

Local Lemma all_pending : promises s !! PAll k = Some (Pending (static S (PAll k))).
Proof.
  destruct (inv_slots _ _ _ HI _ _ _ _ HS) as (sl0 & Hsl0 & _ & _ & Hfill).
  rewrite Hsl in Hsl0. injection Hsl0 as <-.
  by rewrite (filled_None_lookup _ _ Hi) in Hfill.
Qed.

Local Lemma all_same x : x ≠ PAll k → promises s' !! x = promises s !! x.
Proof. intros ?. rewrite HP'. destruct (filled sl'); [|done]. by rewrite decide_False. Qed.

Local Lemma all_stays x y :
  promises s !! x = Some (Fulfilled y) → promises s' !! x = Some (Fulfilled y).
Proof.
  intros Hx. rewrite all_same; [done|]. intros ->. pose proof all_pending. congruence.
Qed.

Local Lemma src_after : source S (PAfter k) = Some (PAll k, KHandlerWrapperAll h).
Proof. rewrite HS. cbn. by rewrite decide_True. Qed.

Local Lemma only_after q p kb : source S q = Some (p, kb) → p = PAll k → q = PAfter k.
Proof.
  intros Hq ->. destruct q as [| |c'|c'| | |k'|k']; cbn in Hq; try done.
  - destruct (group S c') as [[??]|]; cbn in Hq; by simplify_eq.
  - destruct (group S c') as [[??]|]; cbn in Hq; by simplify_eq.
  - rewrite HS in Hq. case_decide; by simplify_eq.
  - rewrite HS in Hq. destruct st; try done. case_decide; by simplify_eq.
Qed.

Local Lemma all_filter_jobs q :
  q ≠ PAll k →
  filter (targets q) (jobs s) = filter (targets q) Q
  ∧ filter (targets q) (jobs s') =
      filter (targets q) Q
        ++ match filled sl' with
           | Some vs => if decide (q = PAfter k)
                        then [(RThen (KHandlerWrapperAll h) (PAfter k), VArr vs)] else []
           | None => []
           end.
Proof.
  intros Hq. split.
  - rewrite HQ, filter_cons_False; [done|]. unfold targets. cbn. congruence.
  - rewrite HJ', list.filter_app. f_equal. destruct (filled sl'); [|done].
    case_decide as Hd.
    + by rewrite filter_cons_True.
    + rewrite filter_cons_False; [done|]. unfold targets. cbn. congruence.
Qed.

Lemma Inv_all_step : Inv S hist s'.
Proof.
  pose proof all_pending as Hall.
  split.
  - rewrite HL. apply HI.
  - intros n x Hin. rewrite HL in Hin. rewrite all_same.
    + by apply (inv_listener _ _ _ HI).
    + intros ->. by apply (listener_pid _ _ _ _ _ HI) in Hin.
  - intros j n Hj. pose proof (inv_plain _ _ _ HI _ _ Hj) as H. rewrite HL.
    destruct (heard_name n hist); [by apply all_stays|done].
  - intros c' g' h' j n Hg' Hj Hh. rewrite HL. by eapply (inv_member _ _ _ HI).
  - intros c g' h' Hg'. pose proof (inv_race _ _ _ HI _ _ _ Hg') as H.
    destruct (all_filter_jobs (PRace c)) as [H1 H2]; [done|].
    rewrite H1 in H. rewrite H2, all_same by done.
    destruct (filled sl'); by rewrite ?app_nil_r.
  - intros q p kb Hq. pose proof (inv_then _ _ _ HI _ _ _ Hq) as H.
    destruct (source_derived _ _ _ _ Hq) as [Hqd Hpd].
    assert (q ≠ PAll k) as Hqc by (intros ->; done).
    destruct (all_filter_jobs q Hqc) as [H1 H2]. rewrite H1 in H. rewrite H2.
    rewrite (all_same q) by done.
    destruct (decide (p = PAll k)) as [->|Hp].
    + pose proof (only_after _ _ _ Hq eq_refl) as ->.
      rewrite src_after in Hq. injection Hq as <-.
      rewrite Hall in H. rewrite HP'.
      destruct (filled sl') as [vs|]; [|by rewrite Hall, app_nil_r].
      rewrite !decide_True by done.
      destruct (promises s !! PAfter k) as [[rs|y]|]; [|by destruct H as (_&?&?&_)|done].
      destruct H as [-> H]. rewrite H. done.
    + rewrite (all_same p) by done.
      destruct (filled sl'); rewrite ?decide_False, ?app_nil_r; try done.
      intros ->. rewrite src_after in Hq. congruence.
  - intros c' g' e Hg'. pose proof (inv_element _ _ _ HI _ _ _ Hg') as H.
    rewrite (all_same (PHandled c')) by done.
    destruct (group_resolve _ _ _ _ Hwf Hg') as (?&?&?&?&?& _ & _ & -> & _).
    by rewrite all_same.
  - rewrite Hcalls, all_same; [apply HI|]. by rewrite HS.
  - rewrite Hstarted, all_same; [apply HI|done].
  - intros k' es' h' st' HS'. rewrite HS in HS'. injection HS' as <- <- <- <-.
    destruct (inv_slots _ _ _ HI _ _ _ _ HS) as (sl0 & Hsl0 & Hlen & Hels & Hfill).
    rewrite Hsl in Hsl0. injection Hsl0 as <-.
    exists sl'. rewrite Hslots, lookup_insert_eq. split_and!; try done.
    + unfold sl'. by rewrite length_insert.
    + intros i' Hi'. specialize (Hels i' Hi'). rewrite all_same by done.
      destruct (decide (i' = i)) as [->|Hne].
      * pose proof (inv_jobs _ _ _ HI (RAll (PAll k) i) v) as Hj.
        rewrite HQ in Hj. destruct Hj as (?&?&?&?&HS'&_&_&HPe); [left|].
        rewrite HS in HS'. injection HS' as <- <- <- <-. rewrite HPe.
        left. unfold sl'. apply list_lookup_insert_eq. by eapply lookup_lt_Some.
      * unfold sl'. rewrite list_lookup_insert_ne by done.
        destruct (promises s !! PElement k i') as [[rs|y]|]; try done.
        destruct Hels as [?|[? Hin]]; [by left|right]. split; [done|].
        rewrite HJ'. apply elem_of_app. left. rewrite HQ in Hin.
        apply elem_of_cons in Hin as [?|?]; [congruence|done].
    + rewrite HP'. destruct (filled sl'); [by rewrite decide_True|done].
  - intros r y Hin. rewrite HJ' in Hin. apply elem_of_app in Hin as [Hin|Hin].
    + assert ((r, y) ∈ jobs s) as Hin' by (rewrite HQ; by right).
      pose proof (inv_jobs _ _ _ HI _ _ Hin') as H. destruct r as [kb' q'|q'|q' i'].
      * destruct H as (p' & ? & ?). exists p'. split; [done|]. by apply all_stays.
      * done.
      * destruct H as (k' & es' & h0 & st' & HS' & -> & Hi' & HP).
        exists k', es', h0, st'. split_and!; try done. by apply all_stays.
    + destruct (filled sl') as [vs|] eqn:Hf; [|by apply elem_of_nil in Hin].
      apply list_elem_of_singleton in Hin. injection Hin as -> ->.
      exists (PAll k). split; [apply src_after|]. by rewrite HP', decide_True.
Qed.
End all_step.

(** ** Every job, and every script *)

Lemma remove_last_sublist x l : remove_last x l `sublist_of` l.
Proof.
  induction l as [|y l IH]; cbn [remove_last]; [done|].
  repeat case_decide; [by apply sublist_skip|by apply sublist_cons|done].
Qed.

Lemma remove_last_keeps x y l : y ∈ l → y ∈ remove_last x l ∨ y = x.
Proof.
  induction l as [|z l IH]; cbn [remove_last]; [by intros ?%elem_of_nil|].
  intros [->|Hy]%elem_of_cons.
  - repeat case_decide; subst; eauto using list_elem_of_here.
  - repeat case_decide; subst; [|eauto|eauto using list_elem_of_further].
    destruct (IH Hy); eauto using list_elem_of_further.
Qed.

Section cleanup_facts.
Context (rc : option pid).
Let body := λ (s : app) (eventName : string),
  match rc with Some p => removeListener eventName p s | None => s end.

Lemma cleanup_spec events s :
  let s' := foldl body s events in
  promises s' = promises s ∧ jobs s' = jobs s ∧ slots s' = slots s
  ∧ calls s' = calls s ∧ started s' = started s
  ∧ listeners s' `sublist_of` listeners s
  ∧ ∀ x, x ∈ listeners s → x ∈ listeners s' ∨ rc = Some x.2.
Proof.
  revert s. induction events as [|e events IH]; intros s; cbn [foldl].
  { split_and!; try done. eauto. }
  destruct (IH (body s e)) as (Hp & Hj & Hs & Hc & Hst & Hl & Hk).
  assert (promises (body s e) = promises s ∧ jobs (body s e) = jobs s
          ∧ slots (body s e) = slots s ∧ calls (body s e) = calls s
          ∧ started (body s e) = started s
          ∧ listeners (body s e) `sublist_of` listeners s
          ∧ ∀ x, x ∈ listeners s → x ∈ listeners (body s e) ∨ rc = Some x.2)
    as (Hp0 & Hj0 & Hs0 & Hc0 & Hst0 & Hl0 & Hk0).
  { unfold body. destruct rc as [p|]; cbn; split_and!; try done; eauto.
    - apply remove_last_sublist.
    - intros x Hx. destruct (remove_last_keeps (e, p) x _ Hx) as [?| ->]; eauto. }
  split_and!; try congruence.
  - by etrans.
  - intros x Hx. destruct (Hk0 x Hx) as [Hx'|?]; [|by right]. by apply Hk.
Qed.
End cleanup_facts.

Section then_pending.
Context (S : system) (hist : history) (s : app) (HI : Inv S hist s).
Context (kb : callback) (q p : pid) (v : value) (Q : list (reaction * value)).
Context (HQ : jobs s = (RThen kb q, v) :: Q).
Context (Hsrc : source S q = Some (p, kb)).
Context (HPp : promises s !! p = Some (Fulfilled v)).

Lemma then_target_pending : promises s !! q = Some (Pending (static S q)).
Proof.
  pose proof (inv_then _ _ _ HI _ _ _ Hsrc) as H. rewrite HPp, HQ in H.
  rewrite filter_cons_True in H by done.
  destruct (promises s !! q) as [[rs|x]|]; [|by destruct H|done].
  by destruct H as [-> H].
Qed.
End then_pending.

Lemma insert_lookup_dec (m : gmap pid pstate) q y x :
  <[q := y]> m !! x = if decide (x = q) then Some y else m !! x.
Proof.
  destruct (decide (x = q)) as [->|?]; [apply lookup_insert_eq|by apply lookup_insert_ne].
Qed.

Lemma source_handled S c p kb :
  source S (PHandled c) = Some (p, kb) →
  ∃ g h, group S c = Some (g, h) ∧ p = PRace c ∧ kb = KHandlerWrapperAny h.
Proof.
  unfold source. destruct (group S c) as [[g h]|]; intros H; [|done].
  injection H as <- <-. eauto.
Qed.

Lemma source_cleaned S c p kb :
  source S (PCleaned c) = Some (p, kb) →
  ∃ g h, group S c = Some (g, h) ∧ p = PHandled c ∧ kb = KCleanup g (last_listener c g).
Proof.
  unfold source. destruct (group S c) as [[g h]|]; intros H; [|done].
  injection H as <- <-. eauto.
Qed.

Lemma source_after S k p kb :
  source S (PAfter k) = Some (p, kb) →
  ∃ es h st, S = SAfter k es h st ∧ p = PAll k ∧ kb = KHandlerWrapperAll h.
Proof.
  destruct S as [|k0 es h st]; cbn; [done|]. case_decide; [|done]. subst.
  intros H. injection H as <- <-. by eexists _, _, _.
Qed.

Lemma source_start S k p kb :
  source S (PStart k) = Some (p, kb) →
  ∃ es h, S = SAfter k es h true ∧ p = PAfter k ∧ kb = KStarted.
Proof.
  destruct S as [|k0 es h [|]]; cbn; try done. case_decide; [|done]. subst.
  intros H. injection H as <- <-. by eexists _, _.
Qed.

Section job_step.
Context (S : system) (hist : history) (s : app).
Context (Hwf : from_caller (caller_handler S)) (HI : Inv S hist s).

Local Lemma calls_handled c g h w :
  group S c = Some (g, h) → promises s !! PHandled c = Some (Pending (static S (PHandled c))) →
  calls s ++ log_of h w =
    if decide (PHandled c = handler_site S) then log_of (caller_handler S) w else calls s.
Proof.
  intros Hg Hq. pose proof (inv_calls _ _ _ HI) as Hc.
  destruct S as [k0 g0 h0|k0 es0 h0 st0]; cbn in *.
  - destruct c as [k'|]; [|done]. case_decide; [|done]. simplify_eq.
    rewrite decide_True by done. rewrite Hq in Hc. by rewrite Hc.
  - destruct c as [|k' i]; [done|]. case_decide; [|done].
    destruct (es0 !! i) as [[]|]; try done. simplify_eq. cbn. by rewrite app_nil_r.
Qed.

Local Lemma step_then kb q v Q p :
  jobs s = (RThen kb q, v) :: Q →
  source S q = Some (p, kb) → promises s !! p = Some (Fulfilled v) →
  Inv S hist (run_job (RThen kb q, v) (set_jobs (λ _, Q) s)).
Proof.
  intros HQ Hsrc HPp.
  pose proof (then_target_pending _ _ _ HI _ _ _ _ _ HQ Hsrc HPp) as Hq.
  pose proof (inv_then _ _ _ HI _ _ _ Hsrc) as Hthen. rewrite Hq, HPp in Hthen.
  destruct q as [| |c|c| | |k|k]; try done.
  - (* the handler wrapper of onceAny *)
    destruct (source_handled _ _ _ _ Hsrc) as (g & h & Hg & -> & ->).
    destruct h as [|id ret|e]; cbn.
    + rewrite (resolve_pending _ _ (static S (PHandled c))) by done.
      eapply (Inv_then_step S hist s _ Hwf HI _ _ _ _ _ HQ Hsrc HPp None); cbn; try done.
      * intros c' g' e Hg' [= ->]. congruence.
      * eauto.
      * intros x. by rewrite insert_lookup_dec.
      * rewrite <-(calls_handled _ _ _ _ Hg Hq). cbn. by rewrite app_nil_r.
    + rewrite (resolve_pending _ _ (static S (PHandled c))) by done.
      eapply (Inv_then_step S hist s _ Hwf HI _ _ _ _ _ HQ Hsrc HPp None); cbn; try done.
      * intros c' g' e Hg' [= ->]. congruence.
      * eauto.
      * intros x. by rewrite insert_lookup_dec.
      * by rewrite <-(calls_handled _ _ _ _ Hg Hq).
    + pose proof (inv_element _ _ _ HI _ _ _ Hg) as He. rewrite Hq in He.
      destruct (group_resolve _ _ _ _ Hwf Hg) as (k & es & h0 & st & i & HS & -> & -> & Hi).
      rewrite (resolve_pending (PHandled _) _ (static S (PHandled (Nested k i)))).
      2:{ rewrite resolve_promises, decide_False by done. done. }
      rewrite (resolve_pending (PElement k i) _ (static S (PElement k i))) by done.
      eapply (Inv_then_step S hist s _ Hwf HI _ _ _ _ _ HQ Hsrc HPp
                (Some (PElement k i))); cbn; try done.
      * eauto.
      * eauto.
      * intros x. rewrite !insert_lookup_dec.
        destruct (decide (x = PHandled _)); [done|].
        destruct (decide (x = PElement k i)) as [->|Hne].
        -- by rewrite decide_True.
        -- rewrite decide_False; [done|]. congruence.
      * by rewrite <-app_assoc.
      * rewrite HS. cbn. rewrite decide_False by done. done.
  - (* the cleanup of onceAny *)
    destruct (source_cleaned _ _ _ _ Hsrc) as (g & h & Hg & -> & ->). cbn.
    set (s1 := foldl _ _ g).
    destruct (cleanup_spec (last_listener c g) g (set_jobs (λ _, Q) s))
      as (Hp1 & Hj1 & Hs1 & Hc1 & Hst1 & Hl1 & Hk1).
    fold s1 in Hp1, Hj1, Hs1, Hc1, Hst1, Hl1, Hk1. cbn in *.
    rewrite (resolve_pending _ _ (static S (PCleaned c))) by (by rewrite Hp1).
    eapply (Inv_then_step S hist s _ Hwf HI _ _ _ _ _ HQ Hsrc HPp None); cbn;
      rewrite ?Hp1, ?Hj1, ?Hs1, ?Hc1, ?Hst1; try done.
    + intros n x Hin. destruct (Hk1 _ Hin) as [?|Hrc]; [by left|right].
      unfold last_listener in Hrc. destruct (length g) as [|m]; [done|].
      injection Hrc as Hx. cbn in Hx. exists c, g, h, m. split_and!; try done.
      pose proof (inv_then _ _ _ HI (PHandled c) (PRace c) (KHandlerWrapperAny h)) as Hh.
      rewrite HPp in Hh. destruct Hh as (_ & y & Hy & _); [unfold source; by rewrite Hg|].
      pose proof (inv_race _ _ _ HI _ _ _ Hg) as Hr. rewrite Hy in Hr.
      destruct (heard_any g hist); [done|]. by destruct Hr.
    + intros x. by rewrite insert_lookup_dec.
    + rewrite decide_False; [done|]. by destruct S.
  - (* the handler wrapper of after *)
    destruct (source_after _ _ _ _ Hsrc) as (es & h & st & HS & -> & ->).
    assert (from_caller h) as Hh by (by rewrite HS in Hwf).
    pose proof (inv_calls _ _ _ HI) as Hc. rewrite HS in Hc. cbn in Hc. rewrite Hq in Hc.
    destruct h as [|id ret|e]; [| |done]; cbn.
    + rewrite (resolve_pending _ _ (static S (PAfter k))) by done.
      eapply (Inv_then_step S hist s _ Hwf HI _ _ _ _ _ HQ Hsrc HPp None); cbn; try done.
      * eauto.
      * intros x. by rewrite insert_lookup_dec.
      * rewrite HS. cbn. by rewrite decide_True.
    + rewrite (resolve_pending _ _ (static S (PAfter k))) by done.
      eapply (Inv_then_step S hist s _ Hwf HI _ _ _ _ _ HQ Hsrc HPp None); cbn; try done.
      * eauto.
      * intros x. by rewrite insert_lookup_dec.
      * rewrite HS. cbn. rewrite decide_True by done. by rewrite Hc.
  - (* start's callback *)
    destruct (source_start _ _ _ _ Hsrc) as (es & h & HS & -> & ->). cbn.
    rewrite (resolve_pending _ _ (static S (PStart k))) by done.
    eapply (Inv_then_step S hist s _ Hwf HI _ _ _ _ _ HQ Hsrc HPp None); cbn; try done.
    + eauto.
    + intros x. by rewrite insert_lookup_dec.
    + rewrite decide_False; [done|]. by rewrite HS.
    + rewrite HS. cbn. by rewrite decide_True.
Qed.

Local Lemma step_race q v Q c g h :
  jobs s = (RRace q, v) :: Q → group S c = Some (g, h) → q = PRace c →
  Inv S hist (run_job (RRace q, v) (set_jobs (λ _, Q) s)).
Proof.
  intros HQ Hg ->. cbn.
  pose proof (inv_race _ _ _ HI _ _ _ Hg) as Hr.
  assert (promises s !! PRace c = Some (Pending (static S (PRace c)))
          ∨ ∃ w, promises s !! PRace c = Some (Fulfilled w)) as [HP|[w HP]].
  { destruct (heard_any g hist); [destruct Hr as [?|[? _]]|destruct Hr]; eauto. }
  - rewrite (resolve_pending _ _ (static S (PRace c))) by done.
    eapply (Inv_race_step S hist s _ Hwf HI c g h v Q HQ Hg HP); cbn; try done.
    + intros x. by rewrite insert_lookup_dec.
    + by rewrite Hg.
  - rewrite (resolve_settled _ _ w) by done.
    eapply (Inv_pop S hist s _ Q HI HQ).
    + intros c' g' h' Hg'. unfold targets. cbn. intros [= ->]. eauto.
    + intros q p kb Hq. unfold targets. cbn. intros <-.
      by destruct (source_derived _ _ _ _ Hq).
    + by intros ????????.
Qed.

Local Lemma step_all q i v Q k es h st :
  jobs s = (RAll q i, v) :: Q → S = SAfter k es h st → q = PAll k → i < length es →
  promises s !! PElement k i = Some (Fulfilled v) →
  Inv S hist (run_job (RAll q i, v) (set_jobs (λ _, Q) s)).
Proof.
  intros HQ HS -> Hi HPe. cbn.
  destruct (inv_slots _ _ _ HI _ _ _ _ HS) as (sl & Hsl & Hlen & Hels & Hfill).
  rewrite Hsl. specialize (Hels i Hi). rewrite HPe in Hels.
  destruct Hels as [Hs|[Hs _]]; rewrite Hs.
  - eapply (Inv_pop S hist s _ Q HI HQ).
    + intros c' g' h' Hg'. unfold targets. by cbn.
    + intros q p kb Hq. unfold targets. cbn. intros <-.
      by destruct (source_derived _ _ _ _ Hq).
    + intros k' es' h' st' i' w HS' [= <- <- <-] sl' Hsl'.
      rewrite Hsl in Hsl'. injection Hsl' as <-. by rewrite Hs.
  - assert (promises s !! PAll k = Some (Pending (static S (PAll k)))) as HPa.
    { by rewrite (filled_None_lookup _ _ Hs) in Hfill. }
    eapply (Inv_all_step S hist s _ Hwf HI k es h st HS i v Q HQ sl Hsl Hs).
    + destruct (filled (<[i:=Some v]> sl)); cbn; by rewrite ?resolve_listeners.
    + intros x. destruct (filled (<[i:=Some v]> sl)) as [vs|]; [|done].
      rewrite (resolve_pending _ _ (static S (PAll k))) by done. cbn.
      by rewrite insert_lookup_dec.
    + destruct (filled (<[i:=Some v]> sl)) as [vs|]; [|by rewrite app_nil_r].
      rewrite (resolve_pending _ _ (static S (PAll k))) by done. cbn.
      by rewrite HS.
    + destruct (filled (<[i:=Some v]> sl)); cbn; by rewrite ?resolve_slots.
    + destruct (filled (<[i:=Some v]> sl)); cbn; by rewrite ?resolve_calls.
    + destruct (filled (<[i:=Some v]> sl)); cbn; by rewrite ?resolve_started.
Qed.

(** Every job keeps the run's state in line with the history. *)
Lemma Inv_step : Inv S hist (step s).
Proof.
  unfold step. destruct (jobs s) as [|[r v] Q] eqn:HQ; [done|].
  pose proof (inv_jobs _ _ _ HI r v) as Hj. rewrite HQ in Hj.
  specialize (Hj (list_elem_of_here _ _)).
  destruct r as [kb q|q|q i].
  - destruct Hj as (p & Hsrc & HPp). by eapply step_then.
  - destruct Hj as (c & g & h & Hg & Hq). by eapply step_race.
  - destruct Hj as (k & es & h & st & HS & Hq & Hi & HPe). by eapply step_all.
Qed.
End job_step.

Lemma Inv_iter_step S hist s n :
  from_caller (caller_handler S) → Inv S hist s → Inv S hist (Nat.iter n step s).
Proof.
  intros Hwf HI. induction n as [|n IH]; [done|].
  rewrite Nat.iter_succ. by apply Inv_step.
Qed.

Lemma Inv_drain S hist s :
  from_caller (caller_handler S) → Inv S hist s → Inv S hist (drain s).
Proof. apply Inv_iter_step. Qed.

Lemma Inv_run S script hist s :
  from_caller (caller_handler S) → Inv S hist s →
  Inv S (hist ++ emissions script) (run script s).
Proof.
  intros Hwf. revert hist s. induction script as [|[n args|] script IH]; intros hist s HI; cbn.
  - by rewrite app_nil_r.
  - rewrite cons_middle, app_assoc. apply IH. by apply Inv_emit.
  - apply IH. by apply Inv_drain.
Qed.

(** * The state right after the call *)

Lemma same_rest_refl s : same_rest s s.
Proof. done. Qed.

Lemma same_rest_trans s1 s2 s3 : same_rest s1 s2 → same_rest s2 s3 → same_rest s1 s3.
Proof. unfold same_rest. intros (?&?&?&?) (?&?&?&?). split_and!; congruence. Qed.

(** ** The promises made by [listen] *)

Lemma listen_fold c g s :
  ∃ s', foldl (listen c) (s, [], None) g
          = (s', PListener c <$> seq 0 (length g), last_listener c g)
    ∧ listeners s' = listeners s ++ imap (λ j n, (n, PListener c j)) g
    ∧ (∀ x, promises s' !! x =
            match x with
            | PListener c' j =>
                if decide (c' = c ∧ j < length g) then Some (Pending [])
                else promises s !! x
            | _ => promises s !! x
            end)
    ∧ same_rest s s'.
Proof.
  induction g as [|n g IH] using rev_ind.
  { exists s. cbn. split_and!; try done.
    - by rewrite app_nil_r.
    - intros [c' j| | | | | | |]; try done. rewrite decide_False; [done|]. lia. }
  destruct IH as (s1 & Hf & Hl & Hp & Hr).
  rewrite foldl_app, Hf. cbn [foldl listen]. rewrite length_fmap, length_seq.
  eexists. split; [|split_and!].
  - f_equal; [f_equal|].
    + rewrite length_app. cbn. rewrite Nat.add_1_r, seq_S, fmap_app. done.
    + unfold last_listener. rewrite length_app. cbn. by rewrite Nat.add_1_r.
  - cbn. rewrite Hl, imap_app, <-app_assoc. cbn. by rewrite Nat.add_0_r.
  - intros x. cbn. rewrite insert_lookup_dec, length_app. cbn.
    destruct (decide (x = PListener c (length g))) as [->|Hx].
    + rewrite decide_True; [done|]. split; [done|lia].
    + rewrite Hp. destruct x as [c' j| | | | | | |]; try done.
      destruct (decide (c' = c ∧ j < length g)) as [[-> ?]|Hn].
      * rewrite decide_True; [done|]. split; [done|lia].
      * rewrite decide_False; [done|]. intros [-> ?]. apply Hn. split; [done|].
        destruct (decide (j = length g)) as [->|]; [done|lia].
  - done.
Qed.

(** ** Attaching reactions *)

Lemma subscribe_spec p r rs s :
  promises s !! p = Some (Pending rs) →
  listeners (subscribe p r s) = listeners s
  ∧ (∀ x, promises (subscribe p r s) !! x =
          if decide (x = p) then Some (Pending (rs ++ [r])) else promises s !! x)
  ∧ same_rest s (subscribe p r s).
Proof.
  intros Hp. rewrite (subscribe_pending _ _ _ _ Hp). cbn. split_and!; try done.
  intros x. by rewrite insert_lookup_dec.
Qed.

Lemma then_spec p k q rs s :
  promises s !! p = Some (Pending rs) → p ≠ q →
  listeners (then_ p k q s) = listeners s
  ∧ (∀ x, promises (then_ p k q s) !! x =
          if decide (x = p) then Some (Pending (rs ++ [RThen k q]))
          else if decide (x = q) then Some (Pending [])
          else promises s !! x)
  ∧ same_rest s (then_ p k q s).
Proof.
  intros Hp Hpq. unfold then_.
  destruct (subscribe_spec p (RThen k q) rs (new_promise q s)) as (Hl & HP & Hr).
  { cbn. by rewrite lookup_insert_ne. }
  split_and!; try done. intros x. rewrite HP. cbn. by rewrite insert_lookup_dec.
Qed.

Lemma race_fold r ps s :
  NoDup ps → (∀ p, p ∈ ps → promises s !! p = Some (Pending [])) →
  let s' := foldl (λ s p, subscribe p (RRace r) s) s ps in
  listeners s' = listeners s
  ∧ (∀ x, promises s' !! x =
          if decide (x ∈ ps) then Some (Pending [RRace r]) else promises s !! x)
  ∧ same_rest s s'.
Proof.
  revert s. induction ps as [|p ps IH]; intros s Hnd Hps; cbn [foldl].
  { split_and!; try done. }
  apply list.NoDup_cons in Hnd as [Hp Hnd].
  destruct (subscribe_spec p (RRace r) [] s) as (Hl & HP & Hr); [apply Hps; left|].
  destruct (IH (subscribe p (RRace r) s)) as (Hl' & HP' & Hr'); [done| |].
  { intros p' Hp'. rewrite HP, decide_False by (intros ->; done). apply Hps. by right. }
  split_and!.
  - congruence.
  - intros x. rewrite HP', HP.
    destruct (decide (x = p)) as [->|Hx].
    + rewrite decide_False by done. rewrite decide_True by left. done.
    + destruct (decide (x ∈ ps)).
      * rewrite decide_True by (by right). done.
      * rewrite decide_False; [done|]. by intros [?|?]%elem_of_cons.
  - by eapply same_rest_trans.
Qed.

(** ** The promises of one [onceAny] *)

Lemma onceAny_spec c g h s :
  let s' := (onceAny c (Names g) h s).2 in
  (onceAny c (Names g) h s).1 = PCleaned c
  ∧ listeners s' = listeners s ++ imap (λ j n, (n, PListener c j)) g
  ∧ (∀ x, promises s' !! x =
          match any_wiring c g h x with Some ps => Some ps | None => promises s !! x end)
  ∧ same_rest s s'.
Proof.
  unfold onceAny. destruct (listen_fold c g s) as (s1 & -> & Hl1 & Hp1 & Hr1).
  set (ps := PListener c <$> seq 0 (length g)).
  assert (∀ x, x ∈ ps ↔ ∃ j, x = PListener c j ∧ j < length g) as Hps.
  { intros x. unfold ps. rewrite list_elem_of_fmap. setoid_rewrite elem_of_seq.
    split; intros (j & ? & ?); exists j; split; try done; lia. }
  destruct (race_fold (PRace c) ps (new_promise (PRace c) s1)) as (Hl2 & Hp2 & Hr2).
  { unfold ps. apply NoDup_fmap_2; [|apply NoDup_seq]. by intros ?? [=]. }
  { intros p (j & -> & Hj)%Hps. cbn. rewrite lookup_insert_ne by done.
    rewrite Hp1, decide_True; done. }
  fold (race (PRace c) ps s1) in Hl2, Hp2, Hr2.
  set (s2 := race (PRace c) ps s1) in *.
  destruct (then_spec (PRace c) (KHandlerWrapperAny h) (PHandled c) [] s2)
    as (Hl3 & Hp3 & Hr3); [|done|].
  { rewrite Hp2, decide_False; [cbn; apply lookup_insert_eq|].
    intros (j & ? & _)%Hps. done. }
  set (s3 := then_ (PRace c) _ _ s2) in *.
  destruct (then_spec (PHandled c) (KCleanup g (last_listener c g)) (PCleaned c) [] s3)
    as (Hl4 & Hp4 & Hr4); [|done|].
  { rewrite Hp3, decide_False, decide_True by done. done. }
  cbn [fst snd]. split_and!; try done.
  - rewrite Hl4, Hl3, Hl2. exact Hl1.
  - intros x. rewrite Hp4, Hp3, Hp2. cbn. rewrite insert_lookup_dec, Hp1.
    clear Hp1 Hp2 Hp3 Hp4.
    assert (x ∈ ps → ∃ j, x = PListener c j ∧ j < length g) as Hps1 by apply Hps.
    assert (∀ j, j < length g → PListener c j ∈ ps) as Hps2 by (intros; apply Hps; eauto).
    clearbody ps. clear Hps.
    destruct x as [c' j|c'|c'|c'| | | |]; cbn; repeat case_decide;
      try done; try congruence;
      try (by destruct Hps1 as (?&?&?); [done|]);
      try (by destruct_and?; simplify_eq; exfalso; eauto).
    destruct Hps1 as (?&?&?); [done|]. simplify_eq. tauto.
  - eapply same_rest_trans; [|done]. eapply same_rest_trans; [|done].
    eapply same_rest_trans; [|done]. eapply same_rest_trans; [done|]. done.
Qed.

(** ** The promises made by [await] *)

Lemma any_wiring_owner c g h x ps :
  any_wiring c g h x = Some ps →
  match x with
  | PListener c' _ | PRace c' | PHandled c' | PCleaned c' => c' = c
  | _ => False
  end.
Proof. destruct x; cbn; try done; case_decide; naive_solver. Qed.

Lemma nested_wiring_snoc_old k es e i x :
  i < length es → nested_wiring k (es ++ [e]) i x = nested_wiring k es i x.
Proof. intros Hi. unfold nested_wiring. by rewrite lookup_app_l. Qed.

Lemma nested_wiring_snoc_new k es e x :
  nested_wiring k (es ++ [e]) (length es) x =
    match e with
    | AnyOf g => any_wiring (Nested k (length es)) g (HResolve (PElement k (length es))) x
    | Name _ => None
    end.
Proof. unfold nested_wiring. rewrite lookup_app_r, Nat.sub_diag by done. by destruct e. Qed.

Lemma nested_wiring_beyond k es i x : length es ≤ i → nested_wiring k es i x = None.
Proof. intros Hi. unfold nested_wiring. by rewrite lookup_ge_None_2. Qed.

Lemma await_wiring_nil k x : await_wiring k [] x = None.
Proof.
  destruct x as [[]?|[]|[]|[]|?? | | |]; cbn; try done; repeat case_decide; try done.
  destruct_and?. cbn in *. lia.
Qed.

Lemma await_fold k es s :
  ∃ s', foldl (await k) (s, []) es = (s', PElement k <$> seq 0 (length es))
    ∧ listeners s' = listeners s ++ concat (imap (entries k) es)
    ∧ (∀ x, promises s' !! x =
            match await_wiring k es x with Some ps => Some ps | None => promises s !! x end)
    ∧ same_rest s s'.
Proof.
  induction es as [|e es IH] using rev_ind.
  { exists s. cbn. split_and!; try done.
    - by rewrite app_nil_r.
    - intros x. destruct x as [[]?|[]|[]|[]|?? | | |]; cbn; try done;
        repeat case_decide; try done; try lia.
      all: by rewrite nested_wiring_beyond by (cbn; lia). }
  destruct IH as (s1 & Hf & Hl & Hp & Hr).
  rewrite foldl_app, Hf. cbn [foldl await]. rewrite length_fmap, length_seq.
  set (p := PElement k (length es)).
  set (s2 := new_promise p s1).
  assert (∀ x, promises s2 !! x =
               if decide (x = p) then Some (Pending []) else promises s1 !! x) as Hp2.
  { intros x. unfold s2. cbn. by rewrite insert_lookup_dec. }
  eexists. split; [|split_and!].
  - f_equal. rewrite (length_app es [e]). cbn [length].
    by rewrite Nat.add_1_r, seq_S, fmap_app.
  - rewrite imap_app, concat_app, app_assoc, <-Hl. cbn [imap concat].
    rewrite app_nil_r, Nat.add_0_r. destruct e as [n|g]; cbn [entries]; [done|].
    destruct (onceAny_spec (Nested k (length es)) g (HResolve p) s2) as (_ & -> & _).
    done.
  - intros x.
    assert (promises
              match e with
              | Name n => once n p s2
              | AnyOf ns => (onceAny (Nested k (length es)) (Names ns) (HResolve p) s2).2
              end !! x =
            match (match e with
                   | AnyOf g => any_wiring (Nested k (length es)) g (HResolve p) x
                   | Name _ => None
                   end) with
            | Some ps => Some ps
            | None => promises s2 !! x
            end) as ->.
    { destruct e as [n|g]; [done|].
      by destruct (onceAny_spec (Nested k (length es)) g (HResolve p) s2) as (_ & _ & -> & _). }
    rewrite Hp2, Hp. clear Hp Hp2 Hf.
    destruct x as [[k'|k' i] j|[k'|k' i]|[k'|k' i]|[k'|k' i]|k' i| | |].
    all: try (destruct e; cbn; by repeat case_decide).
    all: try (cbn [await_wiring]; rewrite (decide_False (P:=_ = p)) by done;
      destruct (decide (k' = k)) as [->|Hk];
        [|destruct e as [|g]; [done|];
          by destruct (any_wiring _ g _ _) eqn:Hw;
            [apply any_wiring_owner in Hw; simplify_eq|] ];
      destruct (decide (i = length es)) as [->|Hi];
        [rewrite nested_wiring_snoc_new, (nested_wiring_beyond k es) by done;
          destruct e as [|g]; [done|]; by destruct (any_wiring _ g _ _)
        |destruct (decide (i < length es));
          [rewrite nested_wiring_snoc_old by done
          |rewrite !nested_wiring_beyond by (rewrite ?length_app; cbn; lia)];
          destruct e as [|g]; try done;
          by destruct (any_wiring _ g _ _) eqn:Hw;
            [apply any_wiring_owner in Hw; simplify_eq|] ]).
    { destruct e as [|g]; cbn; repeat case_decide; try done; destruct_and?; done. }
    cbn [await_wiring].
    assert (match e with
            | Name _ => None
            | AnyOf g => any_wiring (Nested k (length es)) g (HResolve p) (PElement k' i)
            end = None) as -> by (by destruct e).
    rewrite length_app. cbn [length].
    unfold p. repeat case_decide; try done; simplify_eq; try lia.
    all: destruct_and?; exfalso; eauto with lia.
  - eapply same_rest_trans; [done|]. destruct e as [n|g]; [done|].
    by destruct (onceAny_spec (Nested k (length es)) g (HResolve p) s2) as (_ & _ & _ & ?).
Qed.

(** ** [Promise.all] over the element promises *)

Lemma all_fold q k n s :
  (∀ i, i < n → promises s !! PElement k i = Some (Pending [])) →
  let s' := foldl (λ s ip, subscribe ip.2 (RAll q ip.1) s) s
                  (imap pair (PElement k <$> seq 0 n)) in
  listeners s' = listeners s
  ∧ (∀ x, promises s' !! x =
          match x with
          | PElement k' i =>
              if decide (k' = k ∧ i < n) then Some (Pending [RAll q i])
              else promises s !! x
          | _ => promises s !! x
          end)
  ∧ same_rest s s'.
Proof.
  induction n as [|n IH]; intros Hps.
  { cbn. split_and!; try done. intros [| | | |k' i| | |]; try done.
    rewrite decide_False; [done|]. lia. }
  rewrite seq_S, fmap_app, imap_app, foldl_app. cbn [fmap list_fmap imap foldl Nat.add].
  rewrite length_fmap, length_seq, Nat.add_0_r. cbn [fst snd].
  destruct IH as (Hl & Hp & Hr); [intros i Hi; apply Hps; lia|].
  set (s1 := foldl _ s _) in *.
  destruct (subscribe_spec (PElement k n) (RAll q n) [] s1) as (Hl' & Hp' & Hr').
  { rewrite Hp, decide_False by lia. apply Hps. lia. }
  split_and!.
  - congruence.
  - intros x. rewrite Hp', Hp. clear Hp Hp'.
    destruct x as [| | | |k' i| | |]; try by rewrite decide_False.
    repeat case_decide; try done; simplify_eq; try lia.
    all: destruct_and?; try done; try (exfalso; eauto with lia).
  - by eapply same_rest_trans.
Qed.

(** ** The promises of the whole run *)

Lemma onceAny_called k g h s :
  called (SAny k g h) s (onceAny (Top k) (Names g) h s).2.
Proof.
  destruct (onceAny_spec (Top k) g h s) as (_ & Hl & Hp & Hj & Hs & Hc & Hst).
  split; try done. cbn. by rewrite Hj, app_nil_r.
Qed.

Lemma after_fold_called k es h s :
  let s' := (after k (Events es) h s).2 in
  (after k (Events es) h s).1 = PAfter k ∧ called (SAfter k es h false) s s'.
Proof.
  unfold after. destruct (await_fold k es s) as (s1 & -> & Hl1 & Hp1 & Hj1 & Hs1 & Hc1 & Hst1).
  cbn [fst snd]. split; [done|].
  unfold all. rewrite length_fmap, length_seq.
  set (s2 := set_slots <[PAll k := replicate (length es) None]> (new_promise (PAll k) s1)).
  destruct (all_fold (PAll k) k (length es) s2) as (Hl3 & Hp3 & Hj3 & Hs3 & Hc3 & Hst3).
  { intros i Hi. unfold s2. cbn. rewrite lookup_insert_ne by done.
    rewrite Hp1. cbn. rewrite decide_True; done. }
  set (s3 := foldl _ s2 _) in *.
  assert (promises s3 !! PAll k = Some (Pending [])) as HPa.
  { rewrite Hp3. unfold s2. cbn. apply lookup_insert_eq. }
  assert (∀ x, x ≠ PAll k → x ≠ PAfter k → (∀ i, x ≠ PElement k i ∨ length es ≤ i) →
               promises s3 !! x = promises s1 !! x) as Hother.
  { intros x H1 H2 H3. rewrite Hp3. unfold s2.
    destruct x as [| | | |k' i| | |]; cbn; rewrite ?lookup_insert_ne by done; try done.
    rewrite decide_False; [done|]. intros [-> ?]. destruct (H3 i); [done|lia]. }
  destruct (decide ((PElement k <$> seq 0 (length es)) = [])) as [Hnil|Hnil].
  - (* no element: [Promise.all] is resolved at once *)
    assert (es = []) as ->.
    { apply (f_equal length) in Hnil. rewrite length_fmap, length_seq in Hnil.
      by destruct es. }
    rewrite (resolve_pending _ _ []) by done. unfold then_.
    rewrite (subscribe_settled _ _ (VArr [])); [|cbn; rewrite lookup_insert_ne by done;
                                                  apply lookup_insert_eq].
    split; cbn.
    + cbn in Hl3, Hl1. rewrite app_nil_r in *. congruence.
    + intros x. rewrite !insert_lookup_dec. unfold s3, s2. cbn.
      rewrite Hp1, await_wiring_nil. clear.
      destruct x as [[]?|[]|[]|[]|k' i|k'|k'|k']; cbn; rewrite ?await_wiring_nil;
        repeat case_decide; try done; simplify_eq; try lia; destruct_and?; try done;
        cbn in *; lia.
    + unfold s3, s2 in *. cbn in *. rewrite app_nil_r. congruence.
    + unfold s3, s2 in *. cbn in *. apply lookup_insert_eq.
    + unfold s3, s2 in *. cbn in *. congruence.
    + unfold s3, s2 in *. cbn in *. congruence.
  - assert (es ≠ []) as Hes by (intros ->; done).
    destruct (then_spec (PAll k) (KHandlerWrapperAll h) (PAfter k) [] s3)
      as (Hl4 & Hp4 & Hj4 & Hs4 & Hc4 & Hst4); [done|done|].
    split.
    + rewrite Hl4, Hl3. exact Hl1.
    + intros x. rewrite Hp4. clear Hp4.
      destruct (decide (x = PAll k)) as [->|H1].
      { cbn. rewrite decide_True by done. by rewrite decide_False. }
      destruct (decide (x = PAfter k)) as [->|H2].
      { cbn. by rewrite decide_True. }
      destruct x as [c j|c|c|c|k' i|k'|k'|k'].
      1-4,6-8: rewrite Hother, Hp1 by (try done; intros; by left); cbn;
        repeat case_decide; try done; simplify_eq; try (destruct_and?; done).
      rewrite Hp3. unfold s2. cbn. rewrite lookup_insert_ne by done. rewrite Hp1. cbn.
      repeat case_decide; try done.
    + rewrite Hj4, Hj3. unfold s2. cbn. rewrite Hj1. destruct es; [done|].
      by rewrite app_nil_r.
    + rewrite Hs4, Hs3. unfold s2. cbn. apply lookup_insert_eq.
    + rewrite Hc4, Hc3. unfold s2. cbn. by rewrite Hc1.
    + rewrite Hst4, Hst3. unfold s2. cbn. by rewrite Hst1.
Qed.

Lemma start_called k s :
  (start k s).1 = PStart k
  ∧ called (SAfter k [Name "trails:ready"%string] NOOP true) s (start k s).2.
Proof.
  unfold start.
  destruct (after_fold_called k [Name "trails:ready"%string] NOOP s) as [H1 H2].
  change (after k (OneEvent "trails:ready") NOOP s)
    with (after k (Events [Name "trails:ready"%string]) NOOP s).
  destruct (after k (Events [Name "trails:ready"%string]) NOOP s) as [p s1].
  cbn [fst snd] in *. subst p. split; [done|].
  destruct H2 as [Hl Hp Hj Hs Hc Hst].
  destruct (then_spec (PAfter k) KStarted (PStart k) [] s1) as (Hl' & Hp' & Hj' & Hs' & Hc' & Hst').
  { rewrite Hp. cbn. by rewrite decide_True. }
  { done. }
  split.
  - by rewrite Hl', Hl.
  - intros x. rewrite Hp', Hp. clear.
    destruct x as [[]?|[]|[]|[]|k' i|k'|k'|k']; cbn;
      repeat case_decide; try done; simplify_eq; destruct_and?; try done;
      try (exfalso; eauto; fail).
  - by rewrite Hj', Hj.
  - by rewrite Hs'.
  - by rewrite Hc', Hc.
  - by rewrite Hst', Hst.
Qed.

(** ** The call establishes the invariant *)

Lemma initial_group S c g h :
  group S c = Some (g, h) →
  (∀ j, j < length g → initial S (PListener c j) = Some (Pending (static S (PListener c j))))
  ∧ initial S (PRace c) = Some (Pending (static S (PRace c)))
  ∧ initial S (PHandled c) = Some (Pending (static S (PHandled c)))
  ∧ initial S (PCleaned c) = Some (Pending (static S (PCleaned c))).
Proof.
  intros Hg. cbn [static]. rewrite Hg.
  destruct S as [k g0 h0|k es h0 st], c as [k'|k' i]; cbn in Hg |- *; try done.
  - case_decide; [|done]. simplify_eq. split_and!; try by rewrite decide_True.
    intros j Hj. by rewrite decide_True.
  - case_decide; [|done]. subst k'. rewrite ?decide_True by done.
    unfold nested_wiring. destruct (es !! i) as [[n|g']|]; simplify_eq. cbn.
    split_and!; try by rewrite decide_True. intros j Hj. by rewrite decide_True.
Qed.

Lemma elem_of_concat {A} (x : A) (ls : list (list A)) :
  x ∈ concat ls ↔ ∃ l, x ∈ l ∧ l ∈ ls.
Proof.
  rewrite list_elem_of_In, in_concat. setoid_rewrite list_elem_of_In. naive_solver.
Qed.

Lemma initial_listeners_elem S n p :
  (n, p) ∈ initial_listeners S ↔
    (∃ i, p = PElement (run_of S) i ∧ plain S i = Some n)
    ∨ (∃ c g h j, group S c = Some (g, h) ∧ p = PListener c j ∧ g !! j = Some n).
Proof.
  destruct S as [k g h|k es h st]; cbn.
  - rewrite list_elem_of_lookup. setoid_rewrite list_lookup_imap. split.
    + intros (j & Hj). right. destruct (g !! j) as [m|] eqn:Hm; [|done]. cbn in Hj.
      simplify_eq. exists (Top k), g, h, j. cbn. by rewrite decide_True.
    + intros [(i & _ & ?)|(c & g' & h' & j & Hg & -> & Hj)]; [done|].
      destruct c as [k'|]; [|done]. case_decide; [|done]. simplify_eq.
      exists j. by rewrite Hj.
  - rewrite elem_of_concat. setoid_rewrite (list_elem_of_lookup (imap _ _)).
    setoid_rewrite list_lookup_imap. split.
    + intros (l & Hin & i & Hi). destruct (es !! i) as [[m|g]|] eqn:He; [| |done];
        cbn in Hi; simplify_eq.
      * left. apply list_elem_of_singleton in Hin. simplify_eq. exists i. by rewrite He.
      * right. apply list_elem_of_lookup in Hin as [j Hj]. rewrite list_lookup_imap in Hj.
        destruct (g !! j) as [m|] eqn:Hm; [|done]. cbn in Hj. simplify_eq.
        exists (Nested k i), g, (HResolve (PElement k i)), j.
        rewrite decide_True by done. by rewrite He.
    + intros [(i & -> & Hi)|(c & g & h' & j & Hg & -> & Hj)].
      * destruct (es !! i) as [[m|g]|] eqn:He; simplify_eq.
        exists [(n, PElement k i)]. split; [left|]. exists i. by rewrite He.
      * destruct c as [|k' i]; [done|]. case_decide; [|done]. subst k'.
        destruct (es !! i) as [[m|g']|] eqn:He; simplify_eq.
        exists (entries k i (AnyOf g)). split.
        -- cbn. apply list_elem_of_lookup. exists j. by rewrite list_lookup_imap, Hj.
        -- exists i. by rewrite He.
Qed.

Lemma imap_snd {A B} (f : nat → B) (l : list A) :
  (imap (λ j n, (n, f j)) l).*2 = f <$> seq 0 (length l).
Proof.
  apply list_eq. intros i. rewrite !list_lookup_fmap, list_lookup_imap.
  destruct (l !! i) as [x|] eqn:Hx; cbn.
  - rewrite lookup_seq_lt by (by eapply lookup_lt_Some). done.
  - rewrite lookup_seq_ge; [done|]. by apply lookup_ge_None.
Qed.

Lemma entries_pids k i e x :
  x ∈ (entries k i e).*2 → x = PElement k i ∨ ∃ j, x = PListener (Nested k i) j.
Proof.
  destruct e as [n|g]; cbn.
  - intros ->%list_elem_of_singleton. by left.
  - rewrite imap_snd. intros (j & -> & _)%list_elem_of_fmap. eauto.
Qed.

Lemma entries_nodup k i e : NoDup (entries k i e).*2.
Proof.
  destruct e as [n|g]; cbn.
  - apply NoDup_singleton.
  - rewrite imap_snd. apply NoDup_fmap_2; [|apply NoDup_seq]. by intros ?? [=].
Qed.

Lemma initial_listeners_nodup S : NoDup (initial_listeners S).*2.
Proof.
  destruct S as [k g h|k es h st]; cbn.
  - rewrite imap_snd. apply NoDup_fmap_2; [|apply NoDup_seq]. by intros ?? [=].
  - assert (NoDup (concat (imap (entries k) es)).*2
            ∧ ∀ x, x ∈ (concat (imap (entries k) es)).*2 →
                   ∃ i, i < length es ∧ (x = PElement k i ∨ ∃ j, x = PListener (Nested k i) j))
      as [? _]; [|done].
    induction es as [|e es [IH1 IH2]] using rev_ind.
    { cbn. split; [constructor|]. by intros ? ?%elem_of_nil. }
    rewrite imap_app, concat_app, fmap_app. cbn [imap concat].
    rewrite app_nil_r, Nat.add_0_r. split.
    + apply list.NoDup_app. split_and!; [done| |apply entries_nodup].
      intros x (i & Hi & Hx)%IH2 Hx'%entries_pids.
      destruct Hx as [->|[j ->]], Hx' as [?|[j' ?]]; simplify_eq; lia.
    + intros x [Hx|Hx]%elem_of_app.
      * destruct (IH2 x Hx) as (i & Hi & ?). exists i. rewrite length_app. cbn.
        split; [lia|done].
      * exists (length es). rewrite length_app. cbn. split; [lia|].
        by apply entries_pids in Hx.
Qed.

Lemma filled_replicate n :
  filled (replicate n None) = if decide (n = 0) then Some [] else None.
Proof.
  destruct n as [|n]; [done|]. rewrite decide_False by done.
  apply (filled_None_lookup _ 0). done.
Qed.

Lemma initial_jobs_nil S q :
  (∀ k, q ≠ PAfter k) → filter (targets q) (initial_jobs S) = [].
Proof.
  intros Hq. destruct S as [|k [|e es] h st]; try done.
  cbn [initial_jobs]. rewrite filter_cons_False; [done|].
  unfold targets. cbn. intros ?. by eapply Hq.
Qed.

Lemma Inv_initial S s s' :
  from_caller (caller_handler S) → idle s → called S s s' → Inv S [] s'.
Proof.
  intros Hwf Hidle Hc.
  assert (∀ x, promises s' !! x = initial S x) as HP.
  { intros x. rewrite (called_promises _ _ _ Hc). destruct Hidle as (_ & -> & _).
    rewrite lookup_empty. by destruct (initial S x). }
  assert (listeners s' = initial_listeners S) as HL.
  { rewrite (called_listeners _ _ _ Hc). by destruct Hidle as (-> & _). }
  assert (jobs s' = initial_jobs S) as HJ.
  { rewrite (called_jobs _ _ _ Hc). by destruct Hidle as (_ & _ & -> & _). }
  assert (calls s' = []) as HC.
  { rewrite (called_calls _ _ _ Hc). by destruct Hidle as (_ & _ & _ & -> & _). }
  assert (started s' = false) as HS.
  { rewrite (called_started _ _ _ Hc). by destruct Hidle as (_ & _ & _ & _ & ->). }
  pose proof (called_slots _ _ _ Hc) as Hsl. clear Hc Hidle.
  split.
  - rewrite HL. apply initial_listeners_nodup.
  - intros n p Hin. rewrite HL in Hin.
    apply initial_listeners_elem in Hin as Hcl. split; [|done].
    rewrite HP.
    destruct Hcl as [(i & -> & Hi)|(c & g & h & j & Hg & -> & Hj)].
    + destruct S as [|k es h st]; [done|]. cbn in *.
      rewrite decide_True; [done|]. split; [done|].
      destruct (es !! i) eqn:He; [|done]. by eapply lookup_lt_Some.
    + destruct (initial_group _ _ _ _ Hg) as (H & _). apply H. by eapply lookup_lt_Some.
  - intros i n Hi. cbn. rewrite HL. apply initial_listeners_elem. left. eauto.
  - intros c g h j n Hg Hj _. rewrite HL. apply initial_listeners_elem.
    right. by exists c, g, h, j.
  - intros c g h Hg. cbn. destruct (initial_group _ _ _ _ Hg) as (_ & H & _).
    rewrite HP, HJ. split; [done|]. by apply initial_jobs_nil.
  - intros q p kb Hq. rewrite !HP, HJ.
    destruct q as [| |c|c| | |k|k]; try done.
    + destruct (source_handled _ _ _ _ Hq) as (g & h & Hg & -> & ->).
      destruct (initial_group _ _ _ _ Hg) as (_ & H1 & H2 & _).
      rewrite H1, H2. split; [done|]. by apply initial_jobs_nil.
    + destruct (source_cleaned _ _ _ _ Hq) as (g & h & Hg & -> & ->).
      destruct (initial_group _ _ _ _ Hg) as (_ & _ & H2 & H3).
      rewrite H2, H3. split; [done|]. by apply initial_jobs_nil.
    + destruct (source_after _ _ _ _ Hq) as (es & h & st & -> & -> & ->). cbn.
      rewrite !decide_True by done. split; [by destruct st|].
      destruct es as [|e es]; cbn [initial_jobs]; [|by rewrite decide_False].
      rewrite decide_True by done. by rewrite filter_cons_True.
    + destruct (source_start _ _ _ _ Hq) as (es & h & -> & -> & ->).
      rewrite initial_jobs_nil by done. cbn.
      rewrite !decide_True by done. done.
  - intros c g e Hg. rewrite !HP.
    destruct (initial_group _ _ _ _ Hg) as (_ & _ & -> & _).
    destruct (group_resolve _ _ _ _ Hwf Hg) as (k & es & h & st & i & -> & -> & -> & Hi).
    cbn. rewrite decide_True; [done|]. split; [done|]. by eapply lookup_lt_Some.
  - rewrite HC, HP.
    destruct S as [k g h|k es h st]; cbn.
    + destruct (initial_group (SAny k g h) (Top k) g h) as (_ & _ & H & _).
      { cbn. by rewrite decide_True. }
      cbn in H. by rewrite H.
    + by rewrite decide_True.
  - rewrite HS, HP.
    destruct S as [k g h|k es h st]; cbn; [done|]. by case_decide.
  - intros k es h st HS'. rewrite HS' in Hsl.
    exists (replicate (length es) None). split_and!; [done|apply length_replicate| |].
    + intros i Hi. rewrite HP, HS'. cbn. rewrite decide_True by done.
      by apply lookup_replicate_2.
    + rewrite filled_replicate, HP, HS'. cbn [initial].
      rewrite (decide_True (P := k = k)) by done.
      destruct es; cbn; [done|]. by rewrite decide_False.
  - intros r v Hin. rewrite HJ in Hin.
    destruct S as [|k [|e es] h st] eqn:HS'; cbn in Hin; try by apply elem_of_nil in Hin.
    apply list_elem_of_singleton in Hin. injection Hin as -> ->.
    exists (PAll k). split; [cbn; by rewrite decide_True|].
    rewrite HP. cbn. by rewrite decide_True.
Qed.

(** * The run once the job queue is empty *)

Lemma quiet_race S hist s c g h :
  Inv S hist s → jobs s = [] → group S c = Some (g, h) →
  promises s !! PRace c =
    Some (match heard_any g hist with
          | Some v => Fulfilled v
          | None => Pending (static S (PRace c))
          end).
Proof.
  intros HI HQ Hg. pose proof (inv_race _ _ _ HI _ _ _ Hg) as H.
  destruct (heard_any g hist) as [v|].
  - destruct H as [H|[_ H]]; [done|]. by rewrite HQ in H.
  - by destruct H.
Qed.

Lemma quiet_then S hist s q p kb :
  Inv S hist s → jobs s = [] → source S q = Some (p, kb) →
  promises s !! q =
    Some (match promises s !! p with
          | Some (Fulfilled v) => Fulfilled (result kb v)
          | _ => Pending (static S q)
          end).
Proof.
  intros HI HQ Hq. pose proof (inv_then _ _ _ HI _ _ _ Hq) as H.
  destruct (promises s !! q) as [[rs|w]|]; [| |done].
  - destruct H as [-> H]. destruct (promises s !! p) as [[rs'|v]|]; [done| |done].
    by rewrite HQ in H.
  - destruct H as [_ (v & -> & ->)]. done.
Qed.

Lemma quiet_handled S hist s c g h :
  Inv S hist s → jobs s = [] → group S c = Some (g, h) →
  promises s !! PHandled c =
    Some (match heard_any g hist with
          | Some v => Fulfilled (VArr [v])
          | None => Pending (static S (PHandled c))
          end).
Proof.
  intros HI HQ Hg.
  rewrite (quiet_then S hist s (PHandled c) (PRace c) (KHandlerWrapperAny h)); [|done..|].
  - rewrite (quiet_race S hist s c g h) by done. by destruct (heard_any g hist).
  - cbn. by rewrite Hg.
Qed.

Lemma quiet_cleaned S hist s c g h :
  Inv S hist s → jobs s = [] → group S c = Some (g, h) →
  promises s !! PCleaned c =
    Some (match heard_any g hist with
          | Some v => Fulfilled (VArr [v])
          | None => Pending []
          end).
Proof.
  intros HI HQ Hg.
  rewrite (quiet_then S hist s (PCleaned c) (PHandled c) (KCleanup g (last_listener c g)));
    [|done..|].
  - rewrite (quiet_handled S hist s c g h) by done. by destruct (heard_any g hist).
  - cbn. by rewrite Hg.
Qed.

Lemma quiet_element hist s k es h st i e :
  from_caller h → Inv (SAfter k es h st) hist s → jobs s = [] → es !! i = Some e →
  promises s !! PElement k i =
    Some (match captured hist e with
          | Some v => Fulfilled v
          | None => Pending [RAll (PAll k) i]
          end).
Proof.
  intros Hwf HI HQ He. destruct e as [n|g]; cbn [captured].
  - assert (plain (SAfter k es h st) i = Some n) as Hp by (cbn; by rewrite He).
    pose proof (inv_plain _ _ _ HI _ _ Hp) as H. cbn [run_of] in H.
    destruct (heard_name n hist) as [v|]; [done|].
    by destruct (inv_listener _ _ _ HI _ _ H) as [-> _].
  - assert (group (SAfter k es h st) (Nested k i) = Some (g, HResolve (PElement k i))) as Hg.
    { cbn. rewrite decide_True by done. by rewrite He. }
    pose proof (inv_element _ _ _ HI _ _ _ Hg) as H.
    rewrite (quiet_handled _ hist s _ g _ HI HQ Hg) in H.
    by destruct (heard_any g hist).
Qed.

Lemma filled_fmap {A} (f : A → option value) (l : list A) : filled (f <$> l) = mapM f l.
Proof.
  unfold filled. induction l as [|x l IH]; [done|].
  cbn. destruct (f x); cbn; [|done]. cbn in IH. by rewrite IH.
Qed.

Lemma quiet_slots hist s k es h st sl :
  from_caller h → Inv (SAfter k es h st) hist s → jobs s = [] →
  slots s !! PAll k = Some sl → sl = captured hist <$> es.
Proof.
  intros Hwf HI HQ Hsl.
  destruct (inv_slots _ _ _ HI _ _ _ _ eq_refl) as (sl' & Hsl' & Hlen & Hel & _).
  assert (sl' = sl) as -> by congruence.
  apply list_eq. intros i. rewrite list_lookup_fmap.
  destruct (es !! i) as [e|] eqn:He; cbn.
  - pose proof (Hel i (lookup_lt_Some _ _ _ He)) as H.
    rewrite (quiet_element hist s k es h st i e) in H by done.
    destruct (captured hist e) as [v|]; [|done].
    destruct H as [H|[_ H]]; [done|]. rewrite HQ in H. by apply elem_of_nil in H.
  - apply lookup_ge_None. rewrite Hlen. by apply lookup_ge_None.
Qed.

Lemma quiet_all hist s k es h st :
  from_caller h → Inv (SAfter k es h st) hist s → jobs s = [] →
  promises s !! PAll k =
    Some (match mapM (captured hist) es with
          | Some vs => Fulfilled (VArr vs)
          | None => Pending [RThen (KHandlerWrapperAll h) (PAfter k)]
          end).
Proof.
  intros Hwf HI HQ.
  destruct (inv_slots _ _ _ HI _ _ _ _ eq_refl) as (sl & Hsl & _ & _ & H).
  rewrite (quiet_slots hist s k es h st sl), filled_fmap in H by done.
  by destruct (mapM (captured hist) es).
Qed.

Lemma quiet_after hist s k es h st :
  from_caller h → Inv (SAfter k es h st) hist s → jobs s = [] →
  promises s !! PAfter k =
    Some (match mapM (captured hist) es with
          | Some vs => Fulfilled (VArr vs)
          | None => Pending (if st then [RThen KStarted (PStart k)] else [])
          end).
Proof.
  intros Hwf HI HQ.
  rewrite (quiet_then (SAfter k es h st) hist s (PAfter k) (PAll k) (KHandlerWrapperAll h)); [|done..|].
  - rewrite (quiet_all hist s k es h st) by done.
    destruct (mapM (captured hist) es); [done|]. by destruct st.
  - cbn. by rewrite decide_True.
Qed.

Lemma quiet_start hist s k es h :
  from_caller h → Inv (SAfter k es h true) hist s → jobs s = [] →
  promises s !! PStart k =
    Some (match mapM (captured hist) es with
          | Some vs => Fulfilled VApp
          | None => Pending []
          end).
Proof.
  intros Hwf HI HQ.
  rewrite (quiet_then (SAfter k es h true) hist s (PStart k) (PAfter k) KStarted); [|done..|].
  - rewrite (quiet_after hist s k es h true) by done.
    by destruct (mapM (captured hist) es).
  - cbn. by rewrite decide_True.
Qed.

(** * The three entry points, from the call to a quiet queue *)

Lemma idle_set_ncalls n s : idle s → idle (set_ncalls n s).
Proof. done. Qed.

Lemma onceAny_signal events h s : (call_onceAny events h s).1 = PCleaned (Top (ncalls s)).
Proof.
  unfold call_onceAny, onceAny.
  by destruct (foldl _ _ _) as [[? ?] ?].
Qed.

Lemma onceAny_Inv events h s script :
  from_caller h → idle s →
  Inv (SAny (ncalls s) (names events) h) (emissions script)
      (drain (run script (call_onceAny events h s).2)).
Proof.
  intros Hwf Hidle. apply Inv_drain; [done|].
  apply (Inv_run _ script []); [done|].
  eapply Inv_initial; [done|by apply (idle_set_ncalls (S (ncalls s)))|].
  unfold call_onceAny.
  replace (onceAny (Top (ncalls s)) events h (set_ncalls (S (ncalls s)) s))
    with (onceAny (Top (ncalls s)) (Names (names events)) h (set_ncalls (S (ncalls s)) s))
    by (by destruct events).
  apply onceAny_called.
Qed.

Lemma after_signal events h s : (call_after events h s).1 = PAfter (ncalls s).
Proof.
  unfold call_after.
  replace (after (ncalls s) events h (set_ncalls (S (ncalls s)) s))
    with (after (ncalls s) (Events (elements events)) h (set_ncalls (S (ncalls s)) s))
    by (by destruct events).
  exact (proj1 (after_fold_called _ _ _ _)).
Qed.

Lemma after_Inv events h s script :
  from_caller h → idle s →
  Inv (SAfter (ncalls s) (elements events) h false) (emissions script)
      (drain (run script (call_after events h s).2)).
Proof.
  intros Hwf Hidle. apply Inv_drain; [done|].
  apply (Inv_run _ script []); [done|].
  eapply Inv_initial; [done|by apply (idle_set_ncalls (S (ncalls s)))|].
  unfold call_after.
  replace (after (ncalls s) events h (set_ncalls (S (ncalls s)) s))
    with (after (ncalls s) (Events (elements events)) h (set_ncalls (S (ncalls s)) s))
    by (by destruct events).
  exact (proj2 (after_fold_called _ _ _ _)).
Qed.

Lemma start_signal s : (call_start s).1 = PStart (ncalls s).
Proof. unfold call_start. exact (proj1 (start_called _ _)). Qed.

Lemma start_Inv_run s script :
  idle s →
  Inv (SAfter (ncalls s) [Name "trails:ready"%string] NOOP true) (emissions script)
      (run script (call_start s).2).
Proof.
  intros Hidle. apply (Inv_run _ script []); [done|].
  eapply Inv_initial; [done|by apply (idle_set_ncalls (S (ncalls s)))|].
  unfold call_start. exact (proj2 (start_called _ _)).
Qed.

Lemma start_Inv s script :
  idle s →
  Inv (SAfter (ncalls s) [Name "trails:ready"%string] NOOP true) (emissions script)
      (drain (run script (call_start s).2)).
Proof. intros Hidle. apply Inv_drain; [done|]. by apply start_Inv_run. Qed.

(** What the signals are once the queue is empty. *)
Lemma onceAny_outcome events h s script :
  from_caller h → idle s →
  outcome (call_onceAny events h s).1 (run script (call_onceAny events h s).2) =
    Some (match heard_any (names events) (emissions script) with
          | Some v => Fulfilled (VArr [v])
          | None => Pending []
          end).
Proof.
  intros Hwf Hidle. unfold outcome. rewrite onceAny_signal.
  eapply quiet_cleaned; [by apply onceAny_Inv|apply drain_quiescent|].
  cbn. by rewrite decide_True.
Qed.

Lemma after_outcome events h s script :
  from_caller h → idle s →
  outcome (call_after events h s).1 (run script (call_after events h s).2) =
    Some (match mapM (captured (emissions script)) (elements events) with
          | Some vs => Fulfilled (VArr vs)
          | None => Pending []
          end).
Proof.
  intros Hwf Hidle. unfold outcome. rewrite after_signal.
  by rewrite (quiet_after _ _ _ _ _ _ Hwf (after_Inv events h s script Hwf Hidle)
                (drain_quiescent _)).
Qed.

Lemma heard_Some P hist : is_Some (heard P hist) ↔ ∃ n, n ∈ hist.*1 ∧ P n = true.
Proof.
  induction hist as [|[n args] hist IH]; cbn.
  - split; [by intros [? ?]|]. by intros (n & ?%elem_of_nil & _).
  - destruct (P n) eqn:HP.
    + split; [|by eauto]. intros _. exists n. split; [left|done].
    + rewrite IH. split.
      * intros (m & Hm & HPm). exists m. split; [by right|done].
      * intros (m & Hm & HPm). exists m. split; [|done].
        apply elem_of_cons in Hm as [->|Hm]; [congruence|done].
Qed.



Lemma onceAny_calls events h s script :
  from_caller h → idle s →
  calls (drain (run script (call_onceAny events h s).2)) =
    match heard_any (names events) (emissions script) with
    | Some v => log_of h (VArr [v])
    | None => []
    end.
Proof.
  intros Hwf Hidle. pose proof (onceAny_Inv events h s script Hwf Hidle) as HI.
  rewrite (inv_calls _ _ _ HI). cbn [handler_site caller_handler].
  rewrite (quiet_handled _ _ _ (Top (ncalls s)) (names events) h HI (drain_quiescent _)).
  - by destruct (heard_any (names events) (emissions script)).
  - cbn. by rewrite decide_True.
Qed.

Lemma after_calls events h s script :
  from_caller h → idle s →
  calls (drain (run script (call_after events h s).2)) =
    match mapM (captured (emissions script)) (elements events) with
    | Some vs => log_of h (VArr vs)
    | None => []
    end.
Proof.
  intros Hwf Hidle. pose proof (after_Inv events h s script Hwf Hidle) as HI.
  rewrite (inv_calls _ _ _ HI). cbn [handler_site caller_handler].
  rewrite (quiet_after _ _ _ _ _ _ Hwf HI (drain_quiescent _)).
  by destruct (mapM (captured (emissions script)) (elements events)).
Qed.

Lemma start_outcome s script :
  idle s →
  outcome (call_start s).1 (run script (call_start s).2) =
    Some (match heard_name "trails:ready" (emissions script) with
          | Some _ => Fulfilled VApp
          | None => Pending []
          end)
  ∧ started (drain (run script (call_start s).2)) =
      bool_decide (is_Some (heard_name "trails:ready" (emissions script))).
Proof.
  intros Hidle. pose proof (start_Inv s script Hidle) as HI.
  assert (from_caller NOOP) as Hwf by done.
  pose proof (quiet_start _ _ _ _ _ Hwf HI (drain_quiescent _)) as HP.
  unfold outcome. rewrite start_signal, (inv_started _ _ _ HI). cbn [run_of].
  rewrite HP. cbn.
  destruct (heard_name "trails:ready" (emissions script)); cbn; split; try done.
Qed.

(** [started] is set by the continuation of [start] only. *)
Lemma started_ready hist s k n :
  Inv (SAfter k [Name n] NOOP true) hist s → started s = true →
  is_Some (heard_name n hist).
Proof.
  intros HI Hst. rewrite (inv_started _ _ _ HI) in Hst. cbn [run_of] in Hst.
  destruct (promises s !! PStart k) as [[rs|w]|] eqn:HPs; try done.
  assert (source (SAfter k [Name n] NOOP true) (PStart k) = Some (PAfter k, KStarted)) as H1.
  { cbn. by rewrite decide_True. }
  pose proof (inv_then _ _ _ HI _ _ _ H1) as H. rewrite HPs in H.
  destruct H as [_ (v & HPa & _)].
  assert (source (SAfter k [Name n] NOOP true) (PAfter k)
          = Some (PAll k, KHandlerWrapperAll NOOP)) as H2.
  { cbn. by rewrite decide_True. }
  pose proof (inv_then _ _ _ HI _ _ _ H2) as H. rewrite HPa in H.
  destruct H as [_ (v' & HPall & _)].
  destruct (inv_slots _ _ _ HI _ _ _ _ eq_refl) as (sl & _ & Hlen & Hel & Hf).
  destruct (filled sl) as [vs|] eqn:Hfill; [|congruence].
  destruct (filled_Some_lookup sl vs 0 Hfill) as (w0 & Hw0 & _); [rewrite Hlen; cbn; lia|].
  specialize (Hel 0). cbn in Hel.
  assert (plain (SAfter k [Name n] NOOP true) 0 = Some n) as Hp by done.
  pose proof (inv_plain _ _ _ HI _ _ Hp) as Hpl. cbn [run_of] in Hpl.
  destruct (heard_name n hist) as [x|]; [by eexists|].
  destruct (inv_listener _ _ _ HI _ _ Hpl) as [Hpend _].
  rewrite Hpend in Hel. specialize (Hel ltac:(lia)). congruence.
Qed.





Lemma idle_fresh : idle fresh.
Proof. by repeat split. Qed.

(** The emitter's own events, as the real bus sends them: [onceAny] of
    [newListener] and [x] is settled by its own registration of [x]; [after]
    of [removeListener] and [a] is settled by an emission of [a] alone. *)
Example own_newListener :
  Full.outcome (Full.call_onceAny (Names ["newListener"; "x"]%string) Full.NOOP Full.fresh).1
               (Full.call_onceAny (Names ["newListener"; "x"]%string) Full.NOOP Full.fresh).2
  = Some (Full.Fulfilled (VArr [VStr "x"])).
Proof. vm_compute. reflexivity. Qed.

Example own_removeListener :
  Full.outcome
    (Full.call_after (Events [Name "removeListener"; Name "a"]%string) Full.NOOP Full.fresh).1
    (Full.run [Full.Emit "a" [VNum 1]]
       (Full.call_after (Events [Name "removeListener"; Name "a"]%string)
                        Full.NOOP Full.fresh).2)
  = Some (Full.Fulfilled (VArr [VStr "a"; VNum 1]))
  ∧ Full.trace
      (Full.run [Full.Emit "a" [VNum 1]]
         (Full.call_after (Events [Name "removeListener"; Name "a"]%string)
                          Full.NOOP Full.fresh).2)
    = ["a"; "removeListener"; "removeListener"]%string.
Proof. split; vm_compute; reflexivity. Qed.

(** A handler that throws: it has been called once, the signal is rejected
    with what it threw, and the cleanup has not run. *)
Example throwing_handler :
  Full.outcome
    (Full.call_onceAny (Names ["a"; "b"]%string)
       (Full.HUser 0 (λ _, Full.Throw (VStr "boom"))) Full.fresh).1
    (Full.run [Full.Emit "a" [VNum 1]]
       (Full.call_onceAny (Names ["a"; "b"]%string)
          (Full.HUser 0 (λ _, Full.Throw (VStr "boom"))) Full.fresh).2)
  = Some (Full.Rejected (VStr "boom"))
  ∧ (Full.listeners
       (Full.drain (Full.run [Full.Emit "a" [VNum 1]]
         (Full.call_onceAny (Names ["a"; "b"]%string)
            (Full.HUser 0 (λ _, Full.Throw (VStr "boom"))) Full.fresh).2))).*1
    = ["b"%string].
Proof. split; vm_compute; reflexivity. Qed.

(** * One call among the others *)

(** ** What each operation does to one call *)

Lemma owned_target j r : owned j r → owner (ftarget r) = j.
Proof.
  unfold owned. rewrite list.Forall_forall. intros H. apply H.
  destruct r as [[[]|? []|[]|] q|q|q i]; cbn; set_solver.
Qed.

Lemma omap_jobs_foreign k o rs :
  Forall (λ r, owner (ftarget r) ≠ k) rs → omap (tr_job k) (map (λ r, (r, o)) rs) = [].
Proof.
  induction 1 as [|r rs Hr _ IH]; [done|]. cbn. unfold tr_job at 1. cbn.
  by rewrite decide_False.
Qed.

Lemma omap_jobs_own k v rs :
  Forall (λ r, owner (ftarget r) = k) rs →
  omap (tr_job k) (map (λ r, (r, Full.Ok v)) rs) = map (λ r, (r, v)) (tr_reaction <$> rs).
Proof.
  induction 1 as [|r rs Hr _ IH]; [done|]. cbn. unfold tr_job at 1. cbn.
  rewrite decide_True by done. by rewrite IH.
Qed.

Section primitives_sim.
Context (k : nat) (sF : Full.app) (sM : app).
Context (Hsim : sim k sF sM) (Hcl : Closed sF).

Lemma sim_settle_foreign p o : owner p ≠ k → sim k (Full.settle p o sF) sM.
Proof.
  intros Hp. pose proof Hsim as [Hl Hpr Hs Hj Hc Hst]. unfold Full.settle.
  destruct (Full.promises sF !! p) as [[rs|v|e]|] eqn:HP; try done.
  split; cbn; try done.
  - intros x. rewrite Hpr. case_decide; [|done].
    rewrite lookup_insert_ne; [done|]. congruence.
  - rewrite omap_app, omap_jobs_foreign, app_nil_r; [done|].
    pose proof Hcl as [Hcl1 _]. specialize (Hcl1 _ _ HP).
    eapply list.Forall_impl; [exact Hcl1|]. intros r Hr%owned_target. congruence.
Qed.

Lemma sim_settle_own p v :
  owner p = k → sim k (Full.settle p (Full.Ok v) sF) (resolve p v sM).
Proof.
  intros Hp. pose proof Hsim as [Hl Hpr Hs Hj Hc Hst]. unfold Full.settle, resolve.
  rewrite Hpr, decide_True by done.
  destruct (Full.promises sF !! p) as [[rs|w|e]|] eqn:HP; cbn; try done.
  split; cbn; try done.
  - intros x. destruct (decide (x = p)) as [->|Hx].
    + rewrite !lookup_insert_eq. by rewrite decide_True.
    + rewrite !lookup_insert_ne by done. apply Hpr.
  - rewrite omap_app, Hj, omap_jobs_own; [done|].
    pose proof Hcl as [Hcl1 _]. specialize (Hcl1 _ _ HP).
    eapply list.Forall_impl; [exact Hcl1|]. intros r Hr%owned_target. congruence.
Qed.

Lemma sim_new_promise_foreign p : owner p ≠ k → sim k (Full.new_promise p sF) sM.
Proof.
  intros Hp. pose proof Hsim as [Hl Hpr Hs Hj Hc Hst]. split; cbn; try done.
  intros x. rewrite Hpr. case_decide; [|done]. rewrite lookup_insert_ne; [done|]. congruence.
Qed.

Lemma sim_new_promise_own p :
  owner p = k → sim k (Full.new_promise p sF) (new_promise p sM).
Proof.
  intros Hp. pose proof Hsim as [Hl Hpr Hs Hj Hc Hst]. split; cbn; try done.
  intros x. destruct (decide (x = p)) as [->|Hx].
  - rewrite !lookup_insert_eq. by rewrite decide_True.
  - rewrite !lookup_insert_ne by done. apply Hpr.
Qed.

Lemma sim_subscribe_foreign p r : owner p ≠ k → owned (owner p) r →
  sim k (Full.subscribe p r sF) sM.
Proof.
  intros Hp Hr%owned_target. pose proof Hsim as [Hl Hpr Hs Hj Hc Hst]. unfold Full.subscribe.
  destruct (Full.promises sF !! p) as [[rs|v|e]|] eqn:HP; try done.
  - split; cbn; try done.
    intros x. rewrite Hpr. case_decide; [|done].
    rewrite lookup_insert_ne; [done|]. congruence.
  - split; cbn; try done. rewrite omap_app. cbn. unfold tr_job at 2. cbn.
    rewrite decide_False by congruence. by rewrite app_nil_r.
  - split; cbn; try done. rewrite omap_app. cbn. unfold tr_job at 2. cbn.
    rewrite decide_False by congruence. by rewrite app_nil_r.
Qed.

Lemma sim_subscribe_own p r :
  owner p = k → owner (ftarget r) = k →
  (∀ e, Full.promises sF !! p ≠ Some (Full.Rejected e)) →
  sim k (Full.subscribe p r sF) (subscribe p (tr_reaction r) sM).
Proof.
  intros Hp Hr Hne. pose proof Hsim as [Hl Hpr Hs Hj Hc Hst]. unfold Full.subscribe, subscribe.
  rewrite Hpr, decide_True by done.
  destruct (Full.promises sF !! p) as [[rs|v|e]|] eqn:HP; cbn; try done.
  - split; cbn; try done.
    intros x. destruct (decide (x = p)) as [->|Hx].
    + rewrite !lookup_insert_eq. rewrite decide_True by done. cbn. by rewrite fmap_app.
    + rewrite !lookup_insert_ne by done. apply Hpr.
  - split; cbn; try done. rewrite Hj, omap_app. f_equal. cbn. unfold tr_job. cbn.
    by rewrite decide_True.
  - by destruct (Hne e).
Qed.

Lemma sim_add_foreign n p :
  owner p ≠ k → sim k (Full.set_listeners (λ l, l ++ [(n, p)]) sF) sM.
Proof.
  intros Hp. pose proof Hsim as [Hl Hpr Hs Hj Hc Hst]. split; cbn; try done.
  by rewrite list.filter_app, filter_cons_False, filter_nil, app_nil_r.
Qed.

Lemma sim_add_own n p :
  owner p = k → sim k (Full.set_listeners (λ l, l ++ [(n, p)]) sF) (once n p sM).
Proof.
  intros Hp. pose proof Hsim as [Hl Hpr Hs Hj Hc Hst]. split; cbn; try done.
  by rewrite list.filter_app, filter_cons_True, filter_nil, Hl.
Qed.

Lemma sim_set_trace f : sim k (Full.set_trace f sF) sM.
Proof. pose proof Hsim as [? ? ? ? ? ?]. by split. Qed.

Lemma sim_set_ncalls n : sim k (Full.set_ncalls n sF) sM.
Proof. pose proof Hsim as [? ? ? ? ? ?]. by split. Qed.

Lemma sim_trace_M f : sim k sF (set_trace f sM).
Proof. pose proof Hsim as [? ? ? ? ? ?]. by split. Qed.

Lemma sim_ncalls_M n : sim k sF (set_ncalls n sM).
Proof. pose proof Hsim as [? ? ? ? ? ?]. by split. Qed.

Lemma sim_set_started : sim k (Full.set_started true sF) sM.
Proof. pose proof Hsim as [? ? ? ? ? ?]. by split. Qed.

Lemma sim_set_started_own : sim k (Full.set_started true sF) (set_started true sM).
Proof. pose proof Hsim as [? ? ? ? ? ?]. by split. Qed.
End primitives_sim.

(** * The shared state is well formed *)

Lemma owned_then_any h q j :
  owner q = j → (∀ p, h = Full.HResolve p → owner p = j) →
  owned j (Full.RThen (Full.KHandlerWrapperAny h) q).
Proof.
  intros Hq Hh. unfold owned. destruct h as [|id body|p]; cbn.
  - by apply Forall_singleton.
  - by apply Forall_singleton.
  - apply list.Forall_cons. split; [by apply Hh|by apply Forall_singleton].
Qed.

Lemma owned_then_all h q j :
  owner q = j → (∀ p, h = Full.HResolve p → owner p = j) →
  owned j (Full.RThen (Full.KHandlerWrapperAll h) q).
Proof.
  intros Hq Hh. unfold owned. destruct h as [|id body|p]; cbn.
  - by apply Forall_singleton.
  - by apply Forall_singleton.
  - apply list.Forall_cons. split; [by apply Hh|by apply Forall_singleton].
Qed.

Lemma owned_cleanup g rc q j :
  owner q = j → (∀ p, rc = Some p → owner p = j) →
  owned j (Full.RThen (Full.KCleanup g rc) q).
Proof.
  intros Hq Hh. unfold owned. destruct rc as [p|]; cbn.
  - apply list.Forall_cons. split; [by apply Hh|by apply Forall_singleton].
  - by apply Forall_singleton.
Qed.

Lemma owned_started q j : owner q = j → owned j (Full.RThen Full.KStarted q).
Proof. intros Hq. unfold owned. cbn. by apply Forall_singleton. Qed.

Lemma owned_race q j : owner q = j → owned j (Full.RRace q).
Proof. intros Hq. unfold owned. cbn. by apply Forall_singleton. Qed.

Lemma owned_all q i j : owner q = j → owned j (Full.RAll q i).
Proof. intros Hq. unfold owned. cbn. by apply Forall_singleton. Qed.

Lemma Closed_settle p o s : Closed s → Closed (Full.settle p o s).
Proof.
  intros [H1 H2]. unfold Full.settle.
  destruct (Full.promises s !! p) as [[rs|v|e]|] eqn:HP; try done.
  split; cbn.
  - intros x rs'. destruct (decide (x = p)) as [->|Hx].
    + rewrite lookup_insert_eq. by destruct o.
    + rewrite lookup_insert_ne by done. apply H1.
  - apply Forall_app. split; [done|]. apply Forall_fmap.
    eapply list.Forall_impl; [exact (H1 _ _ HP)|]. intros r Hr. cbn.
    by rewrite (owned_target _ _ Hr).
Qed.

Section primitives_wf.
Context (N : nat) (s : Full.app) (HW : Wf N s).

Lemma Wf_settle p o : Wf N (Full.settle p o s).
Proof.
  pose proof HW as [Hc (B1 & B2 & B3 & B4 & B5)]. split; [by apply Closed_settle|].
  unfold Full.settle. destruct (Full.promises s !! p) as [[rs|v|e]|] eqn:HP; try done.
  unfold Bounded. split_and!; cbn; try done.
  - intros x. destruct (decide (x = p)) as [->|Hx].
    + intros _. apply B2. by rewrite HP.
    + rewrite lookup_insert_ne by done. apply B2.
  - apply Forall_app. split; [done|]. apply Forall_fmap.
    destruct Hc as [H1 _]. eapply list.Forall_impl; [exact (H1 _ _ HP)|].
    intros r Hr%owned_target. cbn. rewrite Hr. apply B2. by rewrite HP.
Qed.

Lemma Wf_trace f : Wf N (Full.set_trace f s).
Proof. done. Qed.

Lemma Wf_started b : Wf N (Full.set_started b s).
Proof. done. Qed.

Lemma Wf_ncalls n : Wf N (Full.set_ncalls n s).
Proof. done. Qed.

Lemma Wf_remove x : Wf N (Full.set_listeners (remove_last x) s).
Proof.
  pose proof HW as [Hc (B1 & B2 & B3 & B4 & B5)]. split; [done|].
  unfold Bounded. split_and!; cbn; try done.
  apply list.Forall_forall. intros y Hy. rewrite list.Forall_forall in B1. apply B1.
  eapply elem_of_sublist; [exact Hy|apply remove_last_sublist].
Qed.

Lemma Wf_add n p : owner p < N → Wf N (Full.set_listeners (λ l, l ++ [(n, p)]) s).
Proof.
  intros Hp. pose proof HW as [Hc (B1 & B2 & B3 & B4 & B5)]. split; [done|].
  unfold Bounded. split_and!; cbn; try done.
  apply Forall_app. split; [done|]. by apply Forall_singleton.
Qed.

Lemma Wf_new_promise p : owner p < N → Wf N (Full.new_promise p s).
Proof.
  intros Hp. pose proof HW as [[C1 C2] (B1 & B2 & B3 & B4 & B5)]. split; [split|]; cbn.
  - intros x rs. destruct (decide (x = p)) as [->|Hx].
    + rewrite lookup_insert_eq. by intros [= <-].
    + rewrite lookup_insert_ne by done. apply C1.
  - done.
  - unfold Bounded. split_and!; cbn; try done.
    intros x. destruct (decide (x = p)) as [->|Hx]; [done|].
    rewrite lookup_insert_ne by done. apply B2.
Qed.

Lemma Wf_subscribe p r : owned (owner p) r → Wf N (Full.subscribe p r s).
Proof.
  intros Hr. pose proof HW as [[C1 C2] (B1 & B2 & B3 & B4 & B5)]. unfold Full.subscribe.
  assert (is_Some (Full.promises s !! p) → owner (ftarget r) < N) as Ht.
  { intros Hp. rewrite (owned_target _ _ Hr). by apply B2. }
  assert (owned (owner (ftarget r)) r) as Hr' by (by rewrite (owned_target _ _ Hr)).
  destruct (Full.promises s !! p) as [[rs|v|e]|] eqn:HP; try done.
  - split; [split|]; cbn.
    + intros x rs'. destruct (decide (x = p)) as [->|Hx].
      * rewrite lookup_insert_eq. intros [= <-]. apply Forall_app. split; [by eapply C1|].
        by apply Forall_singleton.
      * rewrite lookup_insert_ne by done. apply C1.
    + done.
    + unfold Bounded. split_and!; cbn; try done.
      intros x. destruct (decide (x = p)) as [->|Hx].
      * intros _. apply B2. by rewrite HP.
      * rewrite lookup_insert_ne by done. apply B2.
  - split; [split|]; cbn; [done| |].
    + apply Forall_app. split; [done|]. by apply Forall_singleton.
    + unfold Bounded. split_and!; cbn; try done.
      apply Forall_app. split; [done|]. apply Forall_singleton. cbn. by apply Ht.
  - split; [split|]; cbn; [done| |].
    + apply Forall_app. split; [done|]. by apply Forall_singleton.
    + unfold Bounded. split_and!; cbn; try done.
      apply Forall_app. split; [done|]. apply Forall_singleton. cbn. by apply Ht.
Qed.

Lemma Wf_slots q l : owner q < N → Wf N (Full.set_slots <[q := l]> s).
Proof.
  intros Hq. pose proof HW as [Hc (B1 & B2 & B3 & B4 & B5)]. split; [done|].
  unfold Bounded. split_and!; cbn; try done.
  intros x. destruct (decide (x = q)) as [->|Hx]; [done|].
  rewrite lookup_insert_ne by done. apply B3.
Qed.

Lemma Wf_calls q id v : owner q < N → Wf N (Full.set_calls (λ c, c ++ [(q, id, v)]) s).
Proof.
  intros Hq. pose proof HW as [Hc (B1 & B2 & B3 & B4 & B5)]. split; [done|].
  unfold Bounded. split_and!; cbn; try done.
  apply Forall_app. split; [done|]. by apply Forall_singleton.
Qed.

Lemma Wf_pop j Q :
  Full.jobs s = j :: Q →
  Wf N (Full.set_jobs (λ _, Q) s) ∧ owned (owner (ftarget j.1)) j.1 ∧ owner (ftarget j.1) < N.
Proof.
  intros HQ. pose proof HW as [[C1 C2] (B1 & B2 & B3 & B4 & B5)].
  rewrite HQ in C2, B4. apply list.Forall_cons in C2 as [? ?].
  apply list.Forall_cons in B4 as [? ?]. split; [|done].
  split; [by split|]. unfold Bounded. by split_and!.
Qed.
End primitives_wf.

Lemma Wf_mono N M s : N ≤ M → Wf N s → Wf M s.
Proof.
  intros HNM [Hc (B1 & B2 & B3 & B4 & B5)]. split; [done|]. unfold Bounded. split_and!.
  - eapply list.Forall_impl; [done|]. cbn. intros; lia.
  - intros p Hp. specialize (B2 p Hp). lia.
  - intros p Hp. specialize (B3 p Hp). lia.
  - eapply list.Forall_impl; [done|]. cbn. intros; lia.
  - eapply list.Forall_impl; [done|]. cbn. intros; lia.
Qed.

Lemma Wf_fresh : Wf 0 Full.fresh.
Proof.
  split; [split|]; cbn; [done|done|]. unfold Bounded. cbn. split_and!; try done.
  - intros p [? H]. by rewrite lookup_empty in H.
  - intros p [? H]. by rewrite lookup_empty in H.
Qed.

(** ** The emitter *)

Lemma Wf_removeListener_with N emit' name p s :
  (∀ n a s, Wf N s → Wf N (emit' n a s)) → Wf N s →
  Wf N (Full.removeListener_with emit' name p s).
Proof.
  intros He HW. unfold Full.removeListener_with. case_decide; [|done].
  destruct (Full.has _ _); [apply He|]; by apply Wf_remove.
Qed.

Lemma Wf_wrapper_with N emit' args s l :
  (∀ n a s, Wf N s → Wf N (emit' n a s)) → Wf N s →
  Wf N (Full.wrapper_with emit' args s l).
Proof.
  intros He HW. unfold Full.wrapper_with. case_decide; [|done].
  by apply Wf_settle, Wf_removeListener_with.
Qed.

Lemma Wf_emit_ N fuel : ∀ name args s, Wf N s → Wf N (Full.emit_ fuel name args s).
Proof.
  induction fuel as [|fuel IH]; intros name args s HW; [done|]. cbn [Full.emit_].
  assert (Wf N (Full.set_trace (λ t, t ++ [name]) s)) as HW0 by by apply Wf_trace.
  revert HW0. generalize (Full.set_trace (λ t, t ++ [name]) s).
  induction (filter (λ l, l.1 = name) (Full.listeners s)) as [|l L IHL]; intros s0 HW0; [done|].
  cbn [foldl]. apply IHL. by apply Wf_wrapper_with.
Qed.

Lemma Wf_emit N name args s : Wf N s → Wf N (Full.emit name args s).
Proof. apply Wf_emit_. Qed.

Lemma Wf_removeListener N name p s : Wf N s → Wf N (Full.removeListener name p s).
Proof. intros HW. apply Wf_removeListener_with; [apply Wf_emit_|done]. Qed.

Lemma Wf_once N name p s : owner p < N → Wf N s → Wf N (Full.once name p s).
Proof.
  intros Hp HW. unfold Full.once. apply Wf_add; [|done].
  destruct (Full.has _ _); [by apply Wf_emit|done].
Qed.

(** ** Promise jobs *)

Lemma Wf_call_handler N q h v s :
  owner q < N → Wf N s → Wf N (Full.call_handler q h v s).1.
Proof.
  intros Hq HW. destruct h as [|id body|p]; cbn; [done|by apply Wf_calls|by apply Wf_settle].
Qed.

Lemma Wf_cleanup N rc events : ∀ s, Wf N s →
  Wf N (foldl (λ s eventName,
                 match rc with
                 | Some p => Full.removeListener eventName p s
                 | None => s
                 end) s events).
Proof.
  induction events as [|e events IH]; intros s HW; [done|]. cbn [foldl]. apply IH.
  destruct rc; [by apply Wf_removeListener|done].
Qed.

Lemma Wf_run_callback N q k v s :
  owner q < N → Wf N s → Wf N (Full.run_callback q k v s).1.
Proof.
  intros Hq HW. destruct k as [h|events rc|h|]; cbn.
  - pose proof (Wf_call_handler N q h (VArr [v]) s Hq HW) as H.
    by destruct (Full.call_handler q h (VArr [v]) s).
  - by apply Wf_cleanup.
  - pose proof (Wf_call_handler N q h v s Hq HW) as H.
    by destruct (Full.call_handler q h v s).
  - by apply Wf_started.
Qed.

Lemma Wf_run_job N j s :
  owner (ftarget j.1) < N → Wf N s → Wf N (Full.run_job j s).
Proof.
  intros Hq HW. destruct j as [[k q|r|q i] [v|e]]; cbn in *.
  - pose proof (Wf_run_callback N q k v s Hq HW) as H.
    destruct (Full.run_callback q k v s) as [s' res]. by apply Wf_settle.
  - by apply Wf_settle.
  - by apply Wf_settle.
  - by apply Wf_settle.
  - destruct (Full.slots s !! q) as [l|]; [|done].
    destruct (l !! i) as [[x|]|]; try done.
    destruct (Full.filled _); [apply Wf_settle|]; by apply Wf_slots.
  - by apply Wf_settle.
Qed.

Lemma Wf_step N s : Wf N s → Wf N (Full.step s).
Proof.
  intros HW. unfold Full.step. destruct (Full.jobs s) as [|j Q] eqn:HQ; [done|].
  destruct (Wf_pop N s HW j Q HQ) as (H1 & H2 & H3). by apply Wf_run_job.
Qed.

Lemma Wf_iter_step N n s : Wf N s → Wf N (Nat.iter n Full.step s).
Proof. intros HW. induction n as [|n IH]; [done|]. cbn. by apply Wf_step. Qed.

Lemma Wf_drain N s : Wf N s → Wf N (Full.drain s).
Proof. apply Wf_iter_step. Qed.

(** ** The combinators *)

Lemma Wf_then N p k q s :
  owner q < N → owned (owner p) (Full.RThen k q) → Wf N s → Wf N (Full.then_ p k q s).
Proof. intros Hq Hr HW. apply Wf_subscribe; [|done]. by apply Wf_new_promise. Qed.

Lemma Wf_listen_fold N c events : ∀ s ps rc,
  caller c < N → Wf N s → Forall (λ p, owner p = caller c) ps →
  (∀ p, rc = Some p → owner p = caller c) →
  Wf N (foldl (Full.listen c) (s, ps, rc) events).1.1
  ∧ Forall (λ p, owner p = caller c) (foldl (Full.listen c) (s, ps, rc) events).1.2
  ∧ (∀ p, (foldl (Full.listen c) (s, ps, rc) events).2 = Some p → owner p = caller c).
Proof.
  induction events as [|e events IH]; intros s ps rc Hc HW Hps Hrc; [by cbn|].
  cbn [foldl Full.listen].
  assert (owner (PListener c (length ps)) = caller c) as Ho by (by destruct c).
  apply IH; [done| | |].
  - apply Wf_once; [by destruct c|]. apply Wf_new_promise; [by destruct c|done].
  - apply Forall_app. split; [done|]. by apply Forall_singleton.
  - by intros p [= <-].
Qed.

Lemma Wf_race N r ps : ∀ s,
  Forall (λ p, owner p = owner r) ps → Wf N s →
  Wf N (foldl (λ s p, Full.subscribe p (Full.RRace r) s) s ps).
Proof.
  induction ps as [|p ps IH]; intros s Hps HW; [done|].
  apply list.Forall_cons in Hps as [Hp Hps]. cbn [foldl]. apply IH; [done|].
  apply Wf_subscribe; [done|]. by apply owned_race.
Qed.

Lemma Wf_onceAny N c events h s :
  caller c < N → (∀ p, h = Full.HResolve p → owner p = caller c) → Wf N s →
  Wf N (Full.onceAny c events h s).2.
Proof.
  intros Hc Hh HW. unfold Full.onceAny.
  set (g := match events with OneName n => [n] | Names ns => ns end).
  destruct (Wf_listen_fold N c g s [] None Hc HW) as (H1 & H2 & H3); [done|done|].
  destruct (foldl (Full.listen c) (s, [], None) g) as [[s1 ps] rc]. cbn in H1, H2, H3.
  cbn [snd].
  assert (caller c = owner (PRace c)) as Hr by (by destruct c).
  assert (caller c = owner (PHandled c)) as Hh' by (by destruct c).
  assert (caller c = owner (PCleaned c)) as Hcl by (by destruct c).
  apply Wf_then; [by destruct c| |].
  { apply owned_cleanup; [by destruct c|]. intros p Hp. rewrite (H3 p Hp). by destruct c. }
  apply Wf_then; [by destruct c| |].
  { apply owned_then_any; [by destruct c|]. intros p Hp. rewrite (Hh p Hp). by destruct c. }
  unfold Full.race. apply Wf_race.
  - eapply list.Forall_impl; [done|]. cbn. intros p ->. by destruct c.
  - apply Wf_new_promise; [by destruct c|done].
Qed.

Lemma Wf_await_fold N k events : ∀ s ps,
  k < N → Wf N s → Forall (λ p, owner p = k) ps →
  Wf N (foldl (Full.await k) (s, ps) events).1
  ∧ Forall (λ p, owner p = k) (foldl (Full.await k) (s, ps) events).2.
Proof.
  induction events as [|e events IH]; intros s ps Hk HW Hps; [by cbn|].
  cbn [foldl Full.await]. apply IH; [done| |].
  - destruct e as [n|ns].
    + apply Wf_once; [done|]. by apply Wf_new_promise.
    + apply Wf_onceAny; [done| |by apply Wf_new_promise]. by intros p [= <-].
  - apply Forall_app. split; [done|]. by apply Forall_singleton.
Qed.

Lemma Wf_all_fold N q (ips : list (nat * pid)) : ∀ s,
  Forall (λ ip, owner ip.2 = owner q) ips → Wf N s →
  Wf N (foldl (λ s ip, Full.subscribe ip.2 (Full.RAll q ip.1) s) s ips).
Proof.
  induction ips as [|ip ips IH]; intros s Hps HW; [done|].
  apply list.Forall_cons in Hps as [Hp Hps]. cbn [foldl]. apply IH; [done|].
  apply Wf_subscribe; [done|]. by apply owned_all.
Qed.

Lemma Wf_all N q ps s :
  owner q < N → Forall (λ p, owner p = owner q) ps → Wf N s → Wf N (Full.all q ps s).
Proof.
  intros Hq Hps HW. unfold Full.all.
  assert (Wf N (foldl (λ s ip, Full.subscribe ip.2 (Full.RAll q ip.1) s)
                  (Full.set_slots <[q := replicate (length ps) None]> (Full.new_promise q s))
                  (imap pair ps))) as H.
  { apply Wf_all_fold.
    - apply list.Forall_forall. intros [i p] Hip. cbn.
      apply elem_of_lookup_imap in Hip as (i' & p' & [= -> ->] & Hl).
      rewrite list.Forall_forall in Hps. apply Hps. by eapply list_elem_of_lookup_2.
    - apply Wf_slots; [|done]. by apply Wf_new_promise. }
  case_decide; [by apply Wf_settle|done].
Qed.

Lemma Wf_after N k events h s :
  k < N → (∀ p, h ≠ Full.HResolve p) → Wf N s → Wf N (Full.after k events h s).2.
Proof.
  intros Hk Hh HW. unfold Full.after.
  set (es := match events with OneEvent n => [Name n] | Events es => es end).
  destruct (Wf_await_fold N k es s [] Hk HW) as [H1 H2]; [done|].
  destruct (foldl (Full.await k) (s, []) es) as [s1 ps]. cbn in H1, H2. cbn [snd].
  apply Wf_then; [done| |].
  { apply owned_then_all; [done|]. intros p Hp. by destruct (Hh p). }
  by apply Wf_all.
Qed.

Lemma after_signal_F k events h s : (Full.after k events h s).1 = PAfter k.
Proof. unfold Full.after. by destruct (foldl _ _ _). Qed.

Lemma onceAny_signal_F c events h s : (Full.onceAny c events h s).1 = PCleaned c.
Proof. unfold Full.onceAny. by destruct (foldl _ _ _) as [[? ?] ?]. Qed.


Lemma start_state_F k s :
  (Full.start k s).2 =
    Full.then_ (PAfter k) Full.KStarted (PStart k)
               (Full.after k (OneEvent "trails:ready"%string) Full.NOOP s).2.
Proof.
  unfold Full.start.
  pose proof (after_signal_F k (OneEvent "trails:ready"%string) Full.NOOP s) as H.
  destruct (Full.after _ _ _ _) as [p s']. cbn in *. by subst.
Qed.

Lemma Wf_start N k s : k < N → Wf N s → Wf N (Full.start k s).2.
Proof.
  intros Hk HW. rewrite start_state_F. apply Wf_then; [done|by apply owned_started|].
  by apply Wf_after.
Qed.

(** ** Every state the application reaches *)

Lemma ncalls_settle p o s : Full.ncalls (Full.settle p o s) = Full.ncalls s.
Proof. unfold Full.settle. by destruct (Full.promises s !! p) as [[rs|v|e]|]. Qed.

Lemma ncalls_subscribe p r s : Full.ncalls (Full.subscribe p r s) = Full.ncalls s.
Proof. unfold Full.subscribe. by destruct (Full.promises s !! p) as [[rs|v|e]|]. Qed.

Lemma ncalls_emit_ fuel : ∀ name args s,
  Full.ncalls (Full.emit_ fuel name args s) = Full.ncalls s.
Proof.
  induction fuel as [|fuel IH]; intros name args s; [done|]. cbn [Full.emit_].
  change (Full.ncalls s) with (Full.ncalls (Full.set_trace (λ t, t ++ [name]) s)).
  generalize (Full.set_trace (λ t, t ++ [name]) s).
  induction (filter (λ l, l.1 = name) (Full.listeners s)) as [|l L IHL]; intros s0; [done|].
  cbn [foldl]. rewrite IHL. unfold Full.wrapper_with. case_decide; [|done].
  rewrite ncalls_settle. unfold Full.removeListener_with. case_decide; [|done].
  destruct (Full.has _ _); [by rewrite IH|done].
Qed.

Lemma ncalls_removeListener name p s :
  Full.ncalls (Full.removeListener name p s) = Full.ncalls s.
Proof.
  unfold Full.removeListener, Full.removeListener_with. case_decide; [|done].
  destruct (Full.has _ _); [by rewrite ncalls_emit_|done].
Qed.

Lemma ncalls_emit name args s : Full.ncalls (Full.emit name args s) = Full.ncalls s.
Proof. apply ncalls_emit_. Qed.

Lemma ncalls_once name p s : Full.ncalls (Full.once name p s) = Full.ncalls s.
Proof.
  unfold Full.once. destruct (Full.has _ _); [|done].
  exact (ncalls_emit "newListener" [VStr name; VResolve p] s).
Qed.

Lemma ncalls_cleanup rc events : ∀ s,
  Full.ncalls (foldl (λ s eventName,
                        match rc with
                        | Some p => Full.removeListener eventName p s
                        | None => s
                        end) s events) = Full.ncalls s.
Proof.
  induction events as [|e events IH]; intros s; [done|]. cbn [foldl]. rewrite IH.
  destruct rc; [apply ncalls_removeListener|done].
Qed.

Lemma ncalls_run_job j s : Full.ncalls (Full.run_job j s) = Full.ncalls s.
Proof.
  destruct j as [[k q|r|q i] [v|e]]; cbn; try apply ncalls_settle.
  - destruct k as [h|events rc|h|]; cbn.
    + destruct h; cbn; rewrite !ncalls_settle; done.
    + by rewrite ncalls_settle, ncalls_cleanup.
    + destruct h; cbn; rewrite !ncalls_settle; done.
    + by rewrite ncalls_settle.
  - destruct (Full.slots s !! q) as [l|]; [|done].
    destruct (l !! i) as [[x|]|]; try done.
    destruct (Full.filled _); [by rewrite ncalls_settle|done].
Qed.

Lemma ncalls_step s : Full.ncalls (Full.step s) = Full.ncalls s.
Proof.
  unfold Full.step. destruct (Full.jobs s); [done|]. by rewrite ncalls_run_job.
Qed.

Lemma ncalls_iter_step n s : Full.ncalls (Nat.iter n Full.step s) = Full.ncalls s.
Proof. induction n as [|n IH]; [done|]. cbn. by rewrite ncalls_step. Qed.

Lemma ncalls_listen_fold c events : ∀ acc,
  Full.ncalls (foldl (Full.listen c) acc events).1.1 = Full.ncalls acc.1.1.
Proof.
  induction events as [|e events IH]; intros [[s ps] rc]; [done|].
  cbn [foldl Full.listen]. rewrite IH. cbn [fst]. by rewrite ncalls_once.
Qed.

Lemma ncalls_fold_subscribe {A} (f : A → pid) (g : A → Full.reaction) (l : list A) : ∀ s,
  Full.ncalls (foldl (λ s x, Full.subscribe (f x) (g x) s) s l) = Full.ncalls s.
Proof.
  induction l as [|x l IH]; intros s; [done|]. cbn [foldl]. by rewrite IH, ncalls_subscribe.
Qed.

Lemma ncalls_onceAny c events h s :
  Full.ncalls (Full.onceAny c events h s).2 = Full.ncalls s.
Proof.
  unfold Full.onceAny.
  set (g := match events with OneName n => [n] | Names ns => ns end).
  pose proof (ncalls_listen_fold c g (s, [], None)) as H.
  destruct (foldl (Full.listen c) (s, [], None) g) as [[s1 ps] rc]. cbn in H. cbn [snd].
  unfold Full.then_. rewrite !ncalls_subscribe. cbn. rewrite ncalls_subscribe. cbn.
  unfold Full.race.
  by rewrite (ncalls_fold_subscribe (λ p, p) (λ _, Full.RRace (PRace c))).
Qed.

Lemma ncalls_await_fold k events : ∀ acc,
  Full.ncalls (foldl (Full.await k) acc events).1 = Full.ncalls acc.1.
Proof.
  induction events as [|e events IH]; intros [s ps]; [done|].
  cbn [foldl Full.await]. rewrite IH. cbn [fst].
  destruct e; [by rewrite ncalls_once|by rewrite ncalls_onceAny].
Qed.

Lemma ncalls_after k events h s : Full.ncalls (Full.after k events h s).2 = Full.ncalls s.
Proof.
  unfold Full.after.
  set (es := match events with OneEvent n => [Name n] | Events es => es end).
  pose proof (ncalls_await_fold k es (s, [])) as H.
  destruct (foldl (Full.await k) (s, []) es) as [s1 ps]. cbn in H. cbn [snd].
  unfold Full.then_. rewrite ncalls_subscribe. cbn. unfold Full.all.
  case_decide; [rewrite ncalls_settle|];
    by rewrite (ncalls_fold_subscribe (λ ip : nat * pid, ip.2) (λ ip, Full.RAll (PAll k) ip.1)).
Qed.

Lemma ncalls_start k s : Full.ncalls (Full.start k s).2 = Full.ncalls s.
Proof.
  rewrite start_state_F. unfold Full.then_. rewrite ncalls_subscribe.
  exact (ncalls_after k (OneEvent "trails:ready"%string) Full.NOOP s).
Qed.

Lemma ncalls_perform s a :
  Full.ncalls (Full.perform s a) = if is_call a then S (Full.ncalls s) else Full.ncalls s.
Proof.
  destruct a as [name args| | |events f|events f|]; cbn [Full.perform is_call].
  - apply ncalls_emit.
  - apply ncalls_iter_step.
  - apply ncalls_step.
  - unfold Full.call_onceAny. by rewrite ncalls_onceAny.
  - unfold Full.call_after. by rewrite ncalls_after.
  - unfold Full.call_start. by rewrite ncalls_start.
Qed.

Lemma given_caller f p : Full.given f ≠ Full.HResolve p.
Proof. by destruct f as [[? ?]|]. Qed.

Lemma Wf_perform s a : Wf (Full.ncalls s) s → Wf (Full.ncalls (Full.perform s a)) (Full.perform s a).
Proof.
  intros HW. rewrite ncalls_perform.
  destruct a as [name args| | |events f|events f|]; cbn [Full.perform is_call].
  - by apply Wf_emit.
  - by apply Wf_drain.
  - by apply Wf_step.
  - unfold Full.call_onceAny. apply Wf_onceAny; [cbn; lia| |].
    + intros p Hp. by destruct (given_caller f p).
    + apply Wf_ncalls. eapply Wf_mono; [|done]. lia.
  - unfold Full.call_after. apply Wf_after; [lia|apply given_caller|].
    apply Wf_ncalls. eapply Wf_mono; [|done]. lia.
  - unfold Full.call_start. apply Wf_start; [lia|].
    apply Wf_ncalls. eapply Wf_mono; [|done]. lia.
Qed.

Lemma Wf_run script : ∀ s,
  Wf (Full.ncalls s) s → Wf (Full.ncalls (Full.run script s)) (Full.run script s).
Proof.
  induction script as [|a script IH]; intros s HW; [done|].
  cbn [Full.run foldl]. apply IH. by apply Wf_perform.
Qed.

Lemma Wf_reached script :
  Wf (Full.ncalls (Full.run script Full.fresh)) (Full.run script Full.fresh).
Proof. apply Wf_run, Wf_fresh. Qed.

(** * The shared job queue empties *)

Lemma backlog_F_eq s : Full.backlog s = length (Full.jobs s) + waiting_F (Full.promises s).
Proof. done. Qed.

Lemma waiting_F_insert (m : gmap pid Full.pstate) p ps ps' :
  m !! p = Some ps →
  waiting_F (<[p := ps']> m) + Full.reactions_of ps = waiting_F m + Full.reactions_of ps'.
Proof.
  intros Hp. unfold waiting_F.
  rewrite (map_fold_delete_L _ _ p ps m); [|intros; lia|done].
  rewrite <-(insert_delete_eq m p ps').
  rewrite map_fold_insert_L; [lia|intros; lia|apply lookup_delete_eq].
Qed.

Lemma backlog_settle p o s : Full.backlog (Full.settle p o s) = Full.backlog s.
Proof.
  unfold Full.settle. destruct (Full.promises s !! p) as [[rs|w|e]|] eqn:Hp; try done.
  pose proof (waiting_F_insert _ _ _ (Full.state_of o) Hp) as H.
  rewrite !backlog_F_eq. cbn [Full.jobs Full.promises Full.set_jobs Full.set_promises].
  rewrite length_app, length_map.
  assert (Full.reactions_of (Full.state_of o) = 0) as H0 by (by destruct o).
  rewrite H0 in H. cbn [Full.reactions_of] in H. lia.
Qed.

Lemma backlog_emit_ fuel : ∀ name args s,
  Full.backlog (Full.emit_ fuel name args s) = Full.backlog s.
Proof.
  induction fuel as [|fuel IH]; intros name args s; [done|]. cbn [Full.emit_].
  change (Full.backlog s) with (Full.backlog (Full.set_trace (λ t, t ++ [name]) s)).
  generalize (Full.set_trace (λ t, t ++ [name]) s).
  induction (filter (λ l, l.1 = name) (Full.listeners s)) as [|l L IHL]; intros s0; [done|].
  cbn [foldl]. rewrite IHL. unfold Full.wrapper_with. case_decide; [|done].
  rewrite backlog_settle. unfold Full.removeListener_with. case_decide; [|done].
  destruct (Full.has _ _); [by rewrite IH|done].
Qed.

Lemma backlog_removeListener name p s :
  Full.backlog (Full.removeListener name p s) = Full.backlog s.
Proof.
  unfold Full.removeListener, Full.removeListener_with. case_decide; [|done].
  destruct (Full.has _ _); [by rewrite backlog_emit_|done].
Qed.

Lemma backlog_cleanup_F rc events : ∀ s,
  Full.backlog (foldl (λ s eventName,
                         match rc with
                         | Some p => Full.removeListener eventName p s
                         | None => s
                         end) s events) = Full.backlog s.
Proof.
  induction events as [|e events IH]; intros s; [done|]. cbn [foldl]. rewrite IH.
  destruct rc; [apply backlog_removeListener|done].
Qed.

Lemma backlog_run_job_F j s : Full.backlog (Full.run_job j s) = Full.backlog s.
Proof.
  destruct j as [[k q|r|q i] [v|e]]; cbn; try apply backlog_settle.
  - destruct k as [h|events rc|h|]; cbn.
    + destruct h; cbn; rewrite !backlog_settle; done.
    + by rewrite backlog_settle, backlog_cleanup_F.
    + destruct h; cbn; rewrite !backlog_settle; done.
    + by rewrite backlog_settle.
  - destruct (Full.slots s !! q) as [l|]; [|done].
    destruct (l !! i) as [[x|]|]; try done.
    destruct (Full.filled _); [by rewrite backlog_settle|done].
Qed.

Lemma backlog_step_F j q s :
  Full.jobs s = j :: q → S (Full.backlog (Full.step s)) = Full.backlog s.
Proof.
  intros Hj. unfold Full.step. rewrite Hj, backlog_run_job_F, !backlog_F_eq. cbn.
  rewrite Hj. done.
Qed.

Lemma step_idle_F s : Full.jobs s = [] → Full.step s = s.
Proof. unfold Full.step. by intros ->. Qed.

Lemma iter_step_idle_F n s : Full.jobs s = [] → Nat.iter n Full.step s = s.
Proof.
  intros Hj. induction n as [|n IH]; [done|].
  by rewrite Nat.iter_succ, IH, step_idle_F.
Qed.

Lemma iter_step_quiescent_F n s :
  Full.backlog s ≤ n → Full.jobs (Nat.iter n Full.step s) = [].
Proof.
  revert s. induction n as [|n IH]; intros s Hn.
  - rewrite backlog_F_eq in Hn. cbn. destruct (Full.jobs s); [done|cbn in Hn; lia].
  - rewrite Nat.iter_succ_r. destruct (Full.jobs s) as [|j q] eqn:Hj.
    + rewrite step_idle_F, iter_step_idle_F by done. done.
    + apply IH. pose proof (backlog_step_F _ _ _ Hj). lia.
Qed.

(** Running the queue is total and leaves no job behind. *)
Lemma drain_quiescent_F s : Full.jobs (Full.drain s) = [].
Proof. by apply iter_step_quiescent_F. Qed.

(** * One call on the shared bus behaves as if it were alone *)

Lemma omap_cons {A B} (f : A → option B) (x : A) (l : list A) :
  omap f (x :: l) = match f x with Some y => y :: omap f l | None => omap f l end.
Proof. done. Qed.

(** ** The call stays calm *)

Lemma Calm_settle_foreign k p o s :
  Closed s → owner p ≠ k → Calm k s → Calm k (Full.settle p o s).
Proof.
  intros [H1 _] Hp (C1 & C2 & C3). unfold Full.settle.
  destruct (Full.promises s !! p) as [[rs|v|e]|] eqn:HP; try done.
  unfold Calm. split_and!; cbn.
  - intros x rs' Hx. rewrite lookup_insert_ne by congruence. by apply C1.
  - intros x e Hx. rewrite lookup_insert_ne by congruence. by apply C2.
  - apply Forall_app. split; [done|]. apply Forall_fmap.
    eapply list.Forall_impl; [exact (H1 _ _ HP)|]. intros r Hr%owned_target. cbn.
    intros ?. congruence.
Qed.

Lemma Calm_settle_own k p v s :
  owner p = k → Calm k s → Calm k (Full.settle p (Full.Ok v) s).
Proof.
  intros Hp (C1 & C2 & C3). unfold Full.settle.
  destruct (Full.promises s !! p) as [[rs|w|e]|] eqn:HP; try done.
  unfold Calm. split_and!; cbn.
  - intros x rs' Hx. destruct (decide (x = p)) as [->|?].
    + by rewrite lookup_insert_eq.
    + rewrite lookup_insert_ne by done. by apply C1.
  - intros x e Hx. destruct (decide (x = p)) as [->|?].
    + by rewrite lookup_insert_eq.
    + rewrite lookup_insert_ne by done. by apply C2.
  - apply Forall_app. split; [done|]. apply Forall_fmap.
    eapply list.Forall_impl; [exact (C1 _ _ Hp HP)|]. intros r Hr. cbn. eauto.
Qed.

Lemma Calm_new_promise k p s : Calm k s → Calm k (Full.new_promise p s).
Proof.
  intros (C1 & C2 & C3). unfold Calm. split_and!; cbn; [| |done].
  - intros x rs Hx. destruct (decide (x = p)) as [->|?].
    + rewrite lookup_insert_eq. by intros [= <-].
    + rewrite lookup_insert_ne by done. by apply C1.
  - intros x e Hx. destruct (decide (x = p)) as [->|?].
    + by rewrite lookup_insert_eq.
    + rewrite lookup_insert_ne by done. by apply C2.
Qed.

Lemma Calm_subscribe k p r s :
  (owner p = k → returning r) → owner (ftarget r) = owner p →
  Calm k s → Calm k (Full.subscribe p r s).
Proof.
  intros Hr Ht (C1 & C2 & C3). unfold Full.subscribe.
  destruct (Full.promises s !! p) as [[rs|v|e]|] eqn:HP; try done.
  - unfold Calm. split_and!; cbn; [| |done].
    + intros x rs' Hx. destruct (decide (x = p)) as [->|?].
      * rewrite lookup_insert_eq. intros [= <-]. apply Forall_app. split; [by eapply C1|].
        apply Forall_singleton. by apply Hr.
      * rewrite lookup_insert_ne by done. by apply C1.
    + intros x e Hx. destruct (decide (x = p)) as [->|?].
      * by rewrite lookup_insert_eq.
      * rewrite lookup_insert_ne by done. by apply C2.
  - unfold Calm. split_and!; cbn; [done|done|].
    apply Forall_app. split; [done|]. apply Forall_singleton. cbn. intros Hk.
    split; [apply Hr; congruence|eauto].
  - unfold Calm. split_and!; cbn; [done|done|].
    apply Forall_app. split; [done|]. apply Forall_singleton. cbn. intros Hk.
    destruct (C2 p e); [congruence|done].
Qed.

Lemma Calm_pop k j Q s :
  Full.jobs s = j :: Q → Calm k s → Calm k (Full.set_jobs (λ _, Q) s).
Proof.
  intros HQ (C1 & C2 & C3). rewrite HQ in C3. apply list.Forall_cons in C3 as [_ C3].
  unfold Calm. by split_and!.
Qed.

(** ** The relation *)

Lemma Ord_same s s' : listeners s' = listeners s → Ord s → Ord s'.
Proof. unfold Ord. by intros ->. Qed.

Lemma Ord_sublist s s' : listeners s' `sublist_of` listeners s → Ord s → Ord s'.
Proof.
  unfold Ord. rewrite !list.Forall_forall. intros Hs H l Hl. apply H.
  by eapply elem_of_sublist.
Qed.

Lemma subscribe_listeners p r s : listeners (subscribe p r s) = listeners s.
Proof. unfold subscribe. by destruct (promises s !! p) as [[?|?]|]. Qed.

Section primitives_X.
Context (k N : nat) (sF : Full.app) (sM : app).
Context (HW : Wf N sF) (HX : X k sF sM).

Lemma X_settle_foreign p o : owner p ≠ k → X k (Full.settle p o sF) sM.
Proof.
  intros Hp. pose proof HX as [H1 H2 H3]. pose proof HW as [Hc _]. split; [| |done].
  - by apply sim_settle_foreign.
  - by apply Calm_settle_foreign.
Qed.

Lemma X_settle_own p v :
  owner p = k → X k (Full.settle p (Full.Ok v) sF) (resolve p v sM).
Proof.
  intros Hp. pose proof HX as [H1 H2 H3]. pose proof HW as [Hc _]. split.
  - by apply sim_settle_own.
  - by apply Calm_settle_own.
  - eapply Ord_same; [apply resolve_listeners|done].
Qed.

Lemma X_new_promise_foreign p : owner p ≠ k → X k (Full.new_promise p sF) sM.
Proof.
  intros Hp. pose proof HX as [H1 H2 H3]. split; [| |done].
  - by apply sim_new_promise_foreign.
  - by apply Calm_new_promise.
Qed.

Lemma X_new_promise_own p :
  owner p = k → X k (Full.new_promise p sF) (new_promise p sM).
Proof.
  intros Hp. pose proof HX as [H1 H2 H3]. split; [| |done].
  - by apply sim_new_promise_own.
  - by apply Calm_new_promise.
Qed.

Lemma X_subscribe_foreign p r :
  owner p ≠ k → owned (owner p) r → X k (Full.subscribe p r sF) sM.
Proof.
  intros Hp Hr. pose proof HX as [H1 H2 H3]. pose proof HW as [Hc _]. split; [| |done].
  - by apply sim_subscribe_foreign.
  - apply Calm_subscribe; [done|by apply owned_target|done].
Qed.

Lemma X_subscribe_own p r :
  owner p = k → owned k r → returning r →
  X k (Full.subscribe p r sF) (subscribe p (tr_reaction r) sM).
Proof.
  intros Hp Hr Hret. pose proof HX as [H1 H2 H3]. split.
  - apply sim_subscribe_own; [done..|by apply owned_target|].
    intros e. destruct H2 as (_ & C2 & _). by apply C2.
  - apply Calm_subscribe; [done| |done]. rewrite Hp. by apply owned_target.
  - eapply Ord_same; [apply subscribe_listeners|done].
Qed.

Lemma X_add_foreign n p :
  owner p ≠ k → X k (Full.set_listeners (λ l, l ++ [(n, p)]) sF) sM.
Proof.
  intros Hp. pose proof HX as [H1 H2 H3]. split; [|done|done]. by apply sim_add_foreign.
Qed.

Lemma X_add_own n p :
  owner p = k → ordinary n →
  X k (Full.set_listeners (λ l, l ++ [(n, p)]) sF) (once n p sM).
Proof.
  intros Hp Hn. pose proof HX as [H1 H2 H3]. split; [|done|].
  - by apply sim_add_own.
  - unfold Ord. cbn. apply Forall_app. split; [done|]. by apply Forall_singleton.
Qed.

Lemma X_remove_foreign x :
  owner x.2 ≠ k → X k (Full.set_listeners (remove_last x) sF) sM.
Proof.
  intros Hp. pose proof HX as [[Hl Hpr Hs Hj Hc Hst] H2 H3]. split; [|done|done].
  split; try done. cbn. by rewrite remove_last_filter_other.
Qed.

Lemma X_remove_own n p :
  owner p = k →
  X k (Full.set_listeners (remove_last (n, p)) sF) (removeListener n p sM).
Proof.
  intros Hp. pose proof HX as [[Hl Hpr Hs Hj Hc Hst] H2 H3]. split; [|done|].
  - split; try done. cbn. rewrite Hl. symmetry. by apply remove_last_filter_own.
  - eapply Ord_sublist; [|done]. apply remove_last_sublist.
Qed.

Lemma X_trace_F f : X k (Full.set_trace f sF) sM.
Proof. pose proof HX as [[Hl Hpr Hs Hj Hc Hst] H2 H3]. by split. Qed.

Lemma X_trace f g : X k (Full.set_trace f sF) (set_trace g sM).
Proof. pose proof HX as [[Hl Hpr Hs Hj Hc Hst] H2 H3]. by split. Qed.

Lemma X_ncalls n m : X k (Full.set_ncalls n sF) (set_ncalls m sM).
Proof. pose proof HX as [[Hl Hpr Hs Hj Hc Hst] H2 H3]. by split. Qed.

Lemma X_ncalls_F n : X k (Full.set_ncalls n sF) sM.
Proof. pose proof HX as [[Hl Hpr Hs Hj Hc Hst] H2 H3]. by split. Qed.

Lemma X_started_foreign : X k (Full.set_started true sF) sM.
Proof. pose proof HX as [[Hl Hpr Hs Hj Hc Hst] H2 H3]. by split. Qed.

Lemma X_started_own : X k (Full.set_started true sF) (set_started true sM).
Proof. pose proof HX as [[Hl Hpr Hs Hj Hc Hst] H2 H3]. by split. Qed.

Lemma X_slots_foreign q l : owner q ≠ k → X k (Full.set_slots <[q := l]> sF) sM.
Proof.
  intros Hq. pose proof HX as [[Hl Hpr Hs Hj Hc Hst] H2 H3]. split; [|done|done].
  split; try done. cbn. intros x. rewrite Hs. case_decide; [|done].
  rewrite lookup_insert_ne; [done|congruence].
Qed.

Lemma X_slots_own q l :
  owner q = k → X k (Full.set_slots <[q := l]> sF) (set_slots <[q := l]> sM).
Proof.
  intros Hq. pose proof HX as [[Hl Hpr Hs Hj Hc Hst] H2 H3]. split; [|done|done].
  split; try done. cbn. intros x. destruct (decide (x = q)) as [->|Hx].
  - rewrite !lookup_insert_eq. by rewrite decide_True.
  - rewrite !lookup_insert_ne by done. apply Hs.
Qed.

Lemma X_calls_foreign q id v :
  owner q ≠ k → X k (Full.set_calls (λ c, c ++ [(q, id, v)]) sF) sM.
Proof.
  intros Hq. pose proof HX as [[Hl Hpr Hs Hj Hc Hst] H2 H3]. split; [|done|done].
  split; try done. cbn. rewrite omap_app.
  assert (omap (tr_call k) [(q, id, v)] = []) as ->.
  { cbn. unfold tr_call. cbn. by rewrite decide_False. }
  by rewrite app_nil_r.
Qed.

Lemma X_calls_own q id v :
  owner q = k →
  X k (Full.set_calls (λ c, c ++ [(q, id, v)]) sF) (set_calls (λ c, c ++ [(id, v)]) sM).
Proof.
  intros Hq. pose proof HX as [[Hl Hpr Hs Hj Hc Hst] H2 H3]. split; [|done|done].
  split; try done. cbn. rewrite omap_app, Hc.
  assert (omap (tr_call k) [(q, id, v)] = [(id, v)]) as ->; [|done].
  cbn. unfold tr_call. cbn. by rewrite decide_True.
Qed.

Lemma X_pop_foreign j Q :
  Full.jobs sF = j :: Q → owner (ftarget j.1) ≠ k → X k (Full.set_jobs (λ _, Q) sF) sM.
Proof.
  intros HQ Hj'. pose proof HX as [[Hl Hpr Hs Hj Hc Hst] H2 H3]. split; [| |done].
  - split; try done. cbn. rewrite Hj, HQ. rewrite (omap_cons (tr_job k)).
    unfold tr_job at 1. by rewrite decide_False.
  - by eapply Calm_pop.
Qed.

Lemma X_pop_own r o Q :
  Full.jobs sF = (r, o) :: Q → owner (ftarget r) = k →
  ∃ v, o = Full.Ok v ∧ returning r
       ∧ jobs sM = (tr_reaction r, v) :: omap (tr_job k) Q
       ∧ X k (Full.set_jobs (λ _, Q) sF) (set_jobs (λ _, omap (tr_job k) Q) sM).
Proof.
  intros HQ Hr. pose proof HX as [[Hl Hpr Hs Hj Hc Hst] H2 H3].
  pose proof H2 as (_ & _ & C3). rewrite HQ in C3.
  apply list.Forall_cons in C3 as [C3 _]. destruct (C3 Hr) as (Hret & v & Hv).
  cbn in Hv. subst o.
  exists v. split_and!; [done|done| |].
  - rewrite Hj, HQ. rewrite (omap_cons (tr_job k)).
    unfold tr_job at 1. cbn. by rewrite decide_True.
  - split; [|by eapply Calm_pop|done]. by split.
Qed.
End primitives_X.

(** ** The emitter *)

Lemma removeListener_absent n p s : (n, p) ∉ listeners s → removeListener n p s = s.
Proof.
  intros H. destruct s. unfold removeListener, set_listeners. cbn in *.
  by rewrite remove_last_absent.
Qed.

Lemma filter_swap {A} (P Q : A → Prop) `{∀ x, Decision (P x)} `{∀ x, Decision (Q x)}
    (l : list A) :
  filter P (filter Q l) = filter Q (filter P l).
Proof.
  induction l as [|x l IH]; [done|]. rewrite !(filter_cons _ x).
  destruct (decide (Q x)), (decide (P x)); rewrite ?filter_cons_True, ?filter_cons_False by done;
    by rewrite IH.
Qed.

(** Events that call [k] does not listen to leave the call as it is. *)
Lemma X_emit_foreign k N sM fuel : ∀ name args sF,
  (∀ l, l ∈ listeners sM → l.1 ≠ name) →
  Wf N sF → X k sF sM → X k (Full.emit_ fuel name args sF) sM.
Proof.
  induction fuel as [|fuel IH]; intros name args sF Hplain HW HX; [done|].
  cbn [Full.emit_].
  assert (X k (Full.set_trace (λ t, t ++ [name]) sF) sM) as HX0 by by eapply X_trace_F.
  assert (Wf N (Full.set_trace (λ t, t ++ [name]) sF)) as HW0 by by apply Wf_trace.
  assert (∀ l, l ∈ filter (λ l, l.1 = name) (Full.listeners sF) → l.1 = name) as HL.
  { by intros l [? _]%list_elem_of_filter. }
  revert HX0 HW0 HL. generalize (Full.set_trace (λ t, t ++ [name]) sF).
  induction (filter (λ l, l.1 = name) (Full.listeners sF)) as [|l L IHL];
    intros s HX0 HW0 HL; [done|].
  cbn [foldl]. apply IHL; [| |intros ??; apply HL; by right].
  2:{ apply Wf_wrapper_with; [apply Wf_emit_|done]. }
  unfold Full.wrapper_with. case_decide as Hin; [|done].
  assert (owner l.2 ≠ k) as Hl.
  { intros Hk. apply (Hplain l); [|apply HL; left].
    rewrite (sim_listeners _ _ _ (X_sim _ _ _ HX0)). by apply list_elem_of_filter. }
  unfold Full.removeListener_with.
  rewrite decide_True by (by destruct l).
  assert (X k (Full.set_listeners (remove_last (l.1, l.2)) s) sM) as HX1.
  { by eapply X_remove_foreign. }
  assert (Wf N (Full.set_listeners (remove_last (l.1, l.2)) s)) as HW1 by by apply Wf_remove.
  destruct (Full.has "removeListener" s).
  - eapply X_settle_foreign; [by apply Wf_emit_| |done].
    apply IH; [|done|done]. intros l' Hl'.
    pose proof (X_ord _ _ _ HX) as HO. unfold Ord in HO. rewrite list.Forall_forall in HO.
    by destruct (HO l' Hl').
  - by eapply X_settle_foreign.
Qed.

Lemma X_emit_own_events k N sM fuel name args sF :
  ¬ ordinary name → Wf N sF → X k sF sM → X k (Full.emit_ fuel name args sF) sM.
Proof.
  intros Hn HW HX. eapply X_emit_foreign; [|done|done]. intros l Hl Heq.
  pose proof (X_ord _ _ _ HX) as HO. unfold Ord in HO. rewrite list.Forall_forall in HO.
  apply Hn. rewrite <-Heq. by apply HO.
Qed.

Lemma not_ordinary_removeListener : ¬ ordinary "removeListener".
Proof. by intros [_ ?]. Qed.

Lemma not_ordinary_newListener : ¬ ordinary "newListener".
Proof. by intros [? _]. Qed.

(** The listeners of one event run: those of call [k] as they do in the
    call alone, the others without a trace in it. *)
Lemma X_wrapper_fold k N n args fuel L : ∀ sF sM,
  Wf N sF → X k sF sM →
  NoDup (filter (λ l, owner l.2 = k) L) →
  (∀ l, l ∈ L → l.1 = n) →
  (∀ l, l ∈ L → owner l.2 = k → l ∈ listeners sM) →
  X k (foldl (Full.wrapper_with (Full.emit_ fuel) args) sF L)
      (foldl (fire n args) sM (filter (λ l, owner l.2 = k) L)).
Proof.
  induction L as [|l L IH]; intros sF sM HW HX HndL Hn Hown; [done|].
  cbn [foldl]. assert (l.1 = n) as Hl1 by (apply Hn; left).
  assert (Wf N (Full.wrapper_with (Full.emit_ fuel) args sF l)) as HW'.
  { apply Wf_wrapper_with; [apply Wf_emit_|done]. }
  rewrite filter_cons in HndL |- *. destruct (decide (owner l.2 = k)) as [Hk|Hk].
  - cbn [foldl]. apply list.NoDup_cons in HndL as [HlL HndL].
    assert (l ∈ listeners sM) as HinM by (apply Hown; [left|done]).
    assert (l ∈ Full.listeners sF) as HinF.
    { rewrite (sim_listeners _ _ _ (X_sim _ _ _ HX)) in HinM.
      by apply list_elem_of_filter in HinM as [_ ?]. }
    assert (X k (Full.wrapper_with (Full.emit_ fuel) args sF l) (fire n args sM l)) as HX'.
    { unfold Full.wrapper_with. rewrite decide_True by done.
      unfold Full.removeListener_with. rewrite decide_True by (by destruct l).
      assert (X k (Full.set_listeners (remove_last (l.1, l.2)) sF)
                (removeListener n l.2 sM)) as HX1.
      { rewrite <-Hl1. by eapply X_remove_own. }
      assert (Wf N (Full.set_listeners (remove_last (l.1, l.2)) sF)) as HW1
        by by apply Wf_remove.
      unfold fire. destruct (Full.has "removeListener" sF).
      - eapply X_settle_own; [by apply Wf_emit_| |done].
        by apply (X_emit_own_events k N); [apply not_ordinary_removeListener|..].
      - by eapply X_settle_own. }
    apply IH; try done.
    + intros ? ?. apply Hn. by right.
    + intros l' Hl' Hk'. unfold fire. rewrite resolve_listeners. cbn.
      destruct (remove_last_keeps (n, l.2) l' (listeners sM)) as [?|Heq]; [|done|].
      * apply Hown; [by right|done].
      * exfalso. apply HlL. apply list_elem_of_filter. split; [done|].
        destruct l as [a b]. cbn in *. by subst.
  - assert (X k (Full.wrapper_with (Full.emit_ fuel) args sF l) sM) as HX1.
    { unfold Full.wrapper_with. case_decide as Hin; [|done].
      unfold Full.removeListener_with. rewrite decide_True by (by destruct l).
      assert (X k (Full.set_listeners (remove_last (l.1, l.2)) sF) sM) as HX1.
      { by eapply X_remove_foreign. }
      assert (Wf N (Full.set_listeners (remove_last (l.1, l.2)) sF)) as HW1
        by by apply Wf_remove.
      destruct (Full.has "removeListener" sF).
      - eapply X_settle_foreign; [by apply Wf_emit_| |done].
        by apply (X_emit_own_events k N); [apply not_ordinary_removeListener|..].
      - by eapply X_settle_foreign. }
    apply IH; try done.
    + intros ? ?. apply Hn. by right.
    + intros l' ? ?. apply Hown; [by right|done].
Qed.

(** [emit] on the shared bus is [emit] in the call alone. *)
Lemma X_emit k N n args sF sM :
  Wf N sF → X k sF sM → NoDup (listeners sM) →
  X k (Full.emit n args sF) (emit n args sM).
Proof.
  intros HW HX Hnd. unfold Full.emit, emit. cbn [Full.emit_].
  pose proof (sim_listeners _ _ _ (X_sim _ _ _ HX)) as Hl.
  assert (filter (λ l, l.1 = n) (listeners sM)
          = filter (λ l, owner l.2 = k) (filter (λ l, l.1 = n) (Full.listeners sF))) as ->.
  { rewrite Hl. apply filter_swap. }
  apply (X_wrapper_fold k N).
  - by apply Wf_trace.
  - by eapply X_trace.
  - rewrite filter_swap, <-Hl. by apply list.NoDup_filter.
  - by intros l [? _]%list_elem_of_filter.
  - intros l [? Hin]%list_elem_of_filter Hk. cbn. rewrite Hl. by apply list_elem_of_filter.
Qed.

(** [removeListener], called by a cleanup. *)
Lemma X_removeListener_own k N n p sF sM :
  owner p = k → Wf N sF → X k sF sM →
  X k (Full.removeListener n p sF) (removeListener n p sM).
Proof.
  intros Hp HW HX. unfold Full.removeListener, Full.removeListener_with.
  case_decide as Hin.
  - assert (X k (Full.set_listeners (remove_last (n, p)) sF) (removeListener n p sM)) as HX1
      by by eapply X_remove_own.
    destruct (Full.has _ _); [|done].
    apply (X_emit_own_events k N); [apply not_ordinary_removeListener| |done].
    by apply Wf_remove.
  - rewrite removeListener_absent; [done|]. intros HinM. apply Hin.
    rewrite (sim_listeners _ _ _ (X_sim _ _ _ HX)) in HinM.
    by apply list_elem_of_filter in HinM as [_ ?].
Qed.

Lemma X_removeListener_foreign k N n p sF sM :
  owner p ≠ k → Wf N sF → X k sF sM → X k (Full.removeListener n p sF) sM.
Proof.
  intros Hp HW HX. unfold Full.removeListener, Full.removeListener_with.
  case_decide as Hin; [|done].
  assert (X k (Full.set_listeners (remove_last (n, p)) sF) sM) as HX1
    by by eapply X_remove_foreign.
  destruct (Full.has _ _); [|done].
  apply (X_emit_own_events k N); [apply not_ordinary_removeListener| |done].
  by apply Wf_remove.
Qed.

(** [once], called by a combinator. *)
Lemma X_once_own k N n p sF sM :
  owner p = k → ordinary n → Wf N sF → X k sF sM →
  X k (Full.once n p sF) (once n p sM).
Proof.
  intros Hp Hn HW HX. unfold Full.once. destruct (Full.has _ _).
  - eapply X_add_own; [|done..].
    by apply (X_emit_own_events k N); [apply not_ordinary_newListener|..].
  - by eapply X_add_own.
Qed.

Lemma X_once_foreign k N n p sF sM :
  owner p ≠ k → Wf N sF → X k sF sM → X k (Full.once n p sF) sM.
Proof.
  intros Hp HW HX. unfold Full.once. destruct (Full.has _ _).
  - eapply X_add_foreign; [|done].
    by apply (X_emit_own_events k N); [apply not_ordinary_newListener|..].
  - by eapply X_add_foreign.
Qed.

(** ** Promise jobs *)

Ltac owned_head H :=
  let H' := fresh in
  pose proof H as H'; unfold owned in H'; cbn in H';
  apply list.Forall_cons in H' as [H' _]; first [exact H'|by rewrite H'].

Lemma X_cleanup_own k N p events : ∀ sF sM,
  owner p = k → Wf N sF → X k sF sM →
  X k (foldl (λ s eventName, Full.removeListener eventName p s) sF events)
      (foldl (λ s eventName, removeListener eventName p s) sM events).
Proof.
  induction events as [|e events IH]; intros sF sM Hp HW HX; [done|]. cbn [foldl].
  apply IH; [done|by apply Wf_removeListener|by eapply X_removeListener_own].
Qed.

Lemma X_cleanup_foreign k N p events : ∀ sF sM,
  owner p ≠ k → Wf N sF → X k sF sM →
  X k (foldl (λ s eventName, Full.removeListener eventName p s) sF events) sM.
Proof.
  induction events as [|e events IH]; intros sF sM Hp HW HX; [done|]. cbn [foldl].
  apply IH; [done|by apply Wf_removeListener|by eapply X_removeListener_foreign].
Qed.

Lemma cleanup_none_F events : ∀ s : Full.app,
  foldl (λ s (eventName : string), s) s events = s.
Proof. induction events as [|e events IH]; intros s; [done|]. by cbn. Qed.

Lemma cleanup_none events : ∀ s : app,
  foldl (λ s (eventName : string), s) s events = s.
Proof. induction events as [|e events IH]; intros s; [done|]. by cbn. Qed.

Section jobs.
Context (k N : nat) (sF : Full.app) (sM : app).
Context (HW : Wf N sF) (HX : X k sF sM).

Lemma X_call_handler_own q h v :
  owner q = k → (∀ p, h = Full.HResolve p → owner p = k) →
  (∀ id body, h = Full.HUser id body → ∃ w, body v = Full.Return w) →
  X k (Full.call_handler q h v sF).1 (call_handler (tr_handler h) v sM).1
  ∧ ∃ w, (Full.call_handler q h v sF).2 = Full.Return w.
Proof.
  intros Hq Hres Hret. destruct h as [|id body|p]; cbn.
  - split; [done|by eexists].
  - split; [by eapply X_calls_own|]. by eapply Hret.
  - split; [|by eexists]. eapply X_settle_own; [done..|]. by apply Hres.
Qed.

Lemma X_call_handler_foreign q h v :
  owner q ≠ k → (∀ p, h = Full.HResolve p → owner p ≠ k) →
  X k (Full.call_handler q h v sF).1 sM.
Proof.
  intros Hq Hres. destruct h as [|id body|p]; cbn.
  - done.
  - by eapply X_calls_foreign.
  - eapply X_settle_foreign; [done..|]. by apply Hres.
Qed.

Lemma X_run_callback_own q kb v :
  owned k (Full.RThen kb q) → returning (Full.RThen kb q) →
  X k (Full.run_callback q kb v sF).1 (run_callback (tr_callback kb) v sM).1
  ∧ (Full.run_callback q kb v sF).2 = Full.Return (run_callback (tr_callback kb) v sM).2.
Proof.
  intros Hown Hret. pose proof (owned_target _ _ Hown) as Hq. cbn in Hq.
  destruct kb as [h|events rc|h|]; cbn.
  - destruct (X_call_handler_own q h (VArr [v]) Hq) as [H1 [w H2]].
    { intros p ->. owned_head Hown. }
    { intros id body ->. apply Hret. }
    destruct (Full.call_handler q h (VArr [v]) sF) as [sF' res].
    destruct (call_handler (tr_handler h) (VArr [v]) sM) as [sM' res'].
    cbn in *. by subst.
  - split; [|done]. destruct rc as [p|].
    + eapply X_cleanup_own; [|done..]. owned_head Hown.
    + by rewrite cleanup_none_F, cleanup_none.
  - destruct (X_call_handler_own q h v Hq) as [H1 [w H2]].
    { intros p ->. owned_head Hown. }
    { intros id body ->. apply Hret. }
    destruct (Full.call_handler q h v sF) as [sF' res].
    destruct (call_handler (tr_handler h) v sM) as [sM' res'].
    cbn in *. by subst.
  - split; [|done]. by eapply X_started_own.
Qed.

Lemma X_run_callback_foreign q kb v :
  owner q ≠ k → owned (owner q) (Full.RThen kb q) →
  X k (Full.run_callback q kb v sF).1 sM.
Proof.
  intros Hq Hown. destruct kb as [h|events rc|h|]; cbn.
  - pose proof (X_call_handler_foreign q h (VArr [v]) Hq) as H1.
    destruct (Full.call_handler q h (VArr [v]) sF) as [sF' res]. apply H1.
    intros p ->. owned_head Hown.
  - destruct rc as [p|].
    + eapply X_cleanup_foreign; [|done..]. owned_head Hown.
    + by rewrite cleanup_none_F.
  - pose proof (X_call_handler_foreign q h v Hq) as H1.
    destruct (Full.call_handler q h v sF) as [sF' res]. apply H1.
    intros p ->. owned_head Hown.
  - by eapply X_started_foreign.
Qed.

Lemma X_run_job_own r v :
  owned k r → returning r → k < N →
  X k (Full.run_job (r, Full.Ok v) sF) (run_job (tr_reaction r, v) sM).
Proof.
  intros Hown Hret Hk. pose proof (owned_target _ _ Hown) as Hq.
  destruct r as [kb q|q|q i]; cbn in Hq; cbn [Full.run_job run_job tr_reaction].
  - destruct (X_run_callback_own q kb v Hown Hret) as [H1 H2].
    pose proof (Wf_run_callback N q kb v sF) as HW1.
    destruct (Full.run_callback q kb v sF) as [sF' res].
    destruct (run_callback (tr_callback kb) v sM) as [sM' w]. cbn in *. subst res.
    eapply X_settle_own; [|done..]. apply HW1; [lia|done].
  - by eapply X_settle_own.
  - rewrite (sim_slots _ _ _ (X_sim _ _ _ HX)), decide_True by done.
    destruct (Full.slots sF !! q) as [l|]; [|done].
    destruct (l !! i) as [[x|]|]; try done.
    unfold Full.filled, filled. destruct (mapM id (<[i:=Some v]> l)).
    + eapply X_settle_own; [|by eapply X_slots_own|done]. apply Wf_slots; [done|lia].
    + by eapply X_slots_own.
Qed.

Lemma X_run_job_foreign j :
  owner (ftarget j.1) ≠ k → owned (owner (ftarget j.1)) j.1 → owner (ftarget j.1) < N →
  X k (Full.run_job j sF) sM.
Proof.
  intros Hq Hown HN. destruct j as [[kb q|q|q i] [v|e]]; cbn in Hq, Hown, HN;
    cbn [Full.run_job].
  - pose proof (X_run_callback_foreign q kb v Hq Hown) as H1.
    pose proof (Wf_run_callback N q kb v sF HN HW) as HW1.
    destruct (Full.run_callback q kb v sF) as [sF' res]. cbn in *.
    by eapply X_settle_foreign.
  - by eapply X_settle_foreign.
  - by eapply X_settle_foreign.
  - by eapply X_settle_foreign.
  - destruct (Full.slots sF !! q) as [l|]; [|done].
    destruct (l !! i) as [[x|]|]; try done.
    destruct (Full.filled _).
    + eapply X_settle_foreign; [|by eapply X_slots_foreign|done]. by apply Wf_slots.
    + by eapply X_slots_foreign.
  - by eapply X_settle_foreign.
Qed.
End jobs.

(** One job of the shared queue: a job of call [k] is the next job of the
    call alone; any other job is none of it. *)
Lemma X_step k N sF sM :
  Wf N sF → X k sF sM → X k (Full.step sF) sM ∨ X k (Full.step sF) (step sM).
Proof.
  intros HW HX. unfold Full.step. destruct (Full.jobs sF) as [|[r o] Q] eqn:HQ; [by left|].
  destruct (Wf_pop N sF HW _ _ HQ) as (HW1 & Hown & HN). cbn in Hown, HN.
  destruct (decide (owner (ftarget r) = k)) as [Hk|Hk].
  - right. destruct (X_pop_own k sF sM HX r o Q HQ Hk) as (v & -> & Hret & HjM & HX1).
    unfold step. rewrite HjM. rewrite Hk in Hown, HN.
    exact (X_run_job_own k N _ _ HW1 HX1 r v Hown Hret HN).
  - left. apply (X_run_job_foreign k N _ _ HW1); [|done..].
    by eapply (X_pop_foreign k sF sM HX (r, o) Q).
Qed.

Lemma X_iter_step k N n : ∀ sF sM,
  Wf N sF → X k sF sM → ∃ m, X k (Nat.iter n Full.step sF) (Nat.iter m step sM).
Proof.
  induction n as [|n IH]; intros sF sM HW HX; [by exists 0|].
  destruct (IH sF sM HW HX) as [m Hm]. cbn [Nat.iter].
  destruct (X_step k N _ _ (Wf_iter_step N n sF HW) Hm) as [H|H].
  - by exists m.
  - by exists (S m).
Qed.

(** ** The combinators *)

(** *** The call itself *)

Lemma X_then_own k N p kb q sF sM :
  owner p = k → k < N → owned k (Full.RThen kb q) → returning (Full.RThen kb q) →
  Wf N sF → X k sF sM →
  X k (Full.then_ p kb q sF) (then_ p (tr_callback kb) q sM).
Proof.
  intros Hp Hk Hown Hret HW HX. pose proof (owned_target _ _ Hown) as Hq. cbn in Hq.
  unfold Full.then_, then_.
  apply (X_subscribe_own k _ _ (X_new_promise_own k sF sM HX q Hq) p (Full.RThen kb q)); done.
Qed.

Lemma X_listen_fold_own k N c events : ∀ sF sM ps rc,
  caller c = k → k < N → Forall ordinary events → Wf N sF → X k sF sM →
  X k (foldl (Full.listen c) (sF, ps, rc) events).1.1
      (foldl (listen c) (sM, ps, rc) events).1.1
  ∧ (foldl (Full.listen c) (sF, ps, rc) events).1.2 = (foldl (listen c) (sM, ps, rc) events).1.2
  ∧ (foldl (Full.listen c) (sF, ps, rc) events).2 = (foldl (listen c) (sM, ps, rc) events).2.
Proof.
  induction events as [|e events IH]; intros sF sM ps rc Hc Hk Hord HW HX; [done|].
  apply list.Forall_cons in Hord as [He Hord]. cbn [foldl Full.listen listen].
  assert (owner (PListener c (length ps)) = k) as Ho by (by destruct c).
  apply IH; [done..| |].
  - apply Wf_once; [lia|]. apply Wf_new_promise; [done|lia].
  - apply (X_once_own k N); [done..| |].
    + apply Wf_new_promise; [done|lia].
    + by eapply X_new_promise_own.
Qed.

Lemma X_race_own k N r ps : ∀ sF sM,
  owner r = k → Forall (λ p, owner p = k) ps → Wf N sF → X k sF sM →
  X k (foldl (λ s p, Full.subscribe p (Full.RRace r) s) sF ps)
      (foldl (λ s p, subscribe p (RRace r) s) sM ps).
Proof.
  induction ps as [|p ps IH]; intros sF sM Hr Hps HW HX; [done|].
  apply list.Forall_cons in Hps as [Hp Hps]. cbn [foldl]. apply IH; [done..| |].
  - apply Wf_subscribe; [done|]. apply owned_race. congruence.
  - apply (X_subscribe_own k _ _ HX p (Full.RRace r)); [done| |done].
    by apply owned_race.
Qed.

Lemma X_onceAny_own k N c events h sF sM :
  caller c = k → k < N →
  Forall ordinary (match events with OneName n => [n] | Names ns => ns end) →
  (∀ p, h = Full.HResolve p → owner p = k) → returns h →
  Wf N sF → X k sF sM →
  X k (Full.onceAny c events h sF).2 (onceAny c events (tr_handler h) sM).2.
Proof.
  intros Hc Hk Hord Hh Hret HW HX. unfold Full.onceAny, onceAny.
  set (g := match events with OneName n => [n] | Names ns => ns end) in *.
  destruct (X_listen_fold_own k N c g sF sM [] None Hc Hk Hord HW HX) as (H1 & H2 & H3).
  destruct (Wf_listen_fold N c g sF [] None) as (W1 & W2 & W3); [lia|done..|].
  destruct (foldl (Full.listen c) (sF, [], None) g) as [[sF1 ps] rc].
  destruct (foldl (listen c) (sM, [], None) g) as [[sM1 ps'] rc'].
  cbn in H1, H2, H3, W1, W2, W3. subst ps' rc'. cbn [snd].
  assert (owner (PRace c) = k) as Hr by (by destruct c).
  assert (owner (PHandled c) = k) as Hh' by (by destruct c).
  assert (owner (PCleaned c) = k) as Hcl by (by destruct c).
  assert (Forall (λ p, owner p = k) ps) as W2'.
  { eapply list.Forall_impl; [done|]. cbn. intros; congruence. }
  assert (Wf N (Full.race (PRace c) ps sF1)) as W4.
  { unfold Full.race. apply Wf_race.
    - eapply list.Forall_impl; [exact W2'|]. intros p Hp. cbn beta. rewrite Hp. symmetry.
      exact Hr.
    - apply Wf_new_promise; [done|lia]. }
  assert (X k (Full.race (PRace c) ps sF1) (race (PRace c) ps sM1)) as H4.
  { unfold Full.race, race. apply (X_race_own k N); [done|done| |].
    - apply Wf_new_promise; [done|lia].
    - by eapply X_new_promise_own. }
  assert (owned k (Full.RThen (Full.KHandlerWrapperAny h) (PHandled c))) as O1.
  { by apply owned_then_any. }
  assert (owned k (Full.RThen (Full.KCleanup g rc) (PCleaned c))) as O2.
  { apply owned_cleanup; [done|]. intros p Hp. rewrite (W3 p Hp). done. }
  apply (X_then_own k N (PHandled c) (Full.KCleanup g rc)); [done..| |].
  - apply Wf_then; [lia| |done]. by rewrite Hr.
  - apply (X_then_own k N (PRace c) (Full.KHandlerWrapperAny h)); [done..| |done|done].
    by destruct h.
Qed.

Lemma X_await_fold_own k N events : ∀ sF sM ps,
  k < N → Forall (λ e, match e with
                       | Name n => ordinary n
                       | AnyOf ns => Forall ordinary ns
                       end) events →
  Wf N sF → X k sF sM →
  X k (foldl (Full.await k) (sF, ps) events).1 (foldl (await k) (sM, ps) events).1
  ∧ (foldl (Full.await k) (sF, ps) events).2 = (foldl (await k) (sM, ps) events).2.
Proof.
  induction events as [|e events IH]; intros sF sM ps Hk Hord HW HX; [done|].
  apply list.Forall_cons in Hord as [He Hord]. cbn [foldl Full.await await].
  assert (Wf N (Full.new_promise (PElement k (length ps)) sF)) as HW1.
  { by apply Wf_new_promise. }
  assert (X k (Full.new_promise (PElement k (length ps)) sF)
              (new_promise (PElement k (length ps)) sM)) as HX1.
  { by eapply X_new_promise_own. }
  apply IH; [done..| |].
  - destruct e as [n|ns].
    + by apply Wf_once.
    + apply Wf_onceAny; [done| |done]. by intros p [= <-].
  - destruct e as [n|ns].
    + by apply (X_once_own k N).
    + apply (X_onceAny_own k N (Nested k (length ps)) (Names ns)
               (Full.HResolve (PElement k (length ps)))); try done.
      by intros p [= <-].
Qed.

Lemma X_all_fold_own k N q (ips : list (nat * pid)) : ∀ sF sM,
  owner q = k → Forall (λ ip, owner ip.2 = k) ips → Wf N sF → X k sF sM →
  X k (foldl (λ s ip, Full.subscribe ip.2 (Full.RAll q ip.1) s) sF ips)
      (foldl (λ s ip, subscribe ip.2 (RAll q ip.1) s) sM ips).
Proof.
  induction ips as [|ip ips IH]; intros sF sM Hq Hps HW HX; [done|].
  apply list.Forall_cons in Hps as [Hp Hps]. cbn [foldl]. apply IH; [done..| |].
  - apply Wf_subscribe; [done|]. apply owned_all. congruence.
  - apply (X_subscribe_own k _ _ HX ip.2 (Full.RAll q ip.1)); [done| |done].
    by apply owned_all.
Qed.

Lemma X_all_own k N q ps sF sM :
  owner q = k → k < N → Forall (λ p, owner p = k) ps → Wf N sF → X k sF sM →
  X k (Full.all q ps sF) (all q ps sM).
Proof.
  intros Hq Hk Hps HW HX. unfold Full.all, all.
  assert (Forall (λ ip : nat * pid, owner ip.2 = k) (imap pair ps)) as Hips.
  { apply list.Forall_forall. intros [i p] Hip. cbn.
    apply elem_of_lookup_imap in Hip as (i' & p' & [= -> ->] & Hl).
    rewrite list.Forall_forall in Hps. apply Hps. by eapply list_elem_of_lookup_2. }
  assert (Wf N (Full.set_slots <[q := replicate (length ps) None]> (Full.new_promise q sF)))
    as HW1.
  { apply Wf_slots; [|lia]. apply Wf_new_promise; [done|lia]. }
  assert (X k (Full.set_slots <[q := replicate (length ps) None]> (Full.new_promise q sF))
              (set_slots <[q := replicate (length ps) None]> (new_promise q sM))) as HX1.
  { eapply X_slots_own; [|done]. by eapply X_new_promise_own. }
  pose proof (X_all_fold_own k N q (imap pair ps) _ _ Hq Hips HW1 HX1) as HX2.
  case_decide; [|done]. eapply X_settle_own; [| |done]; [|done].
  apply Wf_all_fold; [|done].
  eapply list.Forall_impl; [done|]. cbn. intros; congruence.
Qed.

Lemma X_after_own k N events h sF sM :
  k < N →
  Forall ordinary_element (match events with OneEvent n => [Name n] | Events es => es end) →
  (∀ p, h ≠ Full.HResolve p) → returns h →
  Wf N sF → X k sF sM →
  X k (Full.after k events h sF).2 (after k events (tr_handler h) sM).2.
Proof.
  intros Hk Hord Hh Hret HW HX. unfold Full.after, after.
  set (es := match events with OneEvent n => [Name n] | Events es => es end) in *.
  destruct (X_await_fold_own k N es sF sM [] Hk Hord HW HX) as (H1 & H2).
  destruct (Wf_await_fold N k es sF [] Hk HW) as [W1 W2]; [done|].
  destruct (foldl (Full.await k) (sF, []) es) as [sF1 ps].
  destruct (foldl (await k) (sM, []) es) as [sM1 ps'].
  cbn in H1, H2, W1, W2. subst ps'. cbn [snd].
  apply (X_then_own k N (PAll k) (Full.KHandlerWrapperAll h)); [done..| | | |].
  - apply owned_then_all; [done|]. intros p Hp. by destruct (Hh p).
  - by destruct h.
  - by apply Wf_all.
  - by apply (X_all_own k N).
Qed.



(** *** The calls of others *)

Lemma X_then_foreign k N p kb q sF sM :
  owner p ≠ k → owner q < N → owned (owner p) (Full.RThen kb q) →
  Wf N sF → X k sF sM → X k (Full.then_ p kb q sF) sM.
Proof.
  intros Hp Hk Hown HW HX. pose proof (owned_target _ _ Hown) as Hq. cbn in Hq.
  unfold Full.then_.
  apply (X_subscribe_foreign k N _ _ (Wf_new_promise N sF HW q Hk)); [|done..].
  apply X_new_promise_foreign; [done|congruence].
Qed.

Lemma X_listen_fold_foreign k N c events : ∀ sF sM ps rc,
  caller c ≠ k → caller c < N → Wf N sF → X k sF sM →
  X k (foldl (Full.listen c) (sF, ps, rc) events).1.1 sM.
Proof.
  induction events as [|e events IH]; intros sF sM ps rc Hc Hk HW HX; [done|].
  cbn [foldl Full.listen].
  assert (owner (PListener c (length ps)) = caller c) as Ho by (by destruct c).
  apply IH; [done..| |].
  - apply Wf_once; [lia|]. apply Wf_new_promise; [done|lia].
  - apply (X_once_foreign k N); [congruence| |].
    + apply Wf_new_promise; [done|lia].
    + apply X_new_promise_foreign; [done|congruence].
Qed.

Lemma X_race_foreign k N r ps : ∀ sF sM,
  owner r ≠ k → Forall (λ p, owner p = owner r) ps → Wf N sF → X k sF sM →
  X k (foldl (λ s p, Full.subscribe p (Full.RRace r) s) sF ps) sM.
Proof.
  induction ps as [|p ps IH]; intros sF sM Hr Hps HW HX; [done|].
  apply list.Forall_cons in Hps as [Hp Hps]. cbn [foldl]. apply IH; [done..| |].
  - apply Wf_subscribe; [done|]. by apply owned_race.
  - apply (X_subscribe_foreign k N _ _ HW HX); [congruence|]. by apply owned_race.
Qed.

Lemma X_onceAny_foreign k N c events h sF sM :
  caller c ≠ k → caller c < N → (∀ p, h = Full.HResolve p → owner p = caller c) →
  Wf N sF → X k sF sM → X k (Full.onceAny c events h sF).2 sM.
Proof.
  intros Hc Hk Hh HW HX. unfold Full.onceAny.
  set (g := match events with OneName n => [n] | Names ns => ns end) in *.
  pose proof (X_listen_fold_foreign k N c g sF sM [] None Hc Hk HW HX) as H1.
  destruct (Wf_listen_fold N c g sF [] None) as (W1 & W2 & W3); [lia|done..|].
  destruct (foldl (Full.listen c) (sF, [], None) g) as [[sF1 ps] rc].
  cbn in H1, W1, W2, W3. cbn [snd].
  assert (owner (PRace c) = caller c) as Hr by (by destruct c).
  assert (owner (PHandled c) = caller c) as Hh' by (by destruct c).
  assert (owner (PCleaned c) = caller c) as Hcl by (by destruct c).
  assert (Forall (λ p, owner p = owner (PRace c)) ps) as W2'.
  { eapply list.Forall_impl; [done|]. intros p Hp. cbn beta. by rewrite Hp, Hr. }
  assert (Wf N (Full.race (PRace c) ps sF1)) as W4.
  { unfold Full.race. apply Wf_race; [done|]. apply Wf_new_promise; [done|lia]. }
  assert (X k (Full.race (PRace c) ps sF1) sM) as H4.
  { unfold Full.race. apply (X_race_foreign k N); [congruence|done| |].
    - apply Wf_new_promise; [done|lia].
    - apply X_new_promise_foreign; [done|congruence]. }
  assert (owned (owner (PRace c)) (Full.RThen (Full.KHandlerWrapperAny h) (PHandled c))) as O1.
  { apply owned_then_any; [congruence|]. intros p Hp. rewrite (Hh p Hp). done. }
  assert (owned (owner (PHandled c)) (Full.RThen (Full.KCleanup g rc) (PCleaned c))) as O2.
  { apply owned_cleanup; [congruence|]. intros p Hp. rewrite (W3 p Hp). done. }
  apply (X_then_foreign k N); [congruence|lia|done| |].
  - apply Wf_then; [lia|done|done].
  - apply (X_then_foreign k N); [congruence|lia|done|done|done].
Qed.

Lemma X_await_fold_foreign k N j events : ∀ sF sM ps,
  j ≠ k → j < N → Wf N sF → X k sF sM →
  X k (foldl (Full.await j) (sF, ps) events).1 sM.
Proof.
  induction events as [|e events IH]; intros sF sM ps Hj Hk HW HX; [done|].
  cbn [foldl Full.await].
  assert (Wf N (Full.new_promise (PElement j (length ps)) sF)) as HW1.
  { by apply Wf_new_promise. }
  assert (X k (Full.new_promise (PElement j (length ps)) sF) sM) as HX1.
  { by apply X_new_promise_foreign. }
  apply IH; [done..| |].
  - destruct e as [n|ns].
    + by apply Wf_once.
    + apply Wf_onceAny; [done| |done]. by intros p [= <-].
  - destruct e as [n|ns].
    + by apply (X_once_foreign k N).
    + apply (X_onceAny_foreign k N); try done. by intros p [= <-].
Qed.

Lemma X_all_fold_foreign k N q (ips : list (nat * pid)) : ∀ sF sM,
  owner q ≠ k → Forall (λ ip, owner ip.2 = owner q) ips → Wf N sF → X k sF sM →
  X k (foldl (λ s ip, Full.subscribe ip.2 (Full.RAll q ip.1) s) sF ips) sM.
Proof.
  induction ips as [|ip ips IH]; intros sF sM Hq Hps HW HX; [done|].
  apply list.Forall_cons in Hps as [Hp Hps]. cbn [foldl]. apply IH; [done..| |].
  - apply Wf_subscribe; [done|]. by apply owned_all.
  - apply (X_subscribe_foreign k N _ _ HW HX); [congruence|]. by apply owned_all.
Qed.

Lemma X_all_foreign k N q ps sF sM :
  owner q ≠ k → owner q < N → Forall (λ p, owner p = owner q) ps → Wf N sF → X k sF sM →
  X k (Full.all q ps sF) sM.
Proof.
  intros Hq Hk Hps HW HX. unfold Full.all.
  assert (Forall (λ ip : nat * pid, owner ip.2 = owner q) (imap pair ps)) as Hips.
  { apply list.Forall_forall. intros [i p] Hip. cbn.
    apply elem_of_lookup_imap in Hip as (i' & p' & [= -> ->] & Hl).
    rewrite list.Forall_forall in Hps. apply Hps. by eapply list_elem_of_lookup_2. }
  assert (Wf N (Full.set_slots <[q := replicate (length ps) None]> (Full.new_promise q sF)))
    as HW1.
  { apply Wf_slots; [|done]. by apply Wf_new_promise. }
  assert (X k (Full.set_slots <[q := replicate (length ps) None]> (Full.new_promise q sF)) sM)
    as HX1.
  { apply X_slots_foreign; [|done]. by apply X_new_promise_foreign. }
  pose proof (X_all_fold_foreign k N q (imap pair ps) _ _ Hq Hips HW1 HX1) as HX2.
  case_decide; [|done]. eapply X_settle_foreign; [|done..].
  by apply Wf_all_fold.
Qed.

Lemma X_after_foreign k N j events h sF sM :
  j ≠ k → j < N → (∀ p, h ≠ Full.HResolve p) → Wf N sF → X k sF sM →
  X k (Full.after j events h sF).2 sM.
Proof.
  intros Hj Hk Hh HW HX. unfold Full.after.
  set (es := match events with OneEvent n => [Name n] | Events es => es end) in *.
  pose proof (X_await_fold_foreign k N j es sF sM [] Hj Hk HW HX) as H1.
  destruct (Wf_await_fold N j es sF [] Hk HW) as [W1 W2]; [done|].
  destruct (foldl (Full.await j) (sF, []) es) as [sF1 ps].
  cbn in H1, W1, W2. cbn [snd].
  apply (X_then_foreign k N); [done|done| | |].
  - apply owned_then_all; [done|]. intros p Hp. by destruct (Hh p).
  - by apply Wf_all.
  - by apply (X_all_foreign k N).
Qed.

Lemma X_start_foreign k N j sF sM :
  j ≠ k → j < N → Wf N sF → X k sF sM → X k (Full.start j sF).2 sM.
Proof.
  intros Hj Hk HW HX. rewrite start_state_F.
  apply (X_then_foreign k N); [done|done|by apply owned_started| |].
  - by apply Wf_after.
  - by apply (X_after_foreign k N).
Qed.

(** ** The rest of the program *)

Lemma emissions_F_cons a script :
  Full.emissions (a :: script) = Full.emissions [a] ++ Full.emissions script.
Proof. unfold Full.emissions. cbn. by destruct a. Qed.

Lemma emissions_F_app s1 s2 :
  Full.emissions (s1 ++ s2) = Full.emissions s1 ++ Full.emissions s2.
Proof. unfold Full.emissions. apply omap_app. Qed.

Lemma Inv_listeners_nodup S hist s : Inv S hist s → NoDup (listeners s).
Proof. intros HI. eapply NoDup_fmap_1, (inv_nodup _ _ _ HI). Qed.

Section alone.
Context (S : system) (Hwf : from_caller (caller_handler S)).
Let k := run_of S.

(** What the shared application does next, and what the call alone does
    with it. *)
Lemma X_perform hist sF sM a :
  Wf (Full.ncalls sF) sF → k < Full.ncalls sF → X k sF sM → Inv S hist sM →
  ∃ sM', X k (Full.perform sF a) sM' ∧ Inv S (hist ++ Full.emissions [a]) sM'.
Proof.
  intros HW Hk HX HI. destruct a as [name args| | |events f|events f|];
    cbn [Full.perform]; rewrite ?app_nil_r.
  - exists (emit name args sM). split.
    + eapply X_emit; [done..|]. by eapply Inv_listeners_nodup.
    + by apply Inv_emit.
  - destruct (X_iter_step k _ (Full.backlog sF) sF sM HW HX) as [m Hm].
    exists (Nat.iter m step sM). split; [done|]. by apply Inv_iter_step.
  - destruct (X_step k _ sF sM HW HX) as [H|H].
    + by exists sM.
    + exists (step sM). split; [done|]. by apply Inv_step.
  - exists sM. split; [|done]. unfold Full.call_onceAny.
    apply (X_onceAny_foreign k (Datatypes.S (Full.ncalls sF))); cbn; [lia|lia| | |].
    + intros p Hp. by destruct (given_caller f p).
    + apply Wf_ncalls. eapply Wf_mono; [|done]. lia.
    + by eapply X_ncalls_F.
  - exists sM. split; [|done]. unfold Full.call_after.
    apply (X_after_foreign k (Datatypes.S (Full.ncalls sF))); [lia|lia|apply given_caller| |].
    + apply Wf_ncalls. eapply Wf_mono; [|done]. lia.
    + by eapply X_ncalls_F.
  - exists sM. split; [|done]. unfold Full.call_start.
    apply (X_start_foreign k (Datatypes.S (Full.ncalls sF))); [lia|lia| |].
    + apply Wf_ncalls. eapply Wf_mono; [|done]. lia.
    + by eapply X_ncalls_F.
Qed.

Lemma X_run script : ∀ hist sF sM,
  Wf (Full.ncalls sF) sF → k < Full.ncalls sF → X k sF sM → Inv S hist sM →
  ∃ sM', X k (Full.run script sF) sM' ∧ Inv S (hist ++ Full.emissions script) sM'.
Proof.
  induction script as [|a script IH]; intros hist sF sM HW Hk HX HI.
  - exists sM. by rewrite app_nil_r.
  - destruct (X_perform hist sF sM a HW Hk HX HI) as (sM1 & HX1 & HI1).
    destruct (IH (hist ++ Full.emissions [a]) _ sM1 (Wf_perform sF a HW))
      as (sM2 & HX2 & HI2); [|done|done|].
    + rewrite ncalls_perform. destruct (is_call a); lia.
    + exists sM2. split; [done|]. by rewrite emissions_F_cons, app_assoc.
Qed.

(** The shared queue run until it is empty: so is the queue of the call. *)
Lemma X_drain hist sF sM :
  Wf (Full.ncalls sF) sF → X k sF sM → Inv S hist sM →
  ∃ sM', X k (Full.drain sF) sM' ∧ Inv S hist sM' ∧ jobs sM' = [].
Proof.
  intros HW HX HI.
  destruct (X_iter_step k _ (Full.backlog sF) sF sM HW HX) as [m Hm].
  exists (Nat.iter m step sM). split_and!; [done|by apply Inv_iter_step|].
  rewrite (sim_jobs _ _ _ (X_sim _ _ _ Hm)).
  change (Nat.iter (Full.backlog sF) Full.step sF) with (Full.drain sF).
  by rewrite drain_quiescent_F.
Qed.
End alone.

(** ** Reading the shared state off the call *)

Lemma X_fulfilled k sF sM p v :
  X k sF sM → promises sM !! p = Some (Fulfilled v) →
  Full.promises sF !! p = Some (Full.Fulfilled v).
Proof.
  intros [Hs (_ & C2 & _) _] Hp. rewrite (sim_promises _ _ _ Hs) in Hp.
  case_decide as Hk; [|done].
  destruct (Full.promises sF !! p) as [[rs|w|e]|] eqn:HP; cbn in Hp; try done.
  - by injection Hp as ->.
  - by destruct (C2 p e Hk).
Qed.

Lemma X_pending k sF sM p :
  X k sF sM → promises sM !! p = Some (Pending []) →
  Full.promises sF !! p = Some (Full.Pending []).
Proof.
  intros [Hs _ _] Hp. rewrite (sim_promises _ _ _ Hs) in Hp.
  case_decide as Hk; [|done].
  destruct (Full.promises sF !! p) as [[rs|w|e]|] eqn:HP; cbn in Hp; try done.
  injection Hp as Hrs. apply fmap_nil_inv in Hrs. by subst.
Qed.

(** ** The call is made *)

Lemma omap_none {A B} (f : A → option B) (l : list A) :
  Forall (λ x, f x = None) l → omap f l = [].
Proof. induction 1 as [|x l Hx _ IH]; [done|]. by rewrite omap_cons, Hx. Qed.

(** Before call [k] is made, the shared state holds nothing of it. *)
Lemma X_initial k sF : Wf k sF → X k sF (set_ncalls k fresh).
Proof.
  intros [[C1 C2] (B1 & B2 & B3 & B4 & B5)]. split; [split| |]; cbn.
  - symmetry. apply filter_none. rewrite list.Forall_forall in B1.
    intros l Hl Hk. specialize (B1 l Hl). lia.
  - intros p. rewrite lookup_empty. case_decide as Hk; [|done].
    destruct (Full.promises sF !! p) eqn:HP; [|done].
    assert (owner p < k) by (apply B2; by rewrite HP). lia.
  - intros p. rewrite lookup_empty. case_decide as Hk; [|done].
    destruct (Full.slots sF !! p) eqn:HP; [|done].
    assert (owner p < k) by (apply B3; by rewrite HP). lia.
  - symmetry. apply omap_none. eapply list.Forall_impl; [exact B4|]. cbn. intros j Hj.
    unfold tr_job. rewrite decide_False by lia. done.
  - symmetry. apply omap_none. eapply list.Forall_impl; [exact B5|]. cbn. intros c Hc.
    unfold tr_call. rewrite decide_False by lia. done.
  - done.
  - unfold Calm. split_and!.
    + intros p rs Hk HP. assert (owner p < k) by (apply B2; by rewrite HP). lia.
    + intros p e Hk HP. assert (owner p < k) by (apply B2; by rewrite HP). lia.
    + eapply list.Forall_impl; [exact B4|]. cbn. intros j Hj Hk. lia.
  - unfold Ord. cbn. done.
Qed.

(** * The entry points on an application in use *)

Lemma tr_given_caller f : from_caller (tr_handler (Full.given f)).
Proof. by destruct f as [[? ?]|]. Qed.

Lemma idle_fresh_ncalls n : idle (set_ncalls n fresh).
Proof. done. Qed.

Lemma call_after_signal_F events h s :
  (Full.call_after events h s).1 = PAfter (Full.ncalls s).
Proof. exact (after_signal_F _ _ _ _). Qed.

Lemma call_onceAny_signal_F events h s :
  (Full.call_onceAny events h s).1 = PCleaned (Top (Full.ncalls s)).
Proof. exact (onceAny_signal_F _ _ _ _). Qed.



Section entry.
Context (pre post : list Full.action).
Let s0 := Full.run pre Full.fresh.
Let k := Full.ncalls s0.

Lemma entry_Wf : Wf k s0.
Proof. apply Wf_reached. Qed.

Lemma entry_X : X k (Full.set_ncalls (S k) s0) (set_ncalls (S k) (set_ncalls k fresh)).
Proof. eapply X_ncalls. apply X_initial, entry_Wf. Qed.

Lemma entry_Wf_S : Wf (S k) (Full.set_ncalls (S k) s0).
Proof. apply Wf_ncalls. eapply Wf_mono; [|apply entry_Wf]. lia. Qed.

(** What follows a call: the call alone, after the same emissions, with
    an empty queue. *)
Lemma entry_rest S a sM :
  run_of S = k → from_caller (caller_handler S) → is_call a = true →
  X k (Full.perform s0 a) sM → Inv S [] sM →
  ∃ sM', X k (Full.drain (Full.run post (Full.perform s0 a))) sM'
         ∧ Inv S (Full.emissions post) sM' ∧ jobs sM' = [].
Proof.
  intros Hk Hwf Ha HX HI.
  assert (Wf (Full.ncalls (Full.perform s0 a)) (Full.perform s0 a)) as HW.
  { apply Wf_perform, entry_Wf. }
  assert (k < Full.ncalls (Full.perform s0 a)) as Hlt.
  { rewrite ncalls_perform, Ha. unfold k. lia. }
  rewrite <-Hk in HX, Hlt.
  destruct (X_run S Hwf post [] _ sM HW Hlt HX HI) as (sM1 & HX1 & HI1).
  destruct (X_drain S Hwf _ _ sM1 (Wf_run post _ HW) HX1 HI1) as (sM2 & HX2 & HI2 & HQ).
  exists sM2. rewrite Hk in HX2. done.
Qed.

Lemma after_made events f :
  Forall ordinary_element (elements events) → returns (Full.given f) →
  X k (Full.perform s0 (Full.After events f))
      (after k events (tr_handler (Full.given f)) (set_ncalls (S k) (set_ncalls k fresh))).2.
Proof.
  intros Hord Hret. cbn [Full.perform]. unfold Full.call_after.
  apply (X_after_own k (S k)); [lia|by destruct events|apply given_caller|exact Hret| |].
  - apply entry_Wf_S.
  - apply entry_X.
Qed.

Lemma after_made_Inv events f :
  Inv (SAfter k (elements events) (tr_handler (Full.given f)) false) []
      (after k events (tr_handler (Full.given f)) (set_ncalls (S k) (set_ncalls k fresh))).2.
Proof.
  eapply Inv_initial; [apply tr_given_caller|apply (idle_fresh_ncalls (S k))|].
  replace (after k events) with (after k (Events (elements events)))
    by (by destruct events).
  exact (proj2 (after_fold_called _ _ _ _)).
Qed.

Lemma after_alone events f :
  Forall ordinary_element (elements events) → returns (Full.given f) →
  ∃ sM, X k (Full.drain (Full.run post (Full.perform s0 (Full.After events f)))) sM
        ∧ Inv (SAfter k (elements events) (tr_handler (Full.given f)) false)
              (Full.emissions post) sM
        ∧ jobs sM = [].
Proof.
  intros Hord Hret.
  pose proof (entry_rest (SAfter k (elements events) (tr_handler (Full.given f)) false)
                (Full.After events f)
                (after k events (tr_handler (Full.given f))
                       (set_ncalls (S k) (set_ncalls k fresh))).2) as H.
  specialize (H eq_refl). specialize (H (tr_given_caller f)). specialize (H eq_refl).
  specialize (H (after_made events f Hord Hret)). specialize (H (after_made_Inv events f)).
  exact H.
Qed.

Lemma onceAny_made events f :
  Forall ordinary (names events) → returns (Full.given f) →
  X k (Full.perform s0 (Full.OnceAny events f))
      (onceAny (Top k) events (tr_handler (Full.given f))
               (set_ncalls (S k) (set_ncalls k fresh))).2.
Proof.
  intros Hord Hret. cbn [Full.perform]. unfold Full.call_onceAny.
  apply (X_onceAny_own k (S k)); [done|lia|by destruct events| |exact Hret| |].
  - intros p Hp. by destruct (given_caller f p).
  - apply entry_Wf_S.
  - apply entry_X.
Qed.

Lemma onceAny_made_Inv events f :
  Inv (SAny k (names events) (tr_handler (Full.given f))) []
      (onceAny (Top k) events (tr_handler (Full.given f))
               (set_ncalls (S k) (set_ncalls k fresh))).2.
Proof.
  eapply Inv_initial; [apply tr_given_caller|apply (idle_fresh_ncalls (S k))|].
  replace (onceAny (Top k) events) with (onceAny (Top k) (Names (names events)))
    by (by destruct events).
  apply onceAny_called.
Qed.

Lemma onceAny_alone events f :
  Forall ordinary (names events) → returns (Full.given f) →
  ∃ sM, X k (Full.drain (Full.run post (Full.perform s0 (Full.OnceAny events f)))) sM
        ∧ Inv (SAny k (names events) (tr_handler (Full.given f))) (Full.emissions post) sM
        ∧ jobs sM = [].
Proof.
  intros Hord Hret.
  pose proof (entry_rest (SAny k (names events) (tr_handler (Full.given f)))
                (Full.OnceAny events f)
                (onceAny (Top k) events (tr_handler (Full.given f))
                         (set_ncalls (S k) (set_ncalls k fresh))).2) as H.
  specialize (H eq_refl). specialize (H (tr_given_caller f)). specialize (H eq_refl).
  specialize (H (onceAny_made events f Hord Hret)).
  specialize (H (onceAny_made_Inv events f)).
  exact H.
Qed.




(** The signals once the queue is empty. *)
Lemma after_outcome_F events f :
  Forall ordinary_element (elements events) → returns (Full.given f) →
  Full.outcome (Full.call_after events (Full.given f) s0).1
               (Full.run post (Full.call_after events (Full.given f) s0).2) =
    Some (match mapM (captured (Full.emissions post)) (elements events) with
          | Some vs => Full.Fulfilled (VArr vs)
          | None => Full.Pending []
          end).
Proof.
  intros Hord Hret. destruct (after_alone events f Hord Hret) as (sM & HX & HI & HQ).
  unfold Full.outcome. rewrite call_after_signal_F.
  change (Full.call_after events (Full.given f) s0).2
    with (Full.perform s0 (Full.After events f)).
  pose proof (quiet_after _ _ _ _ _ _ (tr_given_caller f) HI HQ) as H.
  destruct (mapM _ _) as [vs|].
  - by eapply X_fulfilled.
  - by eapply X_pending.
Qed.

Lemma onceAny_outcome_F events f :
  Forall ordinary (names events) → returns (Full.given f) →
  Full.outcome (Full.call_onceAny events (Full.given f) s0).1
               (Full.run post (Full.call_onceAny events (Full.given f) s0).2) =
    Some (match heard_any (names events) (Full.emissions post) with
          | Some v => Full.Fulfilled (VArr [v])
          | None => Full.Pending []
          end).
Proof.
  intros Hord Hret. destruct (onceAny_alone events f Hord Hret) as (sM & HX & HI & HQ).
  unfold Full.outcome. rewrite call_onceAny_signal_F.
  change (Full.call_onceAny events (Full.given f) s0).2
    with (Full.perform s0 (Full.OnceAny events f)).
  assert (group (SAny k (names events) (tr_handler (Full.given f))) (Top k)
          = Some (names events, tr_handler (Full.given f))) as Hg.
  { cbn. by rewrite decide_True. }
  pose proof (quiet_cleaned _ _ _ _ _ _ HI HQ Hg) as H.
  destruct (heard_any _ _) as [v|].
  - by eapply X_fulfilled.
  - by eapply X_pending.
Qed.



End entry.

(** * The repository's tests, replayed *)

(** [app.after([ 'test1' ]); app.emit('test1')] *)
Example test_after_single_event :
  outcome (call_after (Events [Name "test1"%string]) NOOP fresh).1
          (run [Emit "test1" []] (call_after (Events [Name "test1"%string]) NOOP fresh).2)
  = Some (Fulfilled (VArr [VUndefined])).
Proof. vm_compute. reflexivity. Qed.

(** [app.after([['test6', 'test7'], 'test8']); app.emit('test6'); app.emit('test8')] *)
Example test_after_possible_events :
  outcome (call_after (Events [AnyOf ["test6"; "test7"]%string; Name "test8"%string])
                      NOOP fresh).1
          (run [Emit "test6" []; Emit "test8" []]
               (call_after (Events [AnyOf ["test6"; "test7"]%string; Name "test8"%string])
                           NOOP fresh).2)
  = Some (Fulfilled (VArr [VArr [VUndefined]; VUndefined])).
Proof. vm_compute. reflexivity. Qed.

(** [app.after(['test11', 'test12'], ([t1, t2]) => ...); app.emit('test11', 11);
    app.emit('test12', 12)] *)
Example test_after_callback :
  calls (drain (run [Emit "test11" [VNum 11]; Emit "test12" [VNum 12]]
                    (call_after (Events [Name "test11"; Name "test12"]%string)
                                (HUser 0 (λ _, VUndefined)) fresh).2))
  = [(0, VArr [VNum 11; VNum 12])].
Proof. vm_compute. reflexivity. Qed.

(** [app.onceAny('test1').then(t1 => assert.equal(t1, 1)); app.emit('test1', 1)]:
    [t1] is the array [[1]], which the loose comparison takes for 1. *)
Example test_onceAny_parameters :
  outcome (call_onceAny (OneName "test1"%string) NOOP fresh).1
          (run [Emit "test1" [VNum 1]] (call_onceAny (OneName "test1"%string) NOOP fresh).2)
  = Some (Fulfilled (VArr [VNum 1])).
Proof. vm_compute. reflexivity. Qed.

(** * The event barriers: where the code misses its specification

    Two calls on a new application, each followed by one emission.  The
    signal is read once the job queue has run ([outcome]). *)

(** C1: [onceAny] does not remove every listener it registered.  Called with
    the names a and b on a new application, it settles when b is emitted, and
    the listener it attached for a is still on the bus once the queue has run:
    the cleanup removes the resolve function it kept last, the one of b, under
    each of the names. *)
Theorem onceAny_leaves_listener args :
  outcome (call_onceAny (Names ["a"; "b"]%string) NOOP fresh).1
          (run [Emit "b" args] (call_onceAny (Names ["a"; "b"]%string) NOOP fresh).2)
    = Some (Fulfilled (VArr [hd VUndefined args]))
  ∧ listeners (drain (run [Emit "b" args]
                          (call_onceAny (Names ["a"; "b"]%string) NOOP fresh).2))
    = [("a"%string, PListener (Top 0) 0)].
Proof. split; vm_compute; reflexivity. Qed.

(** C2: [onceAny] does not settle with the argument list of the event.  The
    wrapper collects what it is called with, [(...args)], but it is called by
    the promise, with the one value the resolve function was given: after
    [emit('a', 1, 2)] the signal holds the list [[1]], not [[1, 2]]. *)
Theorem onceAny_drops_arguments :
  outcome (call_onceAny (OneName "a"%string) NOOP fresh).1
          (run [Emit "a" [VNum 1; VNum 2]] (call_onceAny (OneName "a"%string) NOOP fresh).2)
    = Some (Fulfilled (VArr [VNum 1]))
  ∧ VArr [VNum 1] ≠ VArr [VNum 1; VNum 2].
Proof. split; [vm_compute; reflexivity|discriminate]. Qed.

(** * The event barriers: what holds of them

    The theorems are about a call made on an application in use: a new
    application on which the program has done [pre] (emissions, returns to
    the event loop, calls of [onceAny], [after] and [start] with handlers of
    its own), followed by whatever the program does next, [post].  The
    signal is read once the job queue has run ([Full.outcome]).  The names a
    call waits for are [ordinary]: not [newListener] nor [removeListener],
    which the emitter emits by itself. *)










(** C10: on the empty list the two combinators differ, on any application
    and whatever the program does next.  The signal of [after] is settled
    with the empty list as soon as the queue has run; the signal of [onceAny]
    stays pending. *)
Theorem empty_event_lists pre post :
  Full.outcome (Full.call_after (Events []) Full.NOOP (reached pre)).1
               (Full.run post (Full.call_after (Events []) Full.NOOP (reached pre)).2)
    = Some (Full.Fulfilled (VArr []))
  ∧ Full.outcome (Full.call_onceAny (Names []) Full.NOOP (reached pre)).1
                 (Full.run post (Full.call_onceAny (Names []) Full.NOOP (reached pre)).2)
    = Some (Full.Pending []).
Proof.
  unfold reached. split.
  - pose proof (after_outcome_F pre post (Events []) None (Forall_nil _) I) as H.
    cbn [Full.given elements] in H. by rewrite H.
  - pose proof (onceAny_outcome_F pre post (Names []) None (Forall_nil _) I) as H.
    cbn [Full.given names] in H. rewrite H.
    assert (heard_any [] (Full.emissions post) = None) as ->; [|done].
    apply eq_None_not_Some. unfold heard_any. rewrite heard_Some.
    intros (n & _ & Hn%bool_decide_eq_true). by apply elem_of_nil in Hn.
Qed.

(** * Construction: facts *)

Lemma new_Pack_fold ps w :
  process_env (foldl new_Pack w ps) = process_env w
  ∧ heap (foldl new_Pack w ps) = heap w
  ∧ constructed (foldl new_Pack w ps) = constructed w ++ (pack_name <$> ps).
Proof.
  revert w. induction ps as [|P ps IH]; intros w; cbn.
  - by rewrite app_nil_r.
  - destruct (IH (new_Pack w P)) as (-> & -> & ->). cbn. by rewrite <-app_assoc.
Qed.

(** A frozen object stays what it is. *)
Lemma mutate_frozen a o r m w :
  heap w !! a = Some o → frozen o = true → heap (mutate r m w).2 !! a = Some o.
Proof.
  intros Ha Hf. destruct r as [|b]; cbn; [done|].
  destruct (heap w !! b) as [o'|] eqn:Hb; [|done].
  destruct (frozen o') eqn:Hf'; [done|]. cbn.
  rewrite list_lookup_insert_ne; [done|]. intros ->. congruence.
Qed.

Lemma mutate_all_frozen a o ms w :
  heap w !! a = Some o → frozen o = true → heap (mutate_all ms w) !! a = Some o.
Proof.
  revert w. induction ms as [|[r m] ms IH]; intros w Ha Hf; [done|].
  cbn. apply IH; [|done]. by apply mutate_frozen.
Qed.

Lemma default_NODE_ENV_spec w :
  process_env (default_NODE_ENV w) = defaulted (process_env w)
  ∧ heap (default_NODE_ENV w) = heap w
  ∧ constructed (default_NODE_ENV w) = constructed w.
Proof.
  unfold default_NODE_ENV, defaulted.
  by destruct (unset (process_env w !! "NODE_ENV"%string)).
Qed.

Lemma construct_ok d w t w' :
  construct d w = (inr t, w') →
  env t = Heap (length (heap w))
  ∧ heap w' !! length (heap w) = Some (Object (defaulted (process_env w)) true)
  ∧ process_env w' = defaulted (process_env w).
Proof.
  unfold construct.
  destruct (truthy (pkg d)); [|done]. destruct (truthy (api d)); [|done]. cbn [negb andb].
  destruct (default_NODE_ENV_spec w) as (He & Hh & _).
  set (w1 := default_NODE_ENV w) in *. unfold json_copy.
  destruct (validateConfig (config d)); [done|].
  intros [= <- <-]. cbn [env].
  match goal with
  | |- context [foldl new_Pack ?x ?ps] => destruct (new_Pack_fold ps x) as (-> & -> & _)
  end.
  cbn. rewrite He, Hh. split; [done|]. split; [|done].
  rewrite list_lookup_alter, lookup_app_r, Nat.sub_diag by lia.
  by rewrite decide_True.
Qed.

Lemma construct_get d w t w' ms key :
  construct d w = (inr t, w') →
  get (env t) key (mutate_all ms w') = defaulted (process_env w) !! key.
Proof.
  intros (-> & Ha & _)%construct_ok. cbn.
  by rewrite (mutate_all_frozen _ _ ms w' Ha).
Qed.

(** * Construction: what holds of it *)

(** The test of the frozen environment: [process.env.FOO = 'bar'], then a
    new application; [app.env.FOO] is ['bar'] and [app.env.FOO = 1] throws a
    [TypeError]. *)
Example test_env_frozen :
  (λ r, (get (Heap 0) "FOO" r.2, (mutate (Heap 0) (Assign "FOO" "1") r.2).1))
    (construct (Def (Some (Opaque 0)) (Some (Opaque 1)) (Configuration (Some (Opaque 2)) []))
               (World {["FOO"%string := "bar"%string]} [] []))
  = (Some "bar"%string, Some TypeError).
Proof. vm_compute. reflexivity. Qed.

(** C6: without [pkg] the constructor throws the package error; with [pkg] and
    without [api], the api error; with both and no logger in the configuration,
    the logger error.  Each time no pack constructor has run, and no
    application object is returned. *)
Theorem construct_errors d w :
  (pkg d = None → construct d w = (inl PackageNotDefinedError, w))
  ∧ (is_Some (pkg d) → api d = None → construct d w = (inl ApiNotDefinedError, w))
  ∧ (is_Some (pkg d) → is_Some (api d) → logger (config d) = None →
       (construct d w).1 = inl LoggerNotDefinedError
       ∧ constructed (construct d w).2 = constructed w).
Proof.
  unfold construct. split_and!.
  - by intros ->.
  - by intros [p ->] ->.
  - intros [p ->] [a ->] Hl. cbn [truthy negb andb].
    unfold validateConfig. rewrite Hl. unfold json_copy. cbn.
    split; [done|]. apply default_NODE_ENV_spec.
Qed.

Lemma construct_errors_witness :
  logger (config (Def (Some (Opaque 0)) (Some (Opaque 1))
                      (Configuration None [Pack "core"%string]))) = None
  ∧ (construct (Def (Some (Opaque 0)) (Some (Opaque 1))
                    (Configuration None [Pack "core"%string])) (World ∅ [] [])).1
    = inl LoggerNotDefinedError
  ∧ constructed (construct (Def (Some (Opaque 0)) (Some (Opaque 1))
                                (Configuration None [Pack "core"%string]))
                           (World ∅ [] [])).2 = [].
Proof.
  split; [reflexivity|].
  exact (proj2 (proj2 (construct_errors
           (Def (Some (Opaque 0)) (Some (Opaque 1)) (Configuration None [Pack "core"%string]))
           (World ∅ [] [])))
         (ex_intro _ (Opaque 0) eq_refl) (ex_intro _ (Opaque 1) eq_refl) eq_refl).
Defined.

Lemma construct_keeps_objects d w a :
  a < length (heap w) → heap (construct d w).2 !! a = heap w !! a.
Proof.
  intros Ha. unfold construct.
  destruct (truthy (pkg d)); [|done]. destruct (truthy (api d)); [|done]. cbn [negb andb].
  destruct (default_NODE_ENV_spec w) as (_ & Hh & _).
  set (w1 := default_NODE_ENV w) in *. unfold json_copy.
  assert (heap (freeze (Heap (length (heap w1)))
                  (set_heap (λ h, h ++ [Object (process_env w1) false]) w1)) !! a
          = heap w !! a) as H.
  { cbn. rewrite Hh, list_lookup_alter_ne by lia. by rewrite lookup_app_l. }
  destruct (validateConfig (config d)); [done|]. cbn [fst snd].
  match goal with
  | |- context [foldl new_Pack ?x ?ps] => destruct (new_Pack_fold ps x) as (_ & -> & _)
  end.
  done.
Qed.

(** C7, as the code has it: a call that is given [pkg] and [api] sets
    [NODE_ENV] to the development default when the variable is unset or empty
    and leaves it as it is otherwise; it changes no other variable of the
    process environment and no object that exists.  A call that fails one of
    the two checks changes nothing at all. *)
Theorem construct_process_env d w :
  (truthy (pkg d) && truthy (api d) = false → (construct d w).2 = w)
  ∧ (truthy (pkg d) && truthy (api d) = true →
       process_env (construct d w).2 = defaulted (process_env w))
  ∧ (∀ a, a < length (heap w) → heap (construct d w).2 !! a = heap w !! a).
Proof.
  split_and!.
  - unfold construct. destruct (truthy (pkg d)); [|done]. by destruct (truthy (api d)).
  - unfold construct.
    destruct (truthy (pkg d)); [|done]. destruct (truthy (api d)); [|done].
    intros _. cbn [negb andb].
    destruct (default_NODE_ENV_spec w) as (He & _ & _).
    unfold json_copy.
    destruct (validateConfig (config d)); cbn [snd]; [by rewrite <-He|].
    match goal with
    | |- context [foldl new_Pack ?x ?ps] => destruct (new_Pack_fold ps x) as (-> & _ & _)
    end.
    by rewrite <-He.
  - apply construct_keeps_objects.
Qed.

(** C7, the counterexample: a call without [pkg] leaves [NODE_ENV] unset; and
    a call finds [NODE_ENV] set to the empty string and overwrites it. *)
Lemma construct_NODE_ENV_cases :
  process_env (construct (Def None (Some (Opaque 1)) (Configuration (Some (Opaque 2)) []))
                         (World ∅ [] [])).2 !! "NODE_ENV"%string = None
  ∧ process_env (construct (Def (Some (Opaque 0)) (Some (Opaque 1))
                                (Configuration (Some (Opaque 2)) []))
                           (World {["NODE_ENV"%string := EmptyString]} [] [])).2
      !! "NODE_ENV"%string = Some "development"%string.
Proof. split; vm_compute; reflexivity. Qed.

(** C8: the [env] of an application object holds the process environment as
    it was when the constructor copied it, whatever is written afterwards to
    the process environment or to any object; and strict code that assigns to
    a property of [env], or deletes one it has, gets a [TypeError] and changes
    nothing. *)
Theorem env_snapshot_frozen d w t w' :
  construct d w = (inr t, w') →
  (∀ key, get (env t) key w' = process_env w' !! key)
  ∧ (∀ ms key, get (env t) key (mutate_all ms w') = get (env t) key w')
  ∧ (∀ ms m, (mutate (env t) m (mutate_all ms w')).2 = mutate_all ms w'
       ∧ (mutate (env t) m (mutate_all ms w')).1 =
           match m with
           | Assign _ _ => Some TypeError
           | Delete key =>
               if decide (is_Some (get (env t) key w')) then Some TypeError else None
           end).
Proof.
  intros H.
  assert (∀ key, get (env t) key w' = defaulted (process_env w) !! key) as Hget.
  { intros key. exact (construct_get d w t w' [] key H). }
  destruct (construct_ok d w t w' H) as (Ht & Ha & He).
  split_and!.
  - intros key. by rewrite Hget, He.
  - intros ms key. by rewrite (construct_get d w t w' ms key H), Hget.
  - intros ms m.
    pose proof (mutate_all_frozen _ _ ms w' Ha eq_refl) as Hms.
    rewrite Ht. cbn. rewrite Hms, Ha. cbn. split; [done|].
    by destruct m.
Qed.

Lemma env_snapshot_frozen_witness :
  construct (Def (Some (Opaque 0)) (Some (Opaque 1)) (Configuration (Some (Opaque 2)) []))
            (World {["FOO"%string := "bar"%string]} [] [])
  = (inr (Trails (Heap 0) (Some (Opaque 0)) (Some (Opaque 1)) fresh),
     World {["FOO"%string := "bar"%string; "NODE_ENV"%string := "development"%string]}
           [Object {["FOO"%string := "bar"%string; "NODE_ENV"%string := "development"%string]}
                   true] [])
  ∧ get (Heap 0) "FOO"
        (mutate_all [(ProcessEnv, Assign "FOO" "baz"); (Heap 0, Assign "FOO" "1")]
           (World {["FOO"%string := "bar"%string; "NODE_ENV"%string := "development"%string]}
              [Object {["FOO"%string := "bar"%string;
                        "NODE_ENV"%string := "development"%string]} true] []))
    = get (Heap 0) "FOO"
        (World {["FOO"%string := "bar"%string; "NODE_ENV"%string := "development"%string]}
           [Object {["FOO"%string := "bar"%string; "NODE_ENV"%string := "development"%string]}
                   true] []).
Proof.
  assert (construct (Def (Some (Opaque 0)) (Some (Opaque 1))
                         (Configuration (Some (Opaque 2)) []))
            (World {["FOO"%string := "bar"%string]} [] [])
  = (inr (Trails (Heap 0) (Some (Opaque 0)) (Some (Opaque 1)) fresh),
     World {["FOO"%string := "bar"%string; "NODE_ENV"%string := "development"%string]}
           [Object {["FOO"%string := "bar"%string; "NODE_ENV"%string := "development"%string]}
                   true] [])) as H by (vm_compute; reflexivity).
  split; [exact H|].
  exact (proj1 (proj2 (env_snapshot_frozen _ _ _ _ H))
           [(ProcessEnv, Assign "FOO" "baz"); (Heap 0, Assign "FOO" "1")] "FOO"%string).
Defined.

(** * The bus on any state *)

(** ** The debug log *)

Lemma resolve_trace p v s : trace (resolve p v s) = trace s.
Proof. unfold resolve. by destruct (promises s !! p) as [[rs|w]|]. Qed.

Lemma fire_fold_trace name args F s :
  trace (foldl (fire name args) s F) = trace s.
Proof.
  revert s. induction F as [|l F IH]; intros s; [done|].
  cbn [foldl]. rewrite IH. unfold fire. by rewrite resolve_trace.
Qed.

Lemma emit_trace name args s : trace (emit name args s) = trace s ++ [name].
Proof. unfold emit. by rewrite fire_fold_trace. Qed.

Lemma cleanup_trace rc events s :
  trace (foldl (λ s eventName,
                  match rc with
                  | Some p => removeListener eventName p s
                  | None => s
                  end) s events) = trace s.
Proof.
  revert s. induction events as [|e events IH]; intros s; [done|].
  cbn [foldl]. rewrite IH. by destruct rc.
Qed.

Lemma run_callback_trace k v s : trace (run_callback k v s).1 = trace s.
Proof.
  destruct k as [h|events rc|h|]; cbn.
  - destruct h; cbn; by rewrite ?resolve_trace.
  - apply cleanup_trace.
  - destruct h; cbn; by rewrite ?resolve_trace.
  - done.
Qed.

Lemma run_job_trace j s : trace (run_job j s) = trace s.
Proof.
  destruct j as [[k q|r|q i] v]; cbn.
  - pose proof (run_callback_trace k v s) as H.
    destruct (run_callback k v s) as [s' w]. by rewrite resolve_trace.
  - apply resolve_trace.
  - destruct (slots s !! q) as [l|]; [|done].
    destruct (l !! i) as [[x|]|]; try done.
    destruct (filled (<[i:=Some v]> l)); [|done]. by rewrite resolve_trace.
Qed.

Lemma step_trace s : trace (step s) = trace s.
Proof. unfold step. destruct (jobs s) as [|j q]; [done|]. by rewrite run_job_trace. Qed.

Lemma drain_trace s : trace (drain s) = trace s.
Proof.
  unfold drain. induction (backlog s) as [|n IH]; [done|].
  by rewrite Nat.iter_succ, step_trace.
Qed.

(** ** Listeners are one-shot *)

Lemma remove_last_perm (x : string * pid) l : x ∈ l → l ≡ₚ x :: remove_last x l.
Proof.
  induction l as [|y l IH]; [by intros ?%elem_of_nil|].
  intros Hx. cbn [remove_last]. destruct (decide (x ∈ l)) as [Hl|Hl].
  - rewrite (IH Hl) at 1. apply Permutation_swap.
  - apply elem_of_cons in Hx as [->|?]; [|done]. by rewrite decide_True.
Qed.

Lemma fire_fold_listeners name args F s :
  listeners (foldl (fire name args) s F)
  = foldl (λ acc l, remove_last (name, l.2) acc) (listeners s) F.
Proof.
  revert s. induction F as [|l F IH]; intros s; [done|].
  cbn [foldl]. rewrite IH. unfold fire. by rewrite resolve_listeners.
Qed.

Lemma remove_all_named name F (L : list (string * pid)) :
  filter (λ l, l.1 = name) L ≡ₚ F →
  filter (λ l, l.1 = name) (foldl (λ acc l, remove_last (name, l.2) acc) L F) = []
  ∧ filter (λ l, l.1 ≠ name) (foldl (λ acc l, remove_last (name, l.2) acc) L F)
    = filter (λ l, l.1 ≠ name) L.
Proof.
  revert L. induction F as [|[n p] F IH]; intros L HF.
  - cbn. split; [|done]. by apply Permutation_nil_r.
  - assert ((n, p) ∈ filter (λ l, l.1 = name) L) as Hin by (rewrite HF; left).
    apply list_elem_of_filter in Hin as [Hn Hin]. cbn in Hn. subst n. cbn [foldl snd].
    destruct (IH (remove_last (name, p) L)) as [H1 H2].
    + apply (Permutation_cons_inv (a := (name, p))).
      rewrite <-HF. rewrite (remove_last_perm _ _ Hin) at 2.
      by rewrite filter_cons_True.
    + split; [done|]. rewrite H2. apply remove_last_filter_other. cbn. by intros [].
Qed.

Lemma fire_fold_calls name args F s :
  calls (foldl (fire name args) s F) = calls s
  ∧ started (foldl (fire name args) s F) = started s.
Proof.
  revert s. induction F as [|l F IH]; intros s; [done|].
  cbn [foldl]. destruct (IH (fire name args s l)) as [-> ->].
  unfold fire. by rewrite resolve_calls, resolve_started.
Qed.

Lemma imap_fst {A B} (f : nat → B) (l : list A) : (imap (λ j n, (n, f j)) l).*1 = l.
Proof.
  apply list_eq. intros i. rewrite list_lookup_fmap, list_lookup_imap.
  by destruct (l !! i).
Qed.

Lemma entries_names k i e : (entries k i e).*1 = element_names e.
Proof. destruct e as [n|g]; [done|]. apply imap_fst. Qed.

Lemma initial_listeners_after_names k es h st :
  (initial_listeners (SAfter k es h st)).*1 = concat (element_names <$> es).
Proof.
  cbn. induction es as [|e es IH] using rev_ind; [done|].
  rewrite imap_app, fmap_app, !concat_app, fmap_app, IH. cbn.
  by rewrite !app_nil_r, entries_names.
Qed.

Lemma call_onceAny_called events h s :
  called (SAny (ncalls s) (names events) h) (set_ncalls (S (ncalls s)) s)
         (call_onceAny events h s).2.
Proof.
  unfold call_onceAny.
  replace (onceAny (Top (ncalls s)) events h (set_ncalls (S (ncalls s)) s))
    with (onceAny (Top (ncalls s)) (Names (names events)) h (set_ncalls (S (ncalls s)) s))
    by (by destruct events).
  apply onceAny_called.
Qed.

Lemma call_after_called events h s :
  called (SAfter (ncalls s) (elements events) h false) (set_ncalls (S (ncalls s)) s)
         (call_after events h s).2.
Proof.
  unfold call_after.
  replace (after (ncalls s) events h (set_ncalls (S (ncalls s)) s))
    with (after (ncalls s) (Events (elements events)) h (set_ncalls (S (ncalls s)) s))
    by (by destruct events).
  exact (proj2 (after_fold_called _ _ _ _)).
Qed.

Lemma call_start_called s :
  called (SAfter (ncalls s) [Name "trails:ready"%string] NOOP true)
         (set_ncalls (S (ncalls s)) s) (call_start s).2.
Proof. unfold call_start. exact (proj2 (start_called _ _)). Qed.

(** * The bus on any state: what holds *)

(** X3: handlers run in promise jobs only.  In any state, neither an [emit]
    nor the call of [onceAny], [after] or [start] itself calls a handler or
    sets [started]. *)
Theorem handlers_are_deferred name args any_events after_events h s :
  (calls (emit name args s) = calls s ∧ started (emit name args s) = started s)
  ∧ (calls (call_onceAny any_events h s).2 = calls s
     ∧ started (call_onceAny any_events h s).2 = started s)
  ∧ (calls (call_after after_events h s).2 = calls s
     ∧ started (call_after after_events h s).2 = started s)
  ∧ (calls (call_start s).2 = calls s ∧ started (call_start s).2 = started s).
Proof.
  split_and!.
  - unfold emit. by destruct (fire_fold_calls name args
      (filter (λ l, l.1 = name) (listeners s)) (set_trace (λ t, t ++ [name]) s)) as [-> _].
  - unfold emit. by destruct (fire_fold_calls name args
      (filter (λ l, l.1 = name) (listeners s)) (set_trace (λ t, t ++ [name]) s)) as [_ ->].
  - by rewrite (called_calls _ _ _ (call_onceAny_called any_events h s)).
  - by rewrite (called_started _ _ _ (call_onceAny_called any_events h s)).
  - by rewrite (called_calls _ _ _ (call_after_called after_events h s)).
  - by rewrite (called_started _ _ _ (call_after_called after_events h s)).
  - by rewrite (called_calls _ _ _ (call_start_called s)).
  - by rewrite (called_started _ _ _ (call_start_called s)).
Qed.

(** * The barriers over longer and other scripts *)

Lemma emissions_app script more :
  emissions (script ++ more) = emissions script ++ emissions more.
Proof. apply omap_app. Qed.

Lemma heard_app P hist more v :
  heard P hist = Some v → heard P (hist ++ more) = Some v.
Proof.
  induction hist as [|[n args] hist IH]; [done|]. cbn. by destruct (P n).
Qed.

Lemma captured_app hist more e v :
  captured hist e = Some v → captured (hist ++ more) e = Some v.
Proof.
  destruct e as [n|g]; cbn.
  - apply heard_app.
  - intros (x & Hx & ->)%fmap_Some. unfold heard_any. by rewrite (heard_app _ _ _ x).
Qed.

Lemma mapM_agree {A B} (f g : A → option B) (l : list A) vs :
  mapM f l = Some vs → (∀ x v, x ∈ l → f x = Some v → g x = Some v) → mapM g l = Some vs.
Proof.
  revert vs. induction l as [|x l IH]; intros vs; [done|]. cbn.
  destruct (f x) as [v|] eqn:Hv; [|done]. cbn.
  destruct (mapM f l) as [ws|] eqn:Hws; [|done]. cbn. intros [= <-] Hfg.
  rewrite (Hfg x v) by (done || left). cbn.
  rewrite (IH ws eq_refl); [done|]. intros y w Hy. apply Hfg. by right.
Qed.

Lemma heard_relevant (P : string → bool) (Q : list string)
    (hist : list (string * list value)) :
  (∀ n, P n = true → n ∈ Q) →
  heard P (filter (λ e, e.1 ∈ Q) hist) = heard P hist.
Proof.
  intros HPQ. induction hist as [|[n args] hist IH]; [done|].
  rewrite filter_cons. cbn [fst]. destruct (decide (n ∈ Q)) as [Hn|Hn]; cbn.
  - by rewrite IH.
  - rewrite IH. destruct (P n) eqn:HP; [|done]. by apply HPQ in HP.
Qed.

Lemma heard_same (P : string → bool) (Q : list string)
    (hist hist' : list (string * list value)) :
  (∀ n, P n = true → n ∈ Q) →
  filter (λ e, e.1 ∈ Q) hist = filter (λ e, e.1 ∈ Q) hist' →
  heard P hist = heard P hist'.
Proof.
  intros HPQ Heq.
  by rewrite <-(heard_relevant P Q hist), <-(heard_relevant P Q hist'), Heq.
Qed.

Lemma captured_same es (hist hist' : list (string * list value)) e :
  e ∈ es →
  filter (λ x, x.1 ∈ concat (element_names <$> es)) hist
  = filter (λ x, x.1 ∈ concat (element_names <$> es)) hist' →
  captured hist e = captured hist' e.
Proof.
  intros He Heq.
  assert (∀ n, n ∈ element_names e → n ∈ concat (element_names <$> es)) as Hsub.
  { intros n Hn. apply elem_of_concat. exists (element_names e). split; [done|].
    apply list_elem_of_fmap. by exists e. }
  destruct e as [n|g]; cbn.
  - apply (heard_same _ (concat (element_names <$> es))); [|done].
    intros m ->%bool_decide_eq_true. apply Hsub. cbn. left.
  - f_equal. apply (heard_same _ (concat (element_names <$> es))); [|done].
    intros m Hm%bool_decide_eq_true. by apply Hsub.
Qed.

Lemma mapM_ext_in {A B} (f g : A → option B) (l : list A) :
  (∀ x, x ∈ l → f x = g x) → mapM f l = mapM g l.
Proof.
  induction l as [|x l IH]; intros Hfg; [done|]. cbn.
  rewrite (Hfg x) by left. destruct (g x); cbn; [|done].
  rewrite IH; [done|]. intros y Hy. apply Hfg. by right.
Qed.

Lemma after_Inv_run events h s script :
  from_caller h → idle s →
  Inv (SAfter (ncalls s) (elements events) h false) (emissions script)
      (run script (call_after events h s).2).
Proof.
  intros Hwf Hidle. apply (Inv_run _ script []); [done|].
  eapply Inv_initial; [done|by apply (idle_set_ncalls (S (ncalls s)))|].
  apply call_after_called.
Qed.

(** * The barriers over longer and other scripts: what holds *)

Lemma emit_idle name args s :
  idle s → idle (emit name args s) ∧ ncalls (emit name args s) = ncalls s.
Proof.
  intros (Hl & Hp & Hj & Hc & Hst). unfold emit. rewrite Hl. cbn. by repeat split.
Qed.

Lemma drain_idle s : idle s → drain s = s.
Proof. intros (_ & _ & Hj & _). unfold drain. by apply iter_step_idle. Qed.

Lemma run_idle pre s : idle s → idle (run pre s) ∧ ncalls (run pre s) = ncalls s.
Proof.
  unfold run. revert s. induction pre as [|[n args|] pre IH]; intros s Hidle; cbn; [done| |].
  - destruct (emit_idle n args s Hidle) as [H1 H2].
    destruct (IH _ H1) as [H3 H4]. split; [done|congruence].
  - rewrite drain_idle by done. by apply IH.
Qed.

(** X10: a barrier does not see what was emitted before it was set up.  On an
    application on which any events have been emitted with nobody listening,
    [onceAny], [after] and [start] give the signal they give on a new
    application: it depends on the events emitted after the call only. *)
Theorem barriers_miss_earlier_events any_events after_events h s pre script :
  from_caller h → idle s →
  outcome (call_onceAny any_events h (run pre s)).1
          (run script (call_onceAny any_events h (run pre s)).2)
  = outcome (call_onceAny any_events h s).1 (run script (call_onceAny any_events h s).2)
  ∧ outcome (call_after after_events h (run pre s)).1
            (run script (call_after after_events h (run pre s)).2)
    = outcome (call_after after_events h s).1 (run script (call_after after_events h s).2)
  ∧ outcome (call_start (run pre s)).1 (run script (call_start (run pre s)).2)
    = outcome (call_start s).1 (run script (call_start s).2).
Proof.
  intros Hwf Hidle. destruct (run_idle pre s Hidle) as [Hidle' Hn]. split_and!.
  - by rewrite !onceAny_outcome.
  - by rewrite !after_outcome.
  - destruct (start_outcome s script Hidle) as [-> _].
    by destruct (start_outcome (run pre s) script Hidle') as [-> _].
Qed.

Lemma barriers_miss_earlier_events_witness :
  from_caller NOOP ∧ idle fresh
  ∧ outcome (call_start (run [Emit "trails:ready" []; Tick] fresh)).1
            (run [Tick] (call_start (run [Emit "trails:ready" []; Tick] fresh)).2)
    = Some (Pending []).
Proof.
  split; [exact I|]. split; [exact idle_fresh|].
  exact (proj2 (proj2 (barriers_miss_earlier_events (Names []) (Events []) NOOP fresh
                         [Emit "trails:ready" []; Tick] [Tick] I idle_fresh))).
Defined.

(** X15: no signal is settled when the call returns.  In any state, the
    promise [onceAny], [after] or [start] returns is pending, without
    reactions, when the call returns, also for [after] of the empty list: a
    signal is settled by a promise job, never by the call. *)
Theorem signals_start_pending any_events after_events h s :
  promises (call_onceAny any_events h s).2 !! (call_onceAny any_events h s).1
    = Some (Pending [])
  ∧ promises (call_after after_events h s).2 !! (call_after after_events h s).1
    = Some (Pending [])
  ∧ promises (call_start s).2 !! (call_start s).1 = Some (Pending []).
Proof.
  split_and!.
  - rewrite onceAny_signal, (called_promises _ _ _ (call_onceAny_called any_events h s)).
    cbn. by rewrite decide_True.
  - rewrite after_signal, (called_promises _ _ _ (call_after_called after_events h s)).
    cbn. by rewrite decide_True.
  - rewrite start_signal, (called_promises _ _ _ (call_start_called s)).
    cbn. by rewrite decide_True.
Qed.

(** * Construction: the packs, and several applications *)

Lemma mutate_heap_length r m w : length (heap (mutate r m w).2) = length (heap w).
Proof.
  destruct r as [|a]; cbn; [done|].
  destruct (heap w !! a) as [o|]; [|done]. destruct (frozen o); [done|].
  cbn. apply length_insert.
Qed.

Lemma mutate_all_heap_length ms w : length (heap (mutate_all ms w)) = length (heap w).
Proof.
  revert w. induction ms as [|[r m] ms IH]; intros w; [done|].
  cbn. change (foldl _ ?x ms) with (mutate_all ms x). by rewrite IH, mutate_heap_length.
Qed.

Lemma construct_heap d w t w' :
  construct d w = (inr t, w') →
  length (heap w') = S (length (heap w))
  ∧ ∀ a, a < length (heap w) → heap w' !! a = heap w !! a.
Proof.
  unfold construct.
  destruct (truthy (pkg d)); [|done]. destruct (truthy (api d)); [|done]. cbn [negb andb].
  destruct (default_NODE_ENV_spec w) as (_ & Hh & _).
  set (w1 := default_NODE_ENV w) in *. unfold json_copy.
  destruct (validateConfig (config d)); [done|].
  intros [= <- <-].
  match goal with
  | |- context [foldl new_Pack ?x ?ps] => destruct (new_Pack_fold ps x) as (_ & -> & _)
  end.
  cbn. rewrite Hh. split.
  - rewrite length_alter, length_app. cbn. lia.
  - intros a Ha. rewrite list_lookup_alter_ne by lia. by rewrite lookup_app_l.
Qed.

(** X12: the [env] of an application always has a run mode: whatever the
    process environment was, and whatever is written anywhere afterwards,
    [env.NODE_ENV] is a string that is not empty. *)
Theorem env_has_run_mode d w t w' ms :
  construct d w = (inr t, w') →
  unset (get (env t) "NODE_ENV" (mutate_all ms w')) = false.
Proof.
  intros H. rewrite (construct_get d w t w' ms _ H). unfold defaulted.
  destruct (unset (process_env w !! "NODE_ENV"%string)) eqn:Hu; [|done].
  by rewrite lookup_insert_eq.
Qed.

Lemma env_has_run_mode_witness :
  construct (Def (Some (Opaque 0)) (Some (Opaque 1)) (Configuration (Some (Opaque 2)) []))
            (World {["NODE_ENV"%string := EmptyString]} [] [])
  = (inr (Trails (Heap 0) (Some (Opaque 0)) (Some (Opaque 1)) fresh),
     World {["NODE_ENV"%string := "development"%string]}
           [Object {["NODE_ENV"%string := "development"%string]} true] [])
  ∧ unset (get (Heap 0) "NODE_ENV"
             (mutate_all [(ProcessEnv, Delete "NODE_ENV"); (Heap 0, Delete "NODE_ENV")]
                (World {["NODE_ENV"%string := "development"%string]}
                       [Object {["NODE_ENV"%string := "development"%string]} true] [])))
    = false.
Proof.
  assert (construct (Def (Some (Opaque 0)) (Some (Opaque 1))
                         (Configuration (Some (Opaque 2)) []))
            (World {["NODE_ENV"%string := EmptyString]} [] [])
  = (inr (Trails (Heap 0) (Some (Opaque 0)) (Some (Opaque 1)) fresh),
     World {["NODE_ENV"%string := "development"%string]}
           [Object {["NODE_ENV"%string := "development"%string]} true] []))
    as H by (vm_compute; reflexivity).
  split; [exact H|].
  exact (env_has_run_mode _ _ _ _
           [(ProcessEnv, Delete "NODE_ENV"); (Heap 0, Delete "NODE_ENV")] H).
Defined.

(** X13: every application has its own [env].  When a second application is
    constructed, after any writes to the process environment or to objects,
    its [env] is another object than the first's; it holds the process
    environment as it is then, while the [env] of the first still holds what
    it held. *)
Theorem construct_again_takes_new_snapshot d1 d2 w t1 w1 ms t2 w2 :
  construct d1 w = (inr t1, w1) →
  construct d2 (mutate_all ms w1) = (inr t2, w2) →
  env t1 ≠ env t2
  ∧ (∀ key, get (env t1) key w2 = get (env t1) key w1)
  ∧ (∀ key, get (env t2) key w2 = defaulted (process_env (mutate_all ms w1)) !! key).
Proof.
  intros H1 H2.
  destruct (construct_ok _ _ _ _ H1) as (He1 & Ha1 & _).
  destruct (construct_heap _ _ _ _ H1) as (Hlen1 & _).
  destruct (construct_ok _ _ _ _ H2) as (He2 & _ & _).
  destruct (construct_heap _ _ _ _ H2) as (_ & Hold2).
  rewrite mutate_all_heap_length, Hlen1 in He2, Hold2.
  split_and!.
  - rewrite He1, He2. intros [=]. lia.
  - intros key. rewrite He1. cbn. rewrite Hold2 by lia.
    by rewrite (mutate_all_frozen _ _ ms w1 Ha1), Ha1.
  - intros key. exact (construct_get d2 _ t2 w2 [] key H2).
Qed.

Lemma construct_again_takes_new_snapshot_witness :
  construct (Def (Some (Opaque 0)) (Some (Opaque 1)) (Configuration (Some (Opaque 2)) []))
            (World {["NODE_ENV"%string := "test"%string]} [] [])
  = (inr (Trails (Heap 0) (Some (Opaque 0)) (Some (Opaque 1)) fresh),
     World {["NODE_ENV"%string := "test"%string]}
           [Object {["NODE_ENV"%string := "test"%string]} true] [])
  ∧ construct (Def (Some (Opaque 0)) (Some (Opaque 1)) (Configuration (Some (Opaque 2)) []))
      (mutate_all [(ProcessEnv, Assign "NODE_ENV" "production")]
         (World {["NODE_ENV"%string := "test"%string]}
                [Object {["NODE_ENV"%string := "test"%string]} true] []))
    = (inr (Trails (Heap 1) (Some (Opaque 0)) (Some (Opaque 1)) fresh),
       World {["NODE_ENV"%string := "production"%string]}
             [Object {["NODE_ENV"%string := "test"%string]} true;
              Object {["NODE_ENV"%string := "production"%string]} true] [])
  ∧ Heap 0 ≠ Heap 1.
Proof.
  assert (construct (Def (Some (Opaque 0)) (Some (Opaque 1))
                         (Configuration (Some (Opaque 2)) []))
            (World {["NODE_ENV"%string := "test"%string]} [] [])
  = (inr (Trails (Heap 0) (Some (Opaque 0)) (Some (Opaque 1)) fresh),
     World {["NODE_ENV"%string := "test"%string]}
           [Object {["NODE_ENV"%string := "test"%string]} true] []))
    as H1 by (vm_compute; reflexivity).
  assert (construct (Def (Some (Opaque 0)) (Some (Opaque 1))
                         (Configuration (Some (Opaque 2)) []))
      (mutate_all [(ProcessEnv, Assign "NODE_ENV" "production")]
         (World {["NODE_ENV"%string := "test"%string]}
                [Object {["NODE_ENV"%string := "test"%string]} true] []))
    = (inr (Trails (Heap 1) (Some (Opaque 0)) (Some (Opaque 1)) fresh),
       World {["NODE_ENV"%string := "production"%string]}
             [Object {["NODE_ENV"%string := "test"%string]} true;
              Object {["NODE_ENV"%string := "production"%string]} true] []))
    as H2 by (vm_compute; reflexivity).
  split; [exact H1|]. split; [exact H2|].
  exact (proj1 (construct_again_takes_new_snapshot _ _ _ _ _ _ _ _ H1 H2)).
Defined.
